(** * A shallow embedding of the BusTub buffer pool: LRU-K replacer and
      buffer pool manager instance

    Sources embedded here:
    - [src/buffer/lru_k_replacer.cpp]  (module [Replacer])
    - [src/buffer/buffer_pool_manager_instance.cpp]  (module [BufferPool])

    Conventions.
    - [size_t] is a 64-bit unsigned integer, modelled as [Z] with the
      wrap-around [wrap64] written at every arithmetic operation.
    - [frame_id_t] and [page_id_t] are 32-bit signed integers, modelled as
      [Z]; [static_cast<frame_id_t>] of a [size_t] is [cast32].
    - A C++ call either returns, dies on a failed [BUSTUB_ASSERT], or has
      undefined behaviour (reading [front()] of an empty container,
      indexing outside the frame array, signed overflow).  The three cases
      are the constructors of [outcome].  For the scan of [Evict] the
      read of [front()] on an empty history is also given as a read that
      yields an arbitrary value ([Evict_read]), which is what the compiled
      scan does.
    - The mutexes are not modelled: every operation holds its latch for its
      whole body, so each one is an atomic state transformer. *)

From Stdlib Require Import ZArith List Lia Bool.
From Stdlib.Strings Require Import Byte.
From stdpp Require Import base option list gmap fin_maps.

Local Open Scope Z_scope.

(** ** Outcomes of a call *)

(** [BUSTUB_ASSERT(expr, message)] of [common/macros.h] is taken to be
    [assert(expr)]: a false [expr] ends the process. *)
Inductive outcome (A : Type) : Type :=
| Ok (a : A)          (* the call returned *)
| AssertFail          (* a BUSTUB_ASSERT failed: the process aborts *)
| Undefined.          (* the C++ standard gives the call no meaning *)
Arguments Ok {A} a.
Arguments AssertFail {A}.
Arguments Undefined {A}.

Definition obind {A B} (m : outcome A) (f : A → outcome B) : outcome B :=
  match m with
  | Ok a => f a
  | AssertFail => AssertFail
  | Undefined => Undefined
  end.

#[global] Instance outcome_bind : MBind outcome := λ A B f m, obind m f.
#[global] Instance outcome_ret : MRet outcome := λ A a, Ok a.
#[global] Instance outcome_fmap : FMap outcome := λ A B f m, obind m (λ a, Ok (f a)).

Ltac inj_ok :=
  repeat match goal with
  | H : Ok _ = Ok _ |- _ => inversion H; clear H; subst
  end.

(** Boolean comparisons in hypotheses, turned into propositions. *)
Ltac zbool :=
  repeat match goal with
  | H : (_ <? _) = true |- _ => apply Z.ltb_lt in H
  | H : (_ <? _) = false |- _ => apply Z.ltb_ge in H
  | H : (_ <=? _) = true |- _ => apply Z.leb_le in H
  | H : (_ <=? _) = false |- _ => apply Z.leb_gt in H
  | H : (_ =? _) = true |- _ => apply Z.eqb_eq in H
  | H : (_ =? _) = false |- _ => apply Z.eqb_neq in H
  | H : (_ && _) = true |- _ => apply andb_true_iff in H; destruct H
  | H : (_ && _) = false |- _ => apply andb_false_iff in H
  | H : (_ || _) = true |- _ => apply orb_true_iff in H
  | H : (_ || _) = false |- _ => apply orb_false_iff in H; destruct H
  | H : negb _ = true |- _ => apply negb_true_iff in H
  | H : negb _ = false |- _ => apply negb_false_iff in H
  end.

(** ** Machine integers *)

Definition SIZE_MAX : Z := 2 ^ 64 - 1.
Definition INT32_MAX : Z := 2 ^ 31 - 1.

(** [size_t] arithmetic is modulo 2^64. *)
Definition wrap64 (z : Z) : Z := z mod 2 ^ 64.

(** [static_cast<int32_t>] of an integer: the value modulo 2^32 taken in
    the signed range. *)
Definition cast32 (z : Z) : Z := (z + 2 ^ 31) mod 2 ^ 32 - 2 ^ 31.

Definition is_int32 (z : Z) : Prop := - 2 ^ 31 ≤ z ≤ INT32_MAX.

(** Modelled from the spec: "an invalid page-id constant and an invalid
    frame-id constant" stand for no page and no frame.  [common/config.h]
    is not among the sources; the value -1 is the one BusTub gives both. *)
Definition INVALID_PAGE_ID : Z := -1.
Definition INVALID_FRAME_ID : Z := -1.

(** * The LRU-K replacer *)

Module Replacer.

(** Modelled from the spec: the per-frame record of [lru_k_replacer.h]
    (not among the sources) holds the retained access timestamps, oldest
    first, and the evictable flag; "a newly tracked frame defaults to
    non-evictable", so the record that [frame_table_[id]] creates is
    [FrameInfo_default]. *)
Record FrameInfo : Type := mkFrameInfo {
  timestamp : list Z;
  evictable : bool
}.

Definition FrameInfo_default : FrameInfo :=
  {| timestamp := []; evictable := false |}.

Record LRUKReplacer : Type := mkReplacer {
  frame_table_ : gmap Z FrameInfo;
  current_timestamp_ : Z;
  curr_size_ : Z;
  replacer_size_ : Z;
  k_ : Z
}.

(** The constructor (line 17) sets the capacity, [k] and [curr_size_].
    The table starts empty; the initialiser of the clock is in the header,
    which is not among the sources, and is taken to be 0 as in BusTub. *)
Definition LRUKReplacer_new (num_frames k : Z) : LRUKReplacer :=
  {| frame_table_ := ∅; current_timestamp_ := 0; curr_size_ := 0;
     replacer_size_ := num_frames; k_ := k |}.

(** [frame_table_[frame_id]]: the record of the frame, created on demand. *)
Definition table_at (r : LRUKReplacer) (frame_id : Z) : FrameInfo :=
  default FrameInfo_default (frame_table_ r !! frame_id).

(** *** Evict (lines 19-53) *)

(** The three locals of the scan. *)
Record scan : Type := mkScan {
  max_d : Z;
  t : Z;
  s : Z
}.

Definition scan_init : scan :=
  {| max_d := 0; t := SIZE_MAX; s := INVALID_FRAME_ID |}.

(** Lines 31-36.  [*std::next(info.timestamp.rbegin(), k_ - 1)] is the
    k-th element from the back; with [k_ = 0] the offset [k_ - 1] steps
    before [rbegin()], which is undefined. *)
Definition distance (r : LRUKReplacer) (info : FrameInfo) : outcome Z :=
  if k_ r <=? Z.of_nat (length (timestamp info)) then
    if k_ r =? 0 then Undefined
    else match rev (timestamp info) !! Z.to_nat (k_ r - 1) with
         | Some x => Ok (wrap64 (current_timestamp_ r - x))
         | None => Undefined
         end
  else Ok SIZE_MAX.

(** [info.timestamp.front()]: undefined on an empty history. *)
Definition front (info : FrameInfo) : outcome Z :=
  match timestamp info with
  | [] => Undefined
  | x :: _ => Ok x
  end.

(** One iteration of the loop body (lines 27-42). *)
Definition Evict_visit (r : LRUKReplacer) (acc : scan) (e : Z * FrameInfo)
  : outcome scan :=
  let '(id, info) := e in
  if negb (evictable info) then Ok acc
  else
    d ← distance r info;
    f ← front info;
    if ((f <? t acc) && (d =? max_d acc)) || (max_d acc <? d)
    then Ok {| max_d := d; t := f; s := id |}
    else Ok acc.

(** The range-for over [frame_table_], in the order [order] in which the
    container enumerates its entries. *)
Fixpoint Evict_loop (r : LRUKReplacer) (order : list (Z * FrameInfo))
  (acc : scan) : outcome scan :=
  match order with
  | [] => Ok acc
  | e :: rest => acc' ← Evict_visit r acc e; Evict_loop r rest acc'
  end.

(** [Evict]: the result is [None] for [false], [Some s] for [true] with
    [*frame_id = s].  The iteration order of the table is unspecified, so
    it is an argument; [enumerates] says that it lists the table. *)
Definition Evict (order : list (Z * FrameInfo)) (r : LRUKReplacer)
  : outcome (option Z * LRUKReplacer) :=
  acc ← Evict_loop r order scan_init;
  if s acc =? INVALID_FRAME_ID then Ok (None, r)
  else Ok (Some (s acc),
           {| frame_table_ := delete (s acc) (frame_table_ r);
              current_timestamp_ := current_timestamp_ r;
              curr_size_ := wrap64 (curr_size_ r - 1);
              replacer_size_ := replacer_size_ r;
              k_ := k_ r |}).

Definition enumerates (order : list (Z * FrameInfo)) (r : LRUKReplacer) : Prop :=
  order ≡ₚ map_to_list (frame_table_ r).

(** *** Evict, with the read of an empty history made explicit

    [info.timestamp.front()] on an empty history has no value that the
    language defines, and [front] above stops there.  The compiled scan
    does not stop: the call yields some [size_t], which line 38 compares
    with [t] and line 40 stores in [t].  [front_read empty_front] is that
    reading, [empty_front id] being the value the call yields on the empty
    history of frame [id]; the rest is the text of lines 19-53 again. *)
Definition front_read (empty_front : Z → Z) (id : Z) (info : FrameInfo) : Z :=
  match timestamp info with
  | [] => empty_front id
  | x :: _ => x
  end.

Definition Evict_visit_read (empty_front : Z → Z) (r : LRUKReplacer) (acc : scan)
  (e : Z * FrameInfo) : outcome scan :=
  let '(id, info) := e in
  if negb (evictable info) then Ok acc
  else
    d ← distance r info;
    let f := front_read empty_front id info in
    if ((f <? t acc) && (d =? max_d acc)) || (max_d acc <? d)
    then Ok {| max_d := d; t := f; s := id |}
    else Ok acc.

Fixpoint Evict_loop_read (empty_front : Z → Z) (r : LRUKReplacer)
  (order : list (Z * FrameInfo)) (acc : scan) : outcome scan :=
  match order with
  | [] => Ok acc
  | e :: rest =>
      acc' ← Evict_visit_read empty_front r acc e;
      Evict_loop_read empty_front r rest acc'
  end.

Definition Evict_read (empty_front : Z → Z) (order : list (Z * FrameInfo))
  (r : LRUKReplacer) : outcome (option Z * LRUKReplacer) :=
  acc ← Evict_loop_read empty_front r order scan_init;
  if s acc =? INVALID_FRAME_ID then Ok (None, r)
  else Ok (Some (s acc),
           {| frame_table_ := delete (s acc) (frame_table_ r);
              current_timestamp_ := current_timestamp_ r;
              curr_size_ := wrap64 (curr_size_ r - 1);
              replacer_size_ := replacer_size_ r;
              k_ := k_ r |}).

(** *** RecordAccess (lines 55-63) *)

Definition RecordAccess (frame_id : Z) (r : LRUKReplacer) : LRUKReplacer :=
  let i := table_at r frame_id in
  let pushed := timestamp i ++ [current_timestamp_ r] in
  let kept := if k_ r <? Z.of_nat (length pushed) then tail pushed else pushed in
  {| frame_table_ :=
       <[frame_id := {| timestamp := kept; evictable := evictable i |}]>
         (frame_table_ r);
     current_timestamp_ := wrap64 (current_timestamp_ r + 1);
     curr_size_ := curr_size_ r;
     replacer_size_ := replacer_size_ r;
     k_ := k_ r |}.

(** *** SetEvictable (lines 65-73) *)

Definition SetEvictable (frame_id : Z) (set_evictable : bool) (r : LRUKReplacer)
  : LRUKReplacer :=
  let i := table_at r frame_id in
  if negb (eqb (evictable i) set_evictable) then
    {| frame_table_ :=
         <[frame_id := {| timestamp := timestamp i; evictable := set_evictable |}]>
           (frame_table_ r);
       current_timestamp_ := current_timestamp_ r;
       curr_size_ := if set_evictable then wrap64 (curr_size_ r + 1)
                     else wrap64 (curr_size_ r - 1);
       replacer_size_ := replacer_size_ r;
       k_ := k_ r |}
  else
    {| frame_table_ := <[frame_id := i]> (frame_table_ r);
       current_timestamp_ := current_timestamp_ r;
       curr_size_ := curr_size_ r;
       replacer_size_ := replacer_size_ r;
       k_ := k_ r |}.

(** *** Remove (lines 75-85) *)

Definition Remove (frame_id : Z) (r : LRUKReplacer) : outcome LRUKReplacer :=
  if frame_id <? cast32 (replacer_size_ r) then
    match frame_table_ r !! frame_id with
    | Some info =>
        if evictable info then
          Ok {| frame_table_ := delete frame_id (frame_table_ r);
                current_timestamp_ := current_timestamp_ r;
                curr_size_ := wrap64 (curr_size_ r - 1);
                replacer_size_ := replacer_size_ r;
                k_ := k_ r |}
        else AssertFail
    | None => Ok r
    end
  else AssertFail.

(** *** Size (lines 86-89) *)

Definition Size (r : LRUKReplacer) : Z := curr_size_ r.

(** *** The eviction policy in the words of the specification *)

(** A backward k-distance is a number or +infinity. *)
Inductive kdist : Type :=
| Finite (d : Z)
| Infinite.

Definition kdist_le (a b : kdist) : Prop :=
  match a, b with
  | _, Infinite => True
  | Finite x, Finite y => x ≤ y
  | Infinite, Finite _ => False
  end.

(** "[t] minus the timestamp of the k-th most recent access if the frame
    has at least [k] accesses, and +infinity otherwise", over the
    integers, for a history listed oldest first. *)
Definition backward_k_distance (k now : Z) (history : list Z) : kdist :=
  if k <=? Z.of_nat (length history) then
    match rev history !! Z.to_nat (k - 1) with
    | Some x => Finite (now - x)
    | None => Infinite
    end
  else Infinite.

(** The oldest retained timestamp of a history. *)
Definition oldest_retained (history : list Z) : option Z := head history.

(** [f] is tracked with record [i] and marked evictable. *)
Definition evictable_frame (r : LRUKReplacer) (f : Z) (i : FrameInfo) : Prop :=
  frame_table_ r !! f = Some i ∧ evictable i = true.

(** [f] is a victim the policy allows: an evictable frame whose backward
    k-distance is the largest, and whose oldest retained timestamp is the
    smallest among the evictable frames at that distance. *)
Definition lruk_victim (r : LRUKReplacer) (f : Z) : Prop :=
  ∃ i, evictable_frame r f i ∧
    ∀ g j, evictable_frame r g j →
      let df := backward_k_distance (k_ r) (current_timestamp_ r) (timestamp i) in
      let dg := backward_k_distance (k_ r) (current_timestamp_ r) (timestamp j) in
      kdist_le dg df ∧
      (dg = df → ∀ x y, oldest_retained (timestamp i) = Some x →
                        oldest_retained (timestamp j) = Some y → x ≤ y).

(** States on which the scan of [Evict] is meaningful: [k] is at least 1,
    the clock has not reached the last value of [size_t], no tracked id is
    the sentinel, every recorded timestamp is in the past, and every
    evictable frame has at least one recorded access. *)
Record scannable (r : LRUKReplacer) : Prop := mkScannable {
  sc_k : 1 ≤ k_ r;
  sc_now : 0 ≤ current_timestamp_ r < SIZE_MAX;
  sc_ids : ∀ f i, frame_table_ r !! f = Some i → f ≠ INVALID_FRAME_ID;
  sc_past : ∀ f i x, frame_table_ r !! f = Some i → x ∈ timestamp i →
                     0 ≤ x < current_timestamp_ r;
  sc_accessed : ∀ f i, evictable_frame r f i → timestamp i ≠ []
}.

(** The same without the last condition: [k] is at least 1, the clock has
    not reached the last value of [size_t], no tracked id is the sentinel
    and every recorded timestamp is in the past; a tracked frame may have
    no recorded access. *)
Record timed (r : LRUKReplacer) : Prop := mkTimed {
  tm_k : 1 ≤ k_ r;
  tm_now : 0 ≤ current_timestamp_ r < SIZE_MAX;
  tm_ids : ∀ f i, frame_table_ r !! f = Some i → f ≠ INVALID_FRAME_ID;
  tm_past : ∀ f i x, frame_table_ r !! f = Some i → x ∈ timestamp i →
                     0 ≤ x < current_timestamp_ r
}.

(** *** Calls on the replacer and the states they reach *)

(** A call of the replacer's interface; [DoEvict] carries the order in
    which the table happens to be enumerated. *)
Inductive ReplacerCall : Type :=
| DoEvict (order : list (Z * FrameInfo))
| DoRecordAccess (frame_id : Z)
| DoSetEvictable (frame_id : Z) (set_evictable : bool)
| DoRemove (frame_id : Z).

Definition replacer_order_ok (c : ReplacerCall) (r : LRUKReplacer) : Prop :=
  match c with
  | DoEvict order => enumerates order r
  | _ => True
  end.

(** The state a call leaves behind. *)
Definition replacer_run (c : ReplacerCall) (r : LRUKReplacer)
  : outcome LRUKReplacer :=
  match c with
  | DoEvict order => snd <$> Evict order r
  | DoRecordAccess frame_id => Ok (RecordAccess frame_id r)
  | DoSetEvictable frame_id v => Ok (SetEvictable frame_id v r)
  | DoRemove frame_id => Remove frame_id r
  end.

(** [replacer_reachable_in num_frames k n r]: [r] is the state after [n]
    returning calls on a replacer constructed with these arguments. *)
Inductive replacer_reachable_in (num_frames k : Z) : nat → LRUKReplacer → Prop :=
| rreach_new : replacer_reachable_in num_frames k 0 (LRUKReplacer_new num_frames k)
| rreach_call n r c r' :
    replacer_reachable_in num_frames k n r →
    replacer_order_ok c r →
    replacer_run c r = Ok r' →
    replacer_reachable_in num_frames k (S n) r'.

(** The number of tracked frames whose evictable flag is set. *)
Definition evictable_count (r : LRUKReplacer) : Z :=
  Z.of_nat (size (filter (λ e : Z * FrameInfo, evictable e.2 = true) (frame_table_ r))).

(** A history is listed in strictly increasing order. *)
Definition increasing (history : list Z) : Prop :=
  ∀ (a c : nat) x y, (a < c)%nat → history !! a = Some x → history !! c = Some y → x < y.

(** What holds of the access histories after [n] calls on a replacer
    built with parameter [k]: the clock counts at most the calls; every
    history has at most [k] entries, in strictly increasing order, all
    below the clock; and no timestamp occurs in two histories. *)
Record history_inv (k : Z) (n : nat) (r : LRUKReplacer) : Prop := mkHistoryInv {
  hi_k : k_ r = k;
  hi_now : 0 ≤ current_timestamp_ r ≤ Z.of_nat n;
  hi_len : ∀ f i, frame_table_ r !! f = Some i → Z.of_nat (length (timestamp i)) ≤ k;
  hi_inc : ∀ f i, frame_table_ r !! f = Some i → increasing (timestamp i);
  hi_past : ∀ f i x, frame_table_ r !! f = Some i → x ∈ timestamp i →
                     0 ≤ x < current_timestamp_ r;
  hi_unique : ∀ f g i j x, f ≠ g →
                frame_table_ r !! f = Some i → frame_table_ r !! g = Some j →
                x ∈ timestamp i → x ∉ timestamp j
}.

End Replacer.

(** * The buffer pool manager instance *)

Module BufferPool.
Import Replacer.

(** ** Pages and the disk collaborator *)

(** Modelled from the spec: the page size of [common/config.h] ("e.g.
    4 KiB"); a page buffer is that many bytes. *)
Definition BUSTUB_PAGE_SIZE : nat := 4096.

(** [Page::ResetMemory] leaves the buffer zeroed. *)
Definition zero_page : list Byte.byte := replicate BUSTUB_PAGE_SIZE Byte.x00.

(** Modelled from the spec: the frame object of [storage/page/page.h] (not
    among the sources) is a page-sized buffer with its page id, pin count
    and dirty flag; a fresh one holds no page, is unpinned and clean. *)
Record Page : Type := mkPage {
  data_ : list Byte.byte;
  page_id_ : Z;
  pin_count_ : Z;
  is_dirty_ : bool
}.

Definition Page_new : Page :=
  {| data_ := zero_page; page_id_ := INVALID_PAGE_ID;
     pin_count_ := 0; is_dirty_ := false |}.

(** Modelled from the spec: the disk collaborator offers [ReadPage],
    [WritePage] and [DeallocatePage]; it is observed through the sequence
    of calls it received ([calls], oldest first) and the page contents it
    holds ([stored]); a page never written reads as zeroes. *)
Inductive DiskCall : Type :=
| WritePage (page_id : Z) (data : list Byte.byte)
| ReadPage (page_id : Z)
| DeallocatePage (page_id : Z).

Record DiskManager : Type := mkDisk {
  stored : gmap Z (list Byte.byte);
  calls : list DiskCall
}.

Definition disk_WritePage (page_id : Z) (data : list Byte.byte) (d : DiskManager)
  : DiskManager :=
  {| stored := <[page_id := data]> (stored d);
     calls := calls d ++ [WritePage page_id data] |}.

Definition disk_ReadPage (page_id : Z) (d : DiskManager)
  : list Byte.byte * DiskManager :=
  (default zero_page (stored d !! page_id),
   {| stored := stored d; calls := calls d ++ [ReadPage page_id] |}).

Definition disk_DeallocatePage (page_id : Z) (d : DiskManager) : DiskManager :=
  {| stored := stored d; calls := calls d ++ [DeallocatePage page_id] |}.

(** ** The manager's state *)

Record BufferPoolManagerInstance : Type := mkBPM {
  pool_size_ : Z;
  pages_ : list Page;
  page_table_ : gmap Z Z;
  free_list_ : list Z;
  replacer_ : LRUKReplacer;
  next_page_id_ : Z;
  disk_manager_ : DiskManager
}.

Definition set_pages (v : list Page) (b : BufferPoolManagerInstance) :=
  {| pool_size_ := pool_size_ b; pages_ := v; page_table_ := page_table_ b;
     free_list_ := free_list_ b; replacer_ := replacer_ b;
     next_page_id_ := next_page_id_ b; disk_manager_ := disk_manager_ b |}.

Definition set_page_table (v : gmap Z Z) (b : BufferPoolManagerInstance) :=
  {| pool_size_ := pool_size_ b; pages_ := pages_ b; page_table_ := v;
     free_list_ := free_list_ b; replacer_ := replacer_ b;
     next_page_id_ := next_page_id_ b; disk_manager_ := disk_manager_ b |}.

Definition set_free_list (v : list Z) (b : BufferPoolManagerInstance) :=
  {| pool_size_ := pool_size_ b; pages_ := pages_ b; page_table_ := page_table_ b;
     free_list_ := v; replacer_ := replacer_ b;
     next_page_id_ := next_page_id_ b; disk_manager_ := disk_manager_ b |}.

Definition set_replacer (v : LRUKReplacer) (b : BufferPoolManagerInstance) :=
  {| pool_size_ := pool_size_ b; pages_ := pages_ b; page_table_ := page_table_ b;
     free_list_ := free_list_ b; replacer_ := v;
     next_page_id_ := next_page_id_ b; disk_manager_ := disk_manager_ b |}.

Definition set_next_page_id (v : Z) (b : BufferPoolManagerInstance) :=
  {| pool_size_ := pool_size_ b; pages_ := pages_ b; page_table_ := page_table_ b;
     free_list_ := free_list_ b; replacer_ := replacer_ b;
     next_page_id_ := v; disk_manager_ := disk_manager_ b |}.

Definition set_disk (v : DiskManager) (b : BufferPoolManagerInstance) :=
  {| pool_size_ := pool_size_ b; pages_ := pages_ b; page_table_ := page_table_ b;
     free_list_ := free_list_ b; replacer_ := replacer_ b;
     next_page_id_ := next_page_id_ b; disk_manager_ := v |}.

(** [pages_[frame_id]] for reading or writing through the pointer: outside
    the array the access is undefined. *)
Definition page_at (b : BufferPoolManagerInstance) (frame_id : Z) : outcome Page :=
  if frame_id <? 0 then Undefined
  else match pages_ b !! Z.to_nat frame_id with
       | Some p => Ok p
       | None => Undefined
       end.

(** Storing through [Page *p = &pages_[frame_id]]. *)
Definition store_page (frame_id : Z) (p : Page) (b : BufferPoolManagerInstance) :=
  set_pages (<[Z.to_nat frame_id := p]> (pages_ b)) b.

(** [std::unordered_map::emplace]: no effect when the key is present. *)
Definition emplace (k v : Z) (m : gmap Z Z) : gmap Z Z :=
  match m !! k with
  | Some _ => m
  | None => <[k := v]> m
  end.

(** ** Constructor (lines 7-18)

    The body allocates the frames, an empty page table and the replacer,
    and fills the free list with [static_cast<frame_id_t>(i)] for [i] from
    0 to [pool_size - 1].  It contains no assertion.  The initialiser of
    the page-id counter is in the header, which is not among the sources;
    it is taken to be 0, the first page id of the specification's
    scenarios. *)
Definition BufferPoolManagerInstance_new (pool_size : Z) (disk : DiskManager)
  (replacer_k : Z) : outcome BufferPoolManagerInstance :=
  Ok {| pool_size_ := pool_size;
        pages_ := replicate (Z.to_nat pool_size) Page_new;
        page_table_ := ∅;
        free_list_ := (λ i : nat, cast32 (Z.of_nat i)) <$> seq 0 (Z.to_nat pool_size);
        replacer_ := LRUKReplacer_new pool_size replacer_k;
        next_page_id_ := 0;
        disk_manager_ := disk |}.

(** ** Obtaining a frame (lines 32-44 of NewPgImp, 75-89 of FetchPgImp)

    The two functions contain the same text: take the front of the free
    list, else ask the replacer for a victim, write the victim back when
    it is dirty and erase its page-table entry; else give up.  The result
    carries the frame id and the page object as found in the frame. *)
Definition obtain_frame (order : list (Z * FrameInfo)) (b : BufferPoolManagerInstance)
  : outcome (option (Z * Page) * BufferPoolManagerInstance) :=
  match free_list_ b with
  | frame_id :: rest =>
      p ← page_at b frame_id;
      Ok (Some (frame_id, p), set_free_list rest b)
  | [] =>
      '(victim, r') ← Evict order (replacer_ b);
      match victim with
      | Some frame_id =>
          p ← page_at b frame_id;
          let d := if is_dirty_ p
                   then disk_WritePage (page_id_ p) (data_ p) (disk_manager_ b)
                   else disk_manager_ b in
          Ok (Some (frame_id, p),
              set_page_table (delete (page_id_ p) (page_table_ b))
                (set_disk d (set_replacer r' b)))
      | None => Ok (None, b)
      end
  end.

(** ** NewPgImp (lines 26-57)

    The result is [None] for [nullptr], else the new page id written to
    [*page_id] and the frame the returned pointer addresses. *)
Definition NewPgImp (order : list (Z * FrameInfo)) (b : BufferPoolManagerInstance)
  : outcome (option (Z * Z) * BufferPoolManagerInstance) :=
  '(got, b1) ← obtain_frame order b;
  match got with
  | None => Ok (None, b1)
  | Some (frame_id, _) =>
      let page_id := next_page_id_ b1 in            (* AllocatePage, line 185 *)
      let b2 := set_next_page_id (cast32 (page_id + 1)) b1 in
      let p := {| data_ := zero_page; page_id_ := page_id;
                  pin_count_ := 1; is_dirty_ := false |} in
      let b3 := store_page frame_id p b2 in
      let b4 := set_page_table (emplace page_id frame_id (page_table_ b3)) b3 in
      let b5 := set_replacer
                  (SetEvictable frame_id false (RecordAccess frame_id (replacer_ b4)))
                  b4 in
      Ok (Some (page_id, frame_id), b5)
  end.

(** ** FetchPgImp (lines 59-101)

    [pin_count_] is an [int]: incrementing it at [INT32_MAX] is a signed
    overflow. *)
Definition FetchPgImp (order : list (Z * FrameInfo)) (page_id : Z)
  (b : BufferPoolManagerInstance)
  : outcome (option Z * BufferPoolManagerInstance) :=
  match page_table_ b !! page_id with
  | Some frame_id =>
      p ← page_at b frame_id;
      if pin_count_ p =? INT32_MAX then Undefined
      else
        let p' := {| data_ := data_ p; page_id_ := page_id_ p;
                     pin_count_ := pin_count_ p + 1; is_dirty_ := is_dirty_ p |} in
        let b1 := store_page frame_id p' b in
        Ok (Some frame_id,
            set_replacer
              (SetEvictable frame_id false (RecordAccess frame_id (replacer_ b1)))
              b1)
  | None =>
      '(got, b1) ← obtain_frame order b;
      match got with
      | None => Ok (None, b1)
      | Some (frame_id, _) =>
          let '(bytes, d) := disk_ReadPage page_id (disk_manager_ b1) in
          let p := {| data_ := bytes; page_id_ := page_id;
                      pin_count_ := 1; is_dirty_ := false |} in
          let b2 := set_disk d (store_page frame_id p b1) in
          let b3 := set_page_table (emplace page_id frame_id (page_table_ b2)) b2 in
          Ok (Some frame_id,
              set_replacer
                (SetEvictable frame_id false (RecordAccess frame_id (replacer_ b3)))
                b3)
      end
  end.

(** ** UnpinPgImp (lines 103-129) *)
Definition UnpinPgImp (page_id : Z) (is_dirty : bool) (b : BufferPoolManagerInstance)
  : outcome (bool * BufferPoolManagerInstance) :=
  match page_table_ b !! page_id with
  | None => Ok (false, b)
  | Some frame_id =>
      unpinned ← page_at b frame_id;
      if pin_count_ unpinned <=? 0 then Ok (false, b)
      else
        let p' := {| data_ := data_ unpinned; page_id_ := page_id_ unpinned;
                     pin_count_ := pin_count_ unpinned - 1;
                     is_dirty_ := if is_dirty then true else is_dirty_ unpinned |} in
        let b1 := store_page frame_id p' b in
        if pin_count_ p' =? 0
        then Ok (true, set_replacer (SetEvictable frame_id true (replacer_ b1)) b1)
        else Ok (true, b1)
  end.

(** ** FlushPgImp (lines 131-149) *)
Definition FlushPgImp (page_id : Z) (b : BufferPoolManagerInstance)
  : outcome (bool * BufferPoolManagerInstance) :=
  if page_id =? INVALID_PAGE_ID then Ok (false, b)
  else match page_table_ b !! page_id with
       | None => Ok (false, b)
       | Some frame_id =>
           p ← page_at b frame_id;
           let d := disk_WritePage (page_id_ p) (data_ p) (disk_manager_ b) in
           let p' := {| data_ := data_ p; page_id_ := page_id_ p;
                        pin_count_ := pin_count_ p; is_dirty_ := false |} in
           Ok (true, store_page frame_id p' (set_disk d b))
       end.

(** ** FlushAllPgsImp (lines 151-159)

    The range-for runs over the page table in the container's order,
    passed as [order]. *)
Fixpoint FlushAll_loop (order : list (Z * Z)) (b : BufferPoolManagerInstance)
  : outcome BufferPoolManagerInstance :=
  match order with
  | [] => Ok b
  | (_, frame_id) :: rest =>
      p ← page_at b frame_id;
      let d := disk_WritePage (page_id_ p) (data_ p) (disk_manager_ b) in
      let p' := {| data_ := data_ p; page_id_ := page_id_ p;
                   pin_count_ := pin_count_ p; is_dirty_ := false |} in
      FlushAll_loop rest (store_page frame_id p' (set_disk d b))
  end.

Definition FlushAllPgsImp (order : list (Z * Z)) (b : BufferPoolManagerInstance)
  : outcome BufferPoolManagerInstance :=
  FlushAll_loop order b.

(** ** DeletePgImp (lines 161-184)

    Modelled from the spec: the member [DeallocatePage] of the header
    "notifies the disk collaborator to deallocate the page-id". *)
Definition DeletePgImp (page_id : Z) (b : BufferPoolManagerInstance)
  : outcome (bool * BufferPoolManagerInstance) :=
  match page_table_ b !! page_id with
  | None => Ok (true, b)
  | Some frame_id =>
      delete_page ← page_at b frame_id;
      if 0 <? pin_count_ delete_page then Ok (false, b)
      else
        let b1 := set_free_list (free_list_ b ++ [frame_id]) b in
        let b2 := set_page_table (delete page_id (page_table_ b1)) b1 in
        r' ← Remove frame_id (replacer_ b2);
        let b3 := set_replacer r' b2 in
        let p' := {| data_ := zero_page; page_id_ := INVALID_PAGE_ID;
                     pin_count_ := pin_count_ delete_page; is_dirty_ := false |} in
        let b4 := store_page frame_id p' b3 in
        Ok (true, set_disk (disk_DeallocatePage page_id (disk_manager_ b4)) b4)
  end.

(** ** Calls and reachable states *)

(** A client call, with the enumeration order the container happens to use
    where the call iterates over one. *)
Inductive Call : Type :=
| NewPage (order : list (Z * FrameInfo))
| FetchPage (order : list (Z * FrameInfo)) (page_id : Z)
| UnpinPage (page_id : Z) (is_dirty : bool)
| FlushPage (page_id : Z)
| FlushAllPages (order : list (Z * Z))
| DeletePage (page_id : Z).

(** The enumeration order of a call really lists the container. *)
Definition order_ok (c : Call) (b : BufferPoolManagerInstance) : Prop :=
  match c with
  | NewPage order | FetchPage order _ => enumerates order (replacer_ b)
  | FlushAllPages order => order ≡ₚ map_to_list (page_table_ b)
  | _ => True
  end.

(** The state a call leaves behind. *)
Definition run (c : Call) (b : BufferPoolManagerInstance)
  : outcome BufferPoolManagerInstance :=
  match c with
  | NewPage order => snd <$> NewPgImp order b
  | FetchPage order page_id => snd <$> FetchPgImp order page_id b
  | UnpinPage page_id is_dirty => snd <$> UnpinPgImp page_id is_dirty b
  | FlushPage page_id => snd <$> FlushPgImp page_id b
  | FlushAllPages order => FlushAllPgsImp order b
  | DeletePage page_id => snd <$> DeletePgImp page_id b
  end.

(** [reachable_in pool_size disk k n b]: [b] is the state after [n] calls
    on a pool constructed with these arguments. *)
Inductive reachable_in (pool_size : Z) (disk : DiskManager) (k : Z)
  : nat → BufferPoolManagerInstance → Prop :=
| reach_new b :
    BufferPoolManagerInstance_new pool_size disk k = Ok b →
    reachable_in pool_size disk k 0 b
| reach_call n b c b' :
    reachable_in pool_size disk k n b →
    order_ok c b →
    run c b = Ok b' →
    reachable_in pool_size disk k (S n) b'.

Definition reachable (pool_size : Z) (disk : DiskManager) (k : Z)
  (b : BufferPoolManagerInstance) : Prop :=
  ∃ n, reachable_in pool_size disk k n b.

(** ** Invariants of reachable states

    The invariants speak of page ids and pin counts only, not of page
    contents or dirty flags. *)
Definition frame_meta (p : Page) : Z * Z := (page_id_ p, pin_count_ p).

(** Invariant 4 of the data model: a frame with a positive pin count is
    not evictable in the replacer (it is untracked, or tracked with the
    flag cleared). *)
Definition pinned_not_evictable (b : BufferPoolManagerInstance) : Prop :=
  ∀ f p i, page_at b f = Ok p → 0 < pin_count_ p →
           frame_table_ (replacer_ b) !! f = Some i → evictable i = false.

(** A frame is available when the free list holds it or the replacer
    would hand it out. *)
Definition available (b : BufferPoolManagerInstance) (f : Z) : Prop :=
  f ∈ free_list_ b ∨ ∃ i, evictable_frame (replacer_ b) f i.

(** The pool is exhausted: no free frame and no evictable frame. *)
Definition exhausted (b : BufferPoolManagerInstance) : Prop :=
  free_list_ b = [] ∧
  ∀ f i, frame_table_ (replacer_ b) !! f = Some i → evictable i = false.

(** Every frame of the array is pinned. *)
Definition all_pinned (b : BufferPoolManagerInstance) : Prop :=
  ∀ f p, page_at b f = Ok p → 0 < pin_count_ p.

(** The page id and pin count held in frame [f], if [f] is a frame. *)
Definition meta_at (b : BufferPoolManagerInstance) (f : Z) : option (Z * Z) :=
  if f <? 0 then None
  else frame_meta <$> pages_ b !! Z.to_nat f.

(** What holds of the frames, the page table, the free list and the
    replacer's table in a pool of [pool_size] frames, whether or not some
    frame is in transit between them: tracked frames exist, pin counts are
    not negative, a page-table entry names a tracked frame holding that
    page (evictable once unpinned), an evictable frame is the page-table
    entry of the page it holds, and free frames are distinct, unpinned,
    untracked and absent from the page table. *)
Record pool_core (pool_size : Z) (b : BufferPoolManagerInstance) : Prop := mkCore {
  pc_frames : length (pages_ b) = Z.to_nat pool_size;
  pc_cap : replacer_size_ (replacer_ b) = pool_size;
  pc_tracked : ∀ f i, frame_table_ (replacer_ b) !! f = Some i →
                      is_Some (meta_at b f);
  pc_pins : ∀ f page_id pin, meta_at b f = Some (page_id, pin) → 0 ≤ pin;
  pc_resident : ∀ page_id f, page_table_ b !! page_id = Some f →
      ∃ pin i, meta_at b f = Some (page_id, pin) ∧
               frame_table_ (replacer_ b) !! f = Some i ∧
               (pin = 0 → evictable i = true);
  pc_evictable : ∀ f i, evictable_frame (replacer_ b) f i →
      ∃ page_id pin, meta_at b f = Some (page_id, pin) ∧
                     page_table_ b !! page_id = Some f;
  pc_free_nodup : NoDup (free_list_ b);
  pc_free : ∀ f, f ∈ free_list_ b →
      (∃ page_id, meta_at b f = Some (page_id, 0)) ∧
      frame_table_ (replacer_ b) !! f = None ∧
      ∀ page_id, page_table_ b !! page_id ≠ Some f
}.

(** Between calls every frame is pinned or available. *)
Definition pool_inv (pool_size : Z) (b : BufferPoolManagerInstance) : Prop :=
  pool_core pool_size b ∧
  ∀ f page_id pin, meta_at b f = Some (page_id, pin) → 0 < pin ∨ available b f.

(** Inside a call, frame [f] has been taken out of the free list or out
    of the replacer and the page table, and is not yet bound again. *)
Definition in_transit (pool_size : Z) (f : Z) (b : BufferPoolManagerInstance)
  : Prop :=
  pool_core pool_size b ∧
  (∀ g page_id pin, g ≠ f → meta_at b g = Some (page_id, pin) →
                    0 < pin ∨ available b g) ∧
  is_Some (meta_at b f) ∧
  (f ∉ free_list_ b) ∧
  frame_table_ (replacer_ b) !! f = None ∧
  (∀ page_id, page_table_ b !! page_id ≠ Some f).

(** What holds of the replacer's clock after [n] calls on a pool built
    with replacer parameter [k]: it counts at most the calls, every
    recorded timestamp is in the past, and every tracked frame has a
    recorded access. *)
Record clock_inv (k : Z) (n : nat) (r : LRUKReplacer) : Prop := mkClock {
  ck_k : k_ r = k;
  ck_now : 0 ≤ current_timestamp_ r ≤ Z.of_nat n;
  ck_past : ∀ f i x, frame_table_ r !! f = Some i → x ∈ timestamp i →
                     0 ≤ x < current_timestamp_ r;
  ck_accessed : ∀ f i, frame_table_ r !! f = Some i → timestamp i ≠ []
}.

(** ** The shapes of a state change *)


(** Every returning call changes the bookkeeping in one of five ways:
    not at all ([tr_quiet]: failures, flushes), by binding an obtained
    frame to a page ([tr_bind]: NewPgImp, FetchPgImp on a miss), by
    pinning a resident frame once more ([tr_pin]), by unpinning it
    ([tr_unpin]), or by freeing it ([tr_delete]). *)
Inductive transition (b b' : BufferPoolManagerInstance) : Prop :=
| tr_quiet :
    frame_meta <$> pages_ b' = frame_meta <$> pages_ b →
    page_table_ b' = page_table_ b →
    free_list_ b' = free_list_ b →
    replacer_ b' = replacer_ b →
    transition b b'
| tr_bind order f p b1 page_id q :
    enumerates order (replacer_ b) →
    obtain_frame order b = Ok (Some (f, p), b1) →
    frame_meta q = (page_id, 1) →
    pages_ b' = <[Z.to_nat f := q]> (pages_ b1) →
    page_table_ b' = emplace page_id f (page_table_ b1) →
    replacer_ b' = SetEvictable f false (RecordAccess f (replacer_ b1)) →
    free_list_ b' = free_list_ b1 →
    transition b b'
| tr_pin page_id f p q :
    page_table_ b !! page_id = Some f →
    page_at b f = Ok p →
    frame_meta q = (page_id_ p, pin_count_ p + 1) →
    pages_ b' = <[Z.to_nat f := q]> (pages_ b) →
    page_table_ b' = page_table_ b →
    replacer_ b' = SetEvictable f false (RecordAccess f (replacer_ b)) →
    free_list_ b' = free_list_ b →
    transition b b'
| tr_unpin page_id f p q :
    page_table_ b !! page_id = Some f →
    page_at b f = Ok p →
    0 < pin_count_ p →
    frame_meta q = (page_id_ p, pin_count_ p - 1) →
    pages_ b' = <[Z.to_nat f := q]> (pages_ b) →
    page_table_ b' = page_table_ b →
    replacer_ b' = (if pin_count_ p =? 1
                    then SetEvictable f true (replacer_ b) else replacer_ b) →
    free_list_ b' = free_list_ b →
    transition b b'
| tr_delete page_id f p q :
    page_table_ b !! page_id = Some f →
    page_at b f = Ok p →
    pin_count_ p ≤ 0 →
    frame_meta q = (INVALID_PAGE_ID, pin_count_ p) →
    pages_ b' = <[Z.to_nat f := q]> (pages_ b) →
    page_table_ b' = delete page_id (page_table_ b) →
    Remove f (replacer_ b) = Ok (replacer_ b') →
    free_list_ b' = free_list_ b ++ [f] →
    transition b b'.

(** ** Flushed frames and sequences of calls *)

(** The frame object after [p->is_dirty_ = false] (lines 146 and 157). *)
Definition flushed (p : Page) : Page :=
  {| data_ := data_ p; page_id_ := page_id_ p;
     pin_count_ := pin_count_ p; is_dirty_ := false |}.

(** The state after the calls [cs], made one after the other. *)
Fixpoint run_all (cs : list Call) (b : BufferPoolManagerInstance)
  : outcome BufferPoolManagerInstance :=
  match cs with
  | [] => Ok b
  | c :: rest => b' ← run c b; run_all rest b'
  end.

(** The enumeration orders of the calls [cs] really list the containers
    in the states the calls are made in. *)
Fixpoint orders_ok (cs : list Call) (b : BufferPoolManagerInstance) : Prop :=
  match cs with
  | [] => True
  | c :: rest =>
      order_ok c b ∧
      (match run c b with
       | Ok b' => orders_ok rest b'
       | _ => True
       end)
  end.

(** Frame [f] is pinned, but is neither the page-table entry of any page
    nor on the free list nor evictable. *)
Definition orphaned (f : Z) (b : BufferPoolManagerInstance) : Prop :=
  (∃ page_id pin, meta_at b f = Some (page_id, pin) ∧ 0 < pin) ∧
  (∀ page_id, page_table_ b !! page_id ≠ Some f) ∧
  (f ∉ free_list_ b) ∧
  (∀ i, frame_table_ (replacer_ b) !! f = Some i → evictable i = false).

(** Frame [f] holds a resident page that nobody pins. *)
Definition unpinned_resident_frame (b : BufferPoolManagerInstance) (f : Z) : bool :=
  match page_at b f with
  | Ok p => (pin_count_ p =? 0) && bool_decide (page_table_ b !! page_id_ p = Some f)
  | _ => false
  end.

(** The frames of the array that hold an unpinned resident page. *)
Definition unpinned_resident (b : BufferPoolManagerInstance) : list Z :=
  filter (λ f, unpinned_resident_frame b f = true)
         (seqZ 0 (Z.of_nat (length (pages_ b)))).

(** A pool that has only handed out its first [m] frames, to the pages
    0 to [m - 1], all still pinned. *)
Record filling (m : nat) (b : BufferPoolManagerInstance) : Prop := mkFilling {
  fl_next : next_page_id_ b = Z.of_nat m;
  fl_free : free_list_ b =
            (λ i : nat, cast32 (Z.of_nat i)) <$> seq m (length (pages_ b) - m);
  fl_resident : ∀ page_id, is_Some (page_table_ b !! page_id) →
                           0 ≤ page_id < Z.of_nat m;
  fl_pinned : ∀ f i, frame_table_ (replacer_ b) !! f = Some i → evictable i = false
}.

(** The call does not increment a pin count that is at its last value. *)
Definition pin_room (c : Call) (b : BufferPoolManagerInstance) : Prop :=
  match c with
  | FetchPage _ page_id =>
      ∀ f p, page_table_ b !! page_id = Some f → page_at b f = Ok p →
             pin_count_ p < INT32_MAX
  | _ => True
  end.

End BufferPool.

(** * Properties *)

Import Replacer BufferPool.

(** ** The outcome monad and machine integers *)

Lemma obind_Ok {A B} (m : outcome A) (f : A → outcome B) b :
  m ≫= f = Ok b ↔ ∃ a, m = Ok a ∧ f a = Ok b.
Proof.
  destruct m; simpl; split; try (intros [a' [E _]]; discriminate); try discriminate.
  - intros H. eauto.
  - intros [a' [E H]]. by inversion E; subst.
Qed.

Lemma bind_Ok {A B} (a : A) (f : A → outcome B) : Ok a ≫= f = f a.
Proof. reflexivity. Qed.

Lemma fmap_Ok {A B} (g : A → B) (m : outcome A) b :
  g <$> m = Ok b ↔ ∃ a, m = Ok a ∧ b = g a.
Proof.
  destruct m; simpl; split; try (intros [a' [E _]]; discriminate); try discriminate.
  - intros H. inversion H. eauto.
  - intros [a' [E H]]. inversion E; subst. reflexivity.
Qed.

Lemma wrap64_small z : 0 ≤ z ≤ SIZE_MAX → wrap64 z = z.
Proof. unfold wrap64, SIZE_MAX. intros. apply Z.mod_small. lia. Qed.

Lemma cast32_small z : is_int32 z → cast32 z = z.
Proof.
  unfold cast32, is_int32, INT32_MAX. intros.
  rewrite Z.mod_small by lia. lia.
Qed.


(** ** The replacer: the scan of [Evict] *)

Section EvictScan.
Variable r : LRUKReplacer.

#[local] Arguments Evict_visit : simpl never.

Lemma enumerates_elem order f i :
  enumerates order r → (f, i) ∈ order ↔ frame_table_ r !! f = Some i.
Proof.
  unfold enumerates. intros ->. apply (elem_of_map_to_list (frame_table_ r)).
Qed.

Lemma Evict_visit_skip acc f i :
  evictable i = false → Evict_visit r acc (f, i) = Ok acc.
Proof. unfold Evict_visit. by intros ->. Qed.

Lemma Evict_visit_measure acc f i d fr :
  evictable i = true → distance r i = Ok d → front i = Ok fr →
  Evict_visit r acc (f, i) =
    Ok (if ((fr <? t acc) && (d =? max_d acc)) || (max_d acc <? d)
        then {| max_d := d; t := fr; s := f |} else acc).
Proof.
  unfold Evict_visit. intros -> -> ->. simpl. by case_match.
Qed.

(** The scan only ever selects an evictable entry of the enumeration. *)
Lemma Evict_loop_sound l : ∀ acc acc',
  Evict_loop r l acc = Ok acc' →
  acc' = acc ∨ ∃ f i, (f, i) ∈ l ∧ evictable i = true ∧ s acc' = f.
Proof.
  induction l as [|[f i] l IH]; simpl; intros acc acc' H.
  - left. congruence.
  - apply obind_Ok in H as (acc1 & Hv & Hl).
    assert (acc1 = acc ∨ (evictable i = true ∧ s acc1 = f)) as Hacc1.
    { unfold Evict_visit in Hv. destruct (evictable i); simpl in Hv.
      - apply obind_Ok in Hv as (d & _ & Hv).
        apply obind_Ok in Hv as (fr & _ & Hv).
        case_match; inversion Hv; subst; auto.
      - left. congruence. }
    destruct (IH _ _ Hl) as [-> | (g & j & Hin & He & Hs)].
    + destruct Hacc1 as [-> | [He Hs]]; [by left|].
      right. exists f, i. split_and!; auto. left.
    + right. exists g, j. split_and!; auto. by right.
Qed.

(** Entries that are not evictable leave the locals untouched. *)
Lemma Evict_loop_none l : ∀ acc,
  (∀ f i, (f, i) ∈ l → evictable i = false) →
  Evict_loop r l acc = Ok acc.
Proof.
  induction l as [|[f i] l IH]; simpl; intros acc H; [done|].
  rewrite Evict_visit_skip by (apply (H f); left).
  rewrite bind_Ok. apply IH. intros g j Hin. apply (H g). by right.
Qed.

(** When every evictable entry can be measured, the scan returns and its
    locals describe a best entry: the largest distance, and among equal
    distances the smallest front. *)
Lemma Evict_loop_best l : ∀ acc,
  (∀ f i, (f, i) ∈ l → evictable i = true →
          ∃ d fr, distance r i = Ok d ∧ front i = Ok fr) →
  ∃ acc', Evict_loop r l acc = Ok acc' ∧
    (max_d acc < max_d acc' ∨ (max_d acc' = max_d acc ∧ t acc' ≤ t acc)) ∧
    (acc' = acc ∨
     ∃ f i, (f, i) ∈ l ∧ evictable i = true ∧ s acc' = f ∧
            distance r i = Ok (max_d acc') ∧ front i = Ok (t acc')) ∧
    (∀ f i d fr, (f, i) ∈ l → evictable i = true →
       distance r i = Ok d → front i = Ok fr →
       d < max_d acc' ∨ (d = max_d acc' ∧ t acc' ≤ fr)).
Proof.
  induction l as [|[f i] l IH]; simpl; intros acc Hm.
  - exists acc. split_and!; auto; [lia|]. intros ???? Hin. inversion Hin.
  - destruct (evictable i) eqn:He.
    + destruct (Hm f i) as (d & fr & Hd & Hf); [left|done|].
      rewrite (Evict_visit_measure acc f i d fr) by done. rewrite bind_Ok.
      set (acc1 := if ((fr <? t acc) && (d =? max_d acc)) || (max_d acc <? d)
                   then {| max_d := d; t := fr; s := f |} else acc).
      destruct (IH acc1) as (acc' & Hl & Hge & Hsel & Hdom).
      { intros g j Hin. apply (Hm g). by right. }
      assert ((max_d acc < max_d acc1 ∨ (max_d acc1 = max_d acc ∧ t acc1 ≤ t acc)) ∧
              (d < max_d acc1 ∨ (d = max_d acc1 ∧ t acc1 ≤ fr)) ∧
              (acc1 = acc ∨ (s acc1 = f ∧ max_d acc1 = d ∧ t acc1 = fr))) as (Hge1 & Hdom1 & Hsel1).
      { subst acc1. case_match eqn:Hc; simpl; zbool.
        - split_and!; [|lia|by right]. destruct Hc as [Hc|Hc]; zbool; lia.
        - split_and!; [lia| |by left]. destruct H; zbool; lia. }
      exists acc'. split_and!; [done|lia| |].
      * destruct Hsel as [-> | (g & j & Hin & Hej & Hs & Hdj & Hfj)].
        -- destruct Hsel1 as [-> | (Hs & Hd1 & Hf1)]; [by left|].
           right. exists f, i. rewrite Hd1, Hf1. split_and!; auto. left.
        -- right. exists g, j. split_and!; auto. by right.
      * intros g j d' fr' Hin Hej Hdj Hfj.
        apply elem_of_cons in Hin as [Heq | Hin]; [|eauto].
        inversion Heq; subst g j. rewrite Hd in Hdj. rewrite Hf in Hfj.
        inversion Hdj; inversion Hfj; subst. lia.
    + rewrite Evict_visit_skip by done. rewrite bind_Ok.
      destruct (IH acc) as (acc' & Hl & Hge & Hsel & Hdom).
      { intros g j Hin. apply (Hm g). by right. }
      exists acc'. split_and!; [done|done| |].
      * destruct Hsel as [-> | (g & j & Hin & Hej & Hs & Hdj & Hfj)]; [by left|].
        right. exists g, j. split_and!; auto. by right.
      * intros g j d' fr' Hin Hej Hdj Hfj.
        apply elem_of_cons in Hin as [Heq | Hin]; [|eauto].
        inversion Heq; subst g j. congruence.
Qed.

End EvictScan.

(** ** The replacer: [Evict] against the policy *)

(** The distance the code computes is the specification's, with
    [SIZE_MAX] standing for +infinity. *)
Lemma distance_spec (r : LRUKReplacer) (i : FrameInfo) :
  1 ≤ k_ r → 0 ≤ current_timestamp_ r < SIZE_MAX →
  (∀ x, x ∈ timestamp i → 0 ≤ x < current_timestamp_ r) →
  match backward_k_distance (k_ r) (current_timestamp_ r) (timestamp i) with
  | Finite d => distance r i = Ok d ∧ 1 ≤ d < SIZE_MAX
  | Infinite => distance r i = Ok SIZE_MAX
  end.
Proof.
  intros Hk Hnow Hpast. unfold backward_k_distance, distance.
  destruct (k_ r <=? Z.of_nat (length (timestamp i))) eqn:Hlen; [|done].
  zbool. destruct (k_ r =? 0) eqn:Hk0; zbool; [lia|].
  destruct (rev (timestamp i) !! Z.to_nat (k_ r - 1)) as [x|] eqn:Hx.
  - assert (x ∈ timestamp i) as Hin.
    { apply list_elem_of_In, in_rev, list_elem_of_In. by eapply list_elem_of_lookup_2. }
    specialize (Hpast x Hin). rewrite wrap64_small by (unfold SIZE_MAX in *; lia).
    split; [done|lia].
  - apply lookup_ge_None in Hx. rewrite length_rev in Hx. lia.
Qed.

Lemma scannable_measured (r : LRUKReplacer) order :
  scannable r → enumerates order r →
  ∀ f i, (f, i) ∈ order → evictable i = true →
         ∃ d fr, distance r i = Ok d ∧ front i = Ok fr.
Proof.
  intros Hsc Hen f i Hin He. apply (enumerates_elem r) in Hin; [|done].
  pose proof (distance_spec r i (sc_k r Hsc) (sc_now r Hsc) (λ x, sc_past r Hsc f i x Hin)) as Hd.
  pose proof (sc_accessed r Hsc f i (conj Hin He)) as Hne.
  unfold front. destruct (timestamp i) as [|x l] eqn:Hts; [done|].
  destruct (backward_k_distance _ _ _); [destruct Hd as [Hd _]|]; eauto.
Qed.

(** Whatever the state, a frame that [Evict] returns was tracked and
    evictable, and only its record and the counter change. *)
Lemma Evict_returns_evictable (r r' : LRUKReplacer) order f :
  enumerates order r → Evict order r = Ok (Some f, r') →
  (∃ i, evictable_frame r f i) ∧
  r' = {| frame_table_ := delete f (frame_table_ r);
          current_timestamp_ := current_timestamp_ r;
          curr_size_ := wrap64 (curr_size_ r - 1);
          replacer_size_ := replacer_size_ r;
          k_ := k_ r |}.
Proof.
  intros Hen H. unfold Evict in H. apply obind_Ok in H as (acc & Hl & H).
  destruct (s acc =? INVALID_FRAME_ID) eqn:Hs; [done|]. zbool.
  inversion H; subst. split; [|done].
  apply Evict_loop_sound in Hl as [-> | (g & i & Hin & He & Hg)]; [done|].
  exists i. subst g. split; [|done]. by apply (enumerates_elem r order).
Qed.

(** A failing [Evict] leaves the replacer as it was. *)
Lemma Evict_false_unchanged (r r' : LRUKReplacer) order :
  Evict order r = Ok (None, r') → r' = r.
Proof.
  unfold Evict. intros H. apply obind_Ok in H as (acc & _ & H).
  case_match; by inversion H.
Qed.

(** Without an evictable frame [Evict] returns false. *)
Lemma Evict_nothing_evictable (r : LRUKReplacer) order :
  enumerates order r →
  (∀ f i, frame_table_ r !! f = Some i → evictable i = false) →
  Evict order r = Ok (None, r).
Proof.
  intros Hen Hnone. unfold Evict.
  rewrite Evict_loop_none; [done|].
  intros f i Hin. apply (Hnone f). by apply (enumerates_elem r order).
Qed.

(** On a scannable state with an evictable frame, [Evict] returns a victim
    that the policy allows and removes its record; the count of evictable
    frames, when it is positive, decreases by one; nothing else changes. *)
Lemma Evict_selects (r : LRUKReplacer) order :
  scannable r → enumerates order r →
  (∃ f i, evictable_frame r f i) →
  ∃ f r', lruk_victim r f ∧
          Evict order r = Ok (Some f, r') ∧
          frame_table_ r' = delete f (frame_table_ r) ∧
          (0 < curr_size_ r ≤ SIZE_MAX → Size r' = Size r - 1) ∧
          current_timestamp_ r' = current_timestamp_ r ∧
          k_ r' = k_ r ∧ replacer_size_ r' = replacer_size_ r.
Proof.
  intros Hsc Hen (f0 & i0 & Htr0 & He0).
  destruct (Evict_loop_best r order scan_init (scannable_measured r order Hsc Hen))
    as (acc & Hl & _ & Hsel & Hdom).
  assert ((f0, i0) ∈ order) as Hin0 by by apply (enumerates_elem r order).
  pose proof (distance_spec r i0 (sc_k r Hsc) (sc_now r Hsc) (λ x, sc_past r Hsc f0 i0 x Htr0)) as Hd0.
  destruct (scannable_measured r order Hsc Hen f0 i0 Hin0 He0) as (d0 & fr0 & Hd0' & Hf0).
  assert (1 ≤ d0).
  { destruct (backward_k_distance _ _ _); [destruct Hd0 as [Hd0 ?]|];
      rewrite Hd0 in Hd0'; inversion Hd0'; subst; [lia | unfold SIZE_MAX; lia]. }
  destruct Hsel as [-> | (f & i & Hin & He & Hs & Hd & Hf)].
  { destruct (Hdom f0 i0 d0 fr0 Hin0 He0 Hd0' Hf0); simpl in *; lia. }
  apply (enumerates_elem r order) in Hin; [|done].
  exists f. eexists. split; [|split].
  - exists i. split; [done|]. intros g j [Hg Hej]. cbv zeta.
    assert ((g, j) ∈ order) as Hinj by by apply (enumerates_elem r order).
    destruct (scannable_measured r order Hsc Hen g j Hinj Hej) as (dj & fj & Hdj & Hfj).
    specialize (Hdom g j dj fj Hinj Hej Hdj Hfj).
    pose proof (distance_spec r i (sc_k r Hsc) (sc_now r Hsc) (λ x, sc_past r Hsc f i x Hin)) as Hsi.
    pose proof (distance_spec r j (sc_k r Hsc) (sc_now r Hsc) (λ x, sc_past r Hsc g j x Hg)) as Hsj.
    rewrite Hd in Hsi. rewrite Hdj in Hsj.
    assert (∀ x y, oldest_retained (timestamp i) = Some x →
                   oldest_retained (timestamp j) = Some y → x = t acc ∧ y = fj) as Hold.
    { unfold oldest_retained, front in *. intros x y Hx Hy.
      destruct (timestamp i), (timestamp j); simplify_eq/=. done. }
    destruct (backward_k_distance _ _ (timestamp i)) as [di|],
             (backward_k_distance _ _ (timestamp j)) as [dj'|]; simpl;
      repeat match goal with H : _ ∧ _ |- _ => destruct H end; inj_ok;
      (split; [try done; try lia | intros Heq x y Hx Hy; try discriminate;
                                   try (injection Heq as Heq);
                                   destruct (Hold x y Hx Hy); lia]).
  - unfold Evict. rewrite Hl, bind_Ok.
    pose proof (sc_ids r Hsc f i Hin) as Hne.
    destruct (s acc =? INVALID_FRAME_ID) eqn:Hsa; zbool; [congruence|].
    rewrite Hs. reflexivity.
  - split_and!; try reflexivity. intros Hsize. unfold Size. simpl.
    by rewrite wrap64_small by lia.
Qed.

(** [Evict] against the policy of the specification, on the states where
    every evictable frame has at least one recorded access ([scannable]):
    if some tracked frame is evictable, [Evict] returns an evictable frame
    of largest backward k-distance (fewer than [k] accesses counting as
    +infinity) whose oldest retained timestamp is smallest among the
    frames at that distance, erases its record and leaves the rest of the
    table, the clock, [k] and the capacity alone, and [Size] decreases by
    one; if no tracked frame is evictable, [Evict] returns nothing and
    changes nothing. *)
Theorem Evict_follows_policy (r : LRUKReplacer) order :
  scannable r → enumerates order r →
  ((∃ f i, evictable_frame r f i) →
   ∃ f r', lruk_victim r f ∧
           Evict order r = Ok (Some f, r') ∧
           frame_table_ r' = delete f (frame_table_ r) ∧
           (0 < curr_size_ r ≤ SIZE_MAX → Size r' = Size r - 1) ∧
           current_timestamp_ r' = current_timestamp_ r ∧
           k_ r' = k_ r ∧ replacer_size_ r' = replacer_size_ r) ∧
  ((∀ f i, frame_table_ r !! f = Some i → evictable i = false) →
   Evict order r = Ok (None, r)).
Proof.
  intros Hsc Hen. split.
  - by apply Evict_selects.
  - by apply Evict_nothing_evictable.
Qed.

Lemma Evict_follows_policy_witness :
  let a := {| timestamp := [0; 2]; evictable := true |} in
  let c := {| timestamp := [1]; evictable := true |} in
  let r := {| frame_table_ := <[0 := a]> {[ 1 := c ]};
              current_timestamp_ := 3; curr_size_ := 2;
              replacer_size_ := 3; k_ := 2 |} in
  (scannable r ∧ enumerates [(0, a); (1, c)] r ∧ evictable_frame r 1 c) ∧
  ∃ f r', lruk_victim r f ∧ Evict [(0, a); (1, c)] r = Ok (Some f, r') ∧ f = 1 ∧
          Size r' = 1.
Proof.
  intros a c r.
  assert (∀ f i, frame_table_ r !! f = Some i → (f = 0 ∧ i = a) ∨ (f = 1 ∧ i = c)) as Hcases.
  { intros f i. simpl. rewrite lookup_insert_Some, lookup_singleton_Some.
    intros [[<- <-] | [_ [<- <-]]]; [by left | by right]. }
  assert (scannable r) as Hsc.
  { constructor.
    - simpl. lia.
    - unfold SIZE_MAX. simpl. lia.
    - intros f i [[-> _] | [-> _]]%Hcases; discriminate.
    - intros f i x [[_ ->] | [_ ->]]%Hcases Hx; simpl in *;
        repeat (apply elem_of_cons in Hx as [-> | Hx]; [lia|]); inversion Hx.
    - intros f i [[[_ ->] | [_ ->]]%Hcases _]; discriminate. }
  assert (enumerates [(0, a); (1, c)] r) as Hen.
  { unfold enumerates. simpl. rewrite map_to_list_insert by reflexivity.
    by rewrite map_to_list_singleton. }
  assert (evictable_frame r 1 c) as Hev by (split; reflexivity).
  destruct (Evict_follows_policy r [(0, a); (1, c)] Hsc Hen) as [Hsome _].
  destruct (Hsome (ex_intro _ 1 (ex_intro _ c Hev)))
    as (f & r' & Hvic & Hrun & _ & Hsize & _).
  split; [by split_and!|]. exists f, r'.
  assert (f = 1) as Hf by (vm_compute in Hrun; congruence).
  split_and!; [exact Hvic | exact Hrun | exact Hf |].
  rewrite Hsize; [reflexivity|]. unfold SIZE_MAX. simpl. lia.
Defined.

(** ** The replacer: frames marked evictable before any access *)

Lemma Evict_visit_unaccessed (r : LRUKReplacer) acc f i :
  evictable i = true → timestamp i = [] → Evict_visit r acc (f, i) = Undefined.
Proof.
  intros He Hts. unfold Evict_visit, distance, front. rewrite He, Hts. simpl.
  repeat case_match; reflexivity.
Qed.

Lemma Evict_visit_no_assert (r : LRUKReplacer) acc e :
  Evict_visit r acc e ≠ AssertFail.
Proof.
  destruct e as [f i]. unfold Evict_visit, distance, front.
  repeat (case_match; simpl; try done).
Qed.

Lemma Evict_loop_unaccessed (r : LRUKReplacer) l f i : ∀ acc,
  (f, i) ∈ l → evictable i = true → timestamp i = [] →
  Evict_loop r l acc = Undefined.
Proof.
  induction l as [|e l IH]; intros acc Hin He Hts; [inversion Hin|].
  cbn [Evict_loop]. apply elem_of_cons in Hin as [<- | Hin].
  - by rewrite Evict_visit_unaccessed.
  - pose proof (Evict_visit_no_assert r acc e).
    destruct (Evict_visit r acc e) as [acc1| |]; [|done|done].
    rewrite bind_Ok. by apply IH.
Qed.

(** Read by the letter of the language, the scan stops at a tracked
    evictable frame with an empty access history (which [SetEvictable] on
    an untracked frame produces): [front] has nothing to return,
    whatever order the table is enumerated in. *)
Lemma Evict_unaccessed_frame_undefined (r : LRUKReplacer) order f i :
  enumerates order r → evictable_frame r f i → timestamp i = [] →
  Evict order r = Undefined.
Proof.
  intros Hen [Hf He] Hts. unfold Evict.
  rewrite (Evict_loop_unaccessed r order f i); [done| |done|done].
  by apply (enumerates_elem r order).
Qed.

(** ** The replacer: [Evict] with the read of an empty history *)

Section EvictReadScan.
Variable empty_front : Z → Z.
Variable r : LRUKReplacer.

#[local] Arguments Evict_visit_read : simpl never.

Lemma Evict_visit_read_skip acc f i :
  evictable i = false → Evict_visit_read empty_front r acc (f, i) = Ok acc.
Proof. unfold Evict_visit_read. by intros ->. Qed.

Lemma Evict_visit_read_measure acc f i d :
  evictable i = true → distance r i = Ok d →
  Evict_visit_read empty_front r acc (f, i) =
    Ok (if ((front_read empty_front f i <? t acc) && (d =? max_d acc))
           || (max_d acc <? d)
        then {| max_d := d; t := front_read empty_front f i; s := f |} else acc).
Proof.
  unfold Evict_visit_read. intros -> ->. simpl. by case_match.
Qed.

(** Where [front] has a value, the two readings of a visit agree. *)
Lemma Evict_visit_read_agrees acc e acc' :
  Evict_visit r acc e = Ok acc' → Evict_visit_read empty_front r acc e = Ok acc'.
Proof.
  destruct e as [f i]. unfold Evict_visit, Evict_visit_read.
  destruct (negb (evictable i)); [done|].
  intros (d & -> & H)%obind_Ok. apply obind_Ok in H as (fr & Hfr & H).
  rewrite bind_Ok. cbv zeta. unfold front in Hfr. unfold front_read.
  destruct (timestamp i) as [|x l]; [done|]. by inversion Hfr; subst.
Qed.

Lemma Evict_loop_read_agrees l : ∀ acc acc',
  Evict_loop r l acc = Ok acc' → Evict_loop_read empty_front r l acc = Ok acc'.
Proof.
  induction l as [|e l IH]; simpl; intros acc acc' H; [done|].
  apply obind_Ok in H as (acc1 & Hv & Hl).
  rewrite (Evict_visit_read_agrees _ _ _ Hv), bind_Ok. by apply IH.
Qed.

Lemma Evict_loop_read_none l : ∀ acc,
  (∀ f i, (f, i) ∈ l → evictable i = false) →
  Evict_loop_read empty_front r l acc = Ok acc.
Proof.
  induction l as [|[f i] l IH]; simpl; intros acc H; [done|].
  rewrite Evict_visit_read_skip by (apply (H f); left).
  rewrite bind_Ok. apply IH. intros g j Hin. apply (H g). by right.
Qed.

(** When the distance of every evictable entry can be computed, the scan
    returns and its locals describe a best entry: the largest distance,
    and among equal distances the smallest value read as the front. *)
Lemma Evict_loop_read_best l : ∀ acc,
  (∀ f i, (f, i) ∈ l → evictable i = true → ∃ d, distance r i = Ok d) →
  ∃ acc', Evict_loop_read empty_front r l acc = Ok acc' ∧
    (max_d acc < max_d acc' ∨ (max_d acc' = max_d acc ∧ t acc' ≤ t acc)) ∧
    (acc' = acc ∨
     ∃ f i, (f, i) ∈ l ∧ evictable i = true ∧ s acc' = f ∧
            distance r i = Ok (max_d acc') ∧
            front_read empty_front f i = t acc') ∧
    (∀ f i d, (f, i) ∈ l → evictable i = true → distance r i = Ok d →
       d < max_d acc' ∨ (d = max_d acc' ∧ t acc' ≤ front_read empty_front f i)).
Proof.
  induction l as [|[f i] l IH]; simpl; intros acc Hm.
  - exists acc. split_and!; auto; [lia|]. intros ??? Hin. inversion Hin.
  - destruct (evictable i) eqn:He.
    + destruct (Hm f i) as (d & Hd); [left|done|].
      rewrite (Evict_visit_read_measure acc f i d) by done. rewrite bind_Ok.
      set (fr := front_read empty_front f i).
      set (acc1 := if ((fr <? t acc) && (d =? max_d acc)) || (max_d acc <? d)
                   then {| max_d := d; t := fr; s := f |} else acc).
      destruct (IH acc1) as (acc' & Hl & Hge & Hsel & Hdom).
      { intros g j Hin. apply (Hm g). by right. }
      assert ((max_d acc < max_d acc1 ∨ (max_d acc1 = max_d acc ∧ t acc1 ≤ t acc)) ∧
              (d < max_d acc1 ∨ (d = max_d acc1 ∧ t acc1 ≤ fr)) ∧
              (acc1 = acc ∨ (s acc1 = f ∧ max_d acc1 = d ∧ t acc1 = fr)))
        as (Hge1 & Hdom1 & Hsel1).
      { subst acc1. case_match eqn:Hc; simpl; zbool.
        - split_and!; [|lia|by right]. destruct Hc as [Hc|Hc]; zbool; lia.
        - split_and!; [lia| |by left]. destruct H; zbool; lia. }
      exists acc'. split_and!; [done|lia| |].
      * destruct Hsel as [-> | (g & j & Hin & Hej & Hs & Hdj & Hfj)].
        -- destruct Hsel1 as [-> | (Hs & Hd1 & Hf1)]; [by left|].
           right. exists f, i. rewrite Hd1, Hf1. split_and!; auto. left.
        -- right. exists g, j. split_and!; auto. by right.
      * intros g j d' Hin Hej Hdj.
        apply elem_of_cons in Hin as [Heq | Hin]; [|eauto].
        inversion Heq; subst g j. rewrite Hd in Hdj.
        inversion Hdj; subst. fold fr. lia.
    + rewrite Evict_visit_read_skip by done. rewrite bind_Ok.
      destruct (IH acc) as (acc' & Hl & Hge & Hsel & Hdom).
      { intros g j Hin. apply (Hm g). by right. }
      exists acc'. split_and!; [done|done| |].
      * destruct Hsel as [-> | (g & j & Hin & Hej & Hs & Hdj & Hfj)]; [by left|].
        right. exists g, j. split_and!; auto. by right.
      * intros g j d' Hin Hej Hdj.
        apply elem_of_cons in Hin as [Heq | Hin]; [|eauto].
        inversion Heq; subst g j. congruence.
Qed.

End EvictReadScan.

Lemma scannable_timed (r : LRUKReplacer) : scannable r → timed r.
Proof. intros [Hk Hnow Hids Hpast _]. by constructor. Qed.

Lemma timed_measured (r : LRUKReplacer) order :
  timed r → enumerates order r →
  ∀ f i, (f, i) ∈ order → evictable i = true → ∃ d, distance r i = Ok d.
Proof.
  intros Htm Hen f i Hin He. apply (enumerates_elem r) in Hin; [|done].
  pose proof (distance_spec r i (tm_k r Htm) (tm_now r Htm)
                (λ x, tm_past r Htm f i x Hin)) as Hd.
  destruct (backward_k_distance _ _ _); [destruct Hd as [Hd _]|]; eauto.
Qed.



(** ** The replacer: [SetEvictable] on an untracked frame *)

(** C9.  For a frame [f] that the replacer does not track,
    [SetEvictable f true] inserts a record for [f] with an empty access
    history and the evictable flag set, records no access (the clock does
    not move), leaves the other records alone, and makes [Size] one
    larger (the counter being below the last [size_t] value). *)
Theorem SetEvictable_untracked_inserts (r : LRUKReplacer) (f : Z) :
  frame_table_ r !! f = None →
  0 ≤ curr_size_ r < SIZE_MAX →
  let r' := SetEvictable f true r in
  frame_table_ r' = <[f := {| timestamp := []; evictable := true |}]> (frame_table_ r) ∧
  evictable_frame r' f {| timestamp := []; evictable := true |} ∧
  Size r' = Size r + 1 ∧
  current_timestamp_ r' = current_timestamp_ r ∧
  replacer_size_ r' = replacer_size_ r ∧ k_ r' = k_ r.
Proof.
  intros Hf Hsz. unfold SetEvictable, table_at, evictable_frame, Size.
  rewrite Hf. simpl. rewrite lookup_insert_eq.
  rewrite wrap64_small by lia. done.
Qed.

Lemma SetEvictable_untracked_inserts_witness :
  let r := LRUKReplacer_new 3 2 in
  (frame_table_ r !! 1 = None ∧ 0 ≤ curr_size_ r < SIZE_MAX) ∧
  evictable_frame (SetEvictable 1 true r) 1 {| timestamp := []; evictable := true |} ∧
  Size (SetEvictable 1 true r) = 1.
Proof.
  assert (frame_table_ (LRUKReplacer_new 3 2) !! 1 = None) as H1 by reflexivity.
  assert (0 ≤ curr_size_ (LRUKReplacer_new 3 2) < SIZE_MAX) as H2
    by (unfold SIZE_MAX; simpl; lia).
  split; [by split|].
  destruct (SetEvictable_untracked_inserts (LRUKReplacer_new 3 2) 1 H1 H2)
    as (_ & Hev & Hsz & _).
  split; [exact Hev | exact Hsz].
Defined.

(** ** The replacer: the range check of [Remove] *)

(** C10.  With a capacity that is a [size_t]: any frame id (a 32-bit
    integer) at or above the capacity makes [Remove] fail its first
    assertion, whether or not the frame is tracked; and, the capacity
    being representable as a frame id, an untracked frame id inside
    [0, capacity) makes [Remove] return with the replacer (its table and
    [curr_size_] included) unchanged. *)
Theorem Remove_range_check (r : LRUKReplacer) :
  0 ≤ replacer_size_ r →
  (∀ frame_id, is_int32 frame_id → replacer_size_ r ≤ frame_id →
               Remove frame_id r = AssertFail) ∧
  (replacer_size_ r ≤ INT32_MAX →
   ∀ frame_id, 0 ≤ frame_id < replacer_size_ r →
               frame_table_ r !! frame_id = None →
               Remove frame_id r = Ok r).
Proof.
  intros Hcap. split.
  - intros frame_id Hid Hge. unfold Remove.
    rewrite cast32_small by (unfold is_int32, INT32_MAX in *; lia).
    destruct (frame_id <? replacer_size_ r) eqn:Hlt; zbool; [lia|done].
  - intros Hfit frame_id Hin Hnone. unfold Remove.
    rewrite cast32_small by (unfold is_int32, INT32_MAX in *; lia).
    destruct (frame_id <? replacer_size_ r) eqn:Hlt; zbool; [|lia].
    by rewrite Hnone.
Qed.

Lemma Remove_range_check_witness :
  let r := RecordAccess 0 (LRUKReplacer_new 3 2) in
  0 ≤ replacer_size_ r ∧
  Remove 3 r = AssertFail ∧ Remove 7 r = AssertFail ∧ Remove 1 r = Ok r.
Proof.
  assert (0 ≤ replacer_size_ (RecordAccess 0 (LRUKReplacer_new 3 2))) as Hcap
    by (simpl; lia).
  destruct (Remove_range_check (RecordAccess 0 (LRUKReplacer_new 3 2)) Hcap)
    as [Hout Hin].
  split; [exact Hcap|]. split_and!.
  - apply Hout; [unfold is_int32, INT32_MAX | simpl]; lia.
  - apply Hout; [unfold is_int32, INT32_MAX | simpl]; lia.
  - apply Hin; [unfold INT32_MAX; simpl; lia | simpl; lia | reflexivity].
Defined.

(** ** The replacer: what each operation does to the table *)

Lemma lookup_SetEvictable (r : LRUKReplacer) f v g :
  frame_table_ (SetEvictable f v r) !! g =
    if decide (f = g)
    then Some {| timestamp := timestamp (table_at r f); evictable := v |}
    else frame_table_ r !! g.
Proof.
  unfold SetEvictable. destruct (table_at r f) as [ts ev]. simpl.
  destruct ev, v; simpl; rewrite lookup_insert; by case_decide.
Qed.

Lemma lookup_RecordAccess (r : LRUKReplacer) f g :
  frame_table_ (RecordAccess f r) !! g =
    if decide (f = g)
    then Some {| timestamp :=
                   (let pushed := timestamp (table_at r f) ++ [current_timestamp_ r] in
                    if k_ r <? Z.of_nat (length pushed) then tail pushed else pushed);
                 evictable := evictable (table_at r f) |}
    else frame_table_ r !! g.
Proof. unfold RecordAccess. simpl. rewrite lookup_insert. by case_decide. Qed.

(** [RecordAccess] followed by [SetEvictable false], as the pool calls
    them: the frame ends up tracked and not evictable, the others are
    untouched. *)
Lemma lookup_touch_eq (r : LRUKReplacer) f :
  ∃ i, frame_table_ (SetEvictable f false (RecordAccess f r)) !! f = Some i ∧
       evictable i = false ∧
       timestamp i = timestamp (table_at (RecordAccess f r) f).
Proof. rewrite lookup_SetEvictable. rewrite decide_True by done. eauto. Qed.

Lemma lookup_touch_ne (r : LRUKReplacer) f g :
  f ≠ g →
  frame_table_ (SetEvictable f false (RecordAccess f r)) !! g = frame_table_ r !! g.
Proof.
  intros Hne. rewrite lookup_SetEvictable, decide_False by done.
  rewrite lookup_RecordAccess, decide_False by done. done.
Qed.

Lemma Remove_Ok (r r' : LRUKReplacer) f :
  Remove f r = Ok r' →
  frame_table_ r' = delete f (frame_table_ r) ∧
  current_timestamp_ r' = current_timestamp_ r ∧ k_ r' = k_ r ∧
  replacer_size_ r' = replacer_size_ r.
Proof.
  unfold Remove. intros H.
  destruct (f <? cast32 (replacer_size_ r)); [|done].
  destruct (frame_table_ r !! f) as [i|] eqn:E.
  - destruct (evictable i); [|done]. by inversion H.
  - inversion H; subst. split_and!; try done. symmetry. by apply delete_id.
Qed.

(** ** The pool: reading and writing frames *)

Lemma page_at_Ok b f p :
  page_at b f = Ok p ↔ 0 ≤ f ∧ pages_ b !! Z.to_nat f = Some p.
Proof.
  unfold page_at. destruct (f <? 0) eqn:Hf; zbool.
  - split; [done|lia].
  - destruct (pages_ b !! Z.to_nat f); split; intros H; try done.
    + inversion H. by split.
    + destruct H as [_ H]. by inversion H.
    + by destruct H.
Qed.

Lemma page_at_store_eq b f p q :
  page_at b f = Ok p → page_at (store_page f q b) f = Ok q.
Proof.
  rewrite !page_at_Ok. intros [Hf Hp]. split; [done|]. simpl.
  apply list_lookup_insert_eq. by eapply lookup_lt_Some.
Qed.

Lemma page_at_store_ne b f g q :
  0 ≤ f → f ≠ g → page_at (store_page f q b) g = page_at b g.
Proof.
  intros Hf Hne. unfold page_at. destruct (g <? 0) eqn:Hg; [done|]. zbool. simpl.
  rewrite list_lookup_insert_ne by lia. done.
Qed.

(** ** The pool: the constructor *)

(** C8, as the code has it.  The claim says that constructing a pool with
    [pool_size = 0] dies on an assertion.  The constructor contains no
    assertion: for every disk and every [k] it returns a pool with no
    frame, an empty free list, an empty page table and an empty replacer,
    on which [NewPgImp] and [FetchPgImp] return null and change nothing. *)
Theorem constructor_zero_pool_returns (disk : DiskManager) (k : Z) :
  ∃ b, BufferPoolManagerInstance_new 0 disk k = Ok b ∧
       pages_ b = [] ∧ free_list_ b = [] ∧ page_table_ b = ∅ ∧
       replacer_ b = LRUKReplacer_new 0 k ∧
       enumerates [] (replacer_ b) ∧
       NewPgImp [] b = Ok (None, b) ∧
       ∀ page_id, FetchPgImp [] page_id b = Ok (None, b).
Proof.
  eexists. split; [reflexivity|]. split_and!; try reflexivity.
  unfold enumerates. simpl. by rewrite map_to_list_empty.
Qed.

(** The claim C8 fails at pool size 0 with an empty disk and [k = 2]: the
    constructor does not end in a failed assertion. *)
Lemma constructor_zero_pool_no_assert :
  BufferPoolManagerInstance_new 0 {| stored := ∅; calls := [] |} 2 ≠ AssertFail.
Proof. discriminate. Qed.

(** ** The pool: [FlushPgImp] *)

(** C7.  [FlushPgImp] returns false, changing nothing, for the sentinel
    page id and for a page that is not resident.  For a resident page it
    returns true after one [WritePage] of the frame's page id and data;
    the frame keeps its data, page id and pin count and becomes clean; the
    other frames, the page table, the free list, the replacer and the
    page-id counter are unchanged. *)
Theorem FlushPgImp_effect (b : BufferPoolManagerInstance) (page_id : Z) :
  (page_id = INVALID_PAGE_ID ∨ page_table_ b !! page_id = None →
   FlushPgImp page_id b = Ok (false, b)) ∧
  (∀ frame_id p,
     page_id ≠ INVALID_PAGE_ID →
     page_table_ b !! page_id = Some frame_id →
     page_at b frame_id = Ok p →
     ∃ b', FlushPgImp page_id b = Ok (true, b') ∧
       calls (disk_manager_ b') =
         calls (disk_manager_ b) ++ [WritePage (page_id_ p) (data_ p)] ∧
       stored (disk_manager_ b') = <[page_id_ p := data_ p]> (stored (disk_manager_ b)) ∧
       page_at b' frame_id =
         Ok {| data_ := data_ p; page_id_ := page_id_ p;
               pin_count_ := pin_count_ p; is_dirty_ := false |} ∧
       (∀ g, g ≠ frame_id → page_at b' g = page_at b g) ∧
       page_table_ b' = page_table_ b ∧
       free_list_ b' = free_list_ b ∧
       replacer_ b' = replacer_ b ∧
       next_page_id_ b' = next_page_id_ b ∧
       pool_size_ b' = pool_size_ b).
Proof.
  split.
  - intros [-> | Hnone]; unfold FlushPgImp; [done|].
    rewrite Hnone. by case_match.
  - intros frame_id p Hvalid Hres Hp. unfold FlushPgImp.
    destruct (page_id =? INVALID_PAGE_ID) eqn:Hs; zbool; [done|].
    rewrite Hres, Hp, bind_Ok. eexists. split; [reflexivity|].
    pose proof Hp as [Hf _]%page_at_Ok.
    split_and!; try reflexivity.
    + by eapply (page_at_store_eq (set_disk _ b)).
    + intros g Hg. by rewrite page_at_store_ne.
Qed.

Lemma FlushPgImp_effect_witness :
  let p := {| data_ := zero_page; page_id_ := 7; pin_count_ := 1; is_dirty_ := true |} in
  let b := {| pool_size_ := 1; pages_ := [p]; page_table_ := {[ 7 := 0 ]};
              free_list_ := []; replacer_ := LRUKReplacer_new 1 2;
              next_page_id_ := 8;
              disk_manager_ := {| stored := ∅; calls := [] |} |} in
  (7 ≠ INVALID_PAGE_ID ∧ page_table_ b !! 7 = Some 0 ∧ page_at b 0 = Ok p) ∧
  FlushPgImp INVALID_PAGE_ID b = Ok (false, b) ∧
  ∃ b', FlushPgImp 7 b = Ok (true, b') ∧
        calls (disk_manager_ b') = [WritePage 7 zero_page] ∧
        page_at b' 0 = Ok {| data_ := zero_page; page_id_ := 7;
                             pin_count_ := 1; is_dirty_ := false |}.
Proof.
  intros p b.
  assert (7 ≠ INVALID_PAGE_ID) as H1 by discriminate.
  assert (page_table_ b !! 7 = Some 0) as H2 by reflexivity.
  assert (page_at b 0 = Ok p) as H3 by reflexivity.
  destruct (FlushPgImp_effect b INVALID_PAGE_ID) as [Hfalse _].
  destruct (FlushPgImp_effect b 7) as [_ Htrue].
  destruct (Htrue 0 p H1 H2 H3) as (b' & Hrun & Hcalls & _ & Hpage & _).
  split; [by split_and!|]. split; [apply Hfalse; by left|].
  exists b'. split_and!; [exact Hrun | exact Hcalls | exact Hpage].
Defined.

(** ** The pool: [UnpinPgImp] *)

(** C5.  [UnpinPgImp] returns false and changes nothing when the page is
    not resident or when its frame's pin count is zero.  When the pin
    count is positive it returns true; the frame's pin count is one less
    and its dirty flag is the old flag or-ed with [is_dirty]; the replacer
    is [SetEvictable frame true] of the old one when the pin count was 1
    (the frame is then marked evictable) and is the old one otherwise; the
    other frames, the page table, the free list, the page-id counter and
    the disk are unchanged. *)
Theorem UnpinPgImp_effect (b : BufferPoolManagerInstance) (page_id : Z) (is_dirty : bool) :
  (page_table_ b !! page_id = None →
   UnpinPgImp page_id is_dirty b = Ok (false, b)) ∧
  (∀ frame_id p,
     page_table_ b !! page_id = Some frame_id → page_at b frame_id = Ok p →
     pin_count_ p = 0 →
     UnpinPgImp page_id is_dirty b = Ok (false, b)) ∧
  (∀ frame_id p,
     page_table_ b !! page_id = Some frame_id → page_at b frame_id = Ok p →
     0 < pin_count_ p →
     ∃ b', UnpinPgImp page_id is_dirty b = Ok (true, b') ∧
       page_at b' frame_id =
         Ok {| data_ := data_ p; page_id_ := page_id_ p;
               pin_count_ := pin_count_ p - 1;
               is_dirty_ := is_dirty || is_dirty_ p |} ∧
       (∀ g, g ≠ frame_id → page_at b' g = page_at b g) ∧
       replacer_ b' = (if pin_count_ p =? 1
                       then SetEvictable frame_id true (replacer_ b)
                       else replacer_ b) ∧
       (pin_count_ p = 1 → ∃ i, evictable_frame (replacer_ b') frame_id i) ∧
       page_table_ b' = page_table_ b ∧
       free_list_ b' = free_list_ b ∧
       next_page_id_ b' = next_page_id_ b ∧
       disk_manager_ b' = disk_manager_ b ∧
       pool_size_ b' = pool_size_ b).
Proof.
  split_and!.
  - intros Hnone. unfold UnpinPgImp. by rewrite Hnone.
  - intros frame_id p Hres Hp Hpin. unfold UnpinPgImp.
    rewrite Hres, Hp, bind_Ok, Hpin. done.
  - intros frame_id p Hres Hp Hpin. unfold UnpinPgImp.
    rewrite Hres, Hp, bind_Ok.
    destruct (pin_count_ p <=? 0) eqn:Hle; zbool; [lia|].
    pose proof Hp as [Hf _]%page_at_Ok.
    assert ((if is_dirty then true else is_dirty_ p) = is_dirty || is_dirty_ p) as ->
      by by destruct is_dirty.
    cbn [pin_count_].
    replace (pin_count_ p - 1 =? 0) with (pin_count_ p =? 1)
      by (destruct (pin_count_ p =? 1) eqn:E1, (pin_count_ p - 1 =? 0) eqn:E2; zbool; lia).
    destruct (pin_count_ p =? 1) eqn:Hone; zbool;
      (eexists; split; [reflexivity|]); split_and!; try reflexivity.
    + by eapply (page_at_store_eq b).
    + intros g Hg. by apply (page_at_store_ne b).
    + intros _. simpl. eexists.
      split; [rewrite lookup_SetEvictable, decide_True by done|]; reflexivity.
    + by eapply (page_at_store_eq b).
    + intros g Hg. by apply (page_at_store_ne b).
    + lia.
Qed.

Lemma UnpinPgImp_effect_witness :
  let p := {| data_ := zero_page; page_id_ := 0; pin_count_ := 1; is_dirty_ := false |} in
  let b := {| pool_size_ := 1; pages_ := [p]; page_table_ := {[ 0 := 0 ]};
              free_list_ := [];
              replacer_ := {| frame_table_ := {[ 0 := {| timestamp := [0]; evictable := false |} ]};
                              current_timestamp_ := 1; curr_size_ := 0;
                              replacer_size_ := 1; k_ := 2 |};
              next_page_id_ := 1;
              disk_manager_ := {| stored := ∅; calls := [] |} |} in
  (page_table_ b !! 5 = None ∧ page_table_ b !! 0 = Some 0 ∧
   page_at b 0 = Ok p ∧ 0 < pin_count_ p) ∧
  UnpinPgImp 5 true b = Ok (false, b) ∧
  ∃ b', UnpinPgImp 0 true b = Ok (true, b') ∧
        page_at b' 0 = Ok {| data_ := zero_page; page_id_ := 0;
                             pin_count_ := 0; is_dirty_ := true |} ∧
        ∃ i, evictable_frame (replacer_ b') 0 i.
Proof.
  intros p b.
  assert (page_table_ b !! 5 = None) as H0 by reflexivity.
  assert (page_table_ b !! 0 = Some 0) as H1 by reflexivity.
  assert (page_at b 0 = Ok p) as H2 by reflexivity.
  assert (0 < pin_count_ p) as H3 by (simpl; lia).
  destruct (UnpinPgImp_effect b 5 true) as (Hmiss & _ & _).
  destruct (UnpinPgImp_effect b 0 true) as (_ & _ & Hhit).
  destruct (Hhit 0 p H1 H2 H3) as (b' & Hrun & Hpage & _ & _ & Hev & _).
  split; [by split_and!|]. split; [by apply Hmiss|].
  exists b'. split_and!; [exact Hrun | exact Hpage | by apply Hev].
Defined.

(** ** The pool: obtaining a frame *)

(** What [obtain_frame] did when it found a frame. *)
Lemma obtain_frame_Some order b f p b1 :
  enumerates order (replacer_ b) →
  obtain_frame order b = Ok (Some (f, p), b1) →
  page_at b f = Ok p ∧ pages_ b1 = pages_ b ∧
  next_page_id_ b1 = next_page_id_ b ∧ pool_size_ b1 = pool_size_ b ∧
  ((free_list_ b = f :: free_list_ b1 ∧ replacer_ b1 = replacer_ b ∧
    page_table_ b1 = page_table_ b ∧ disk_manager_ b1 = disk_manager_ b) ∨
   (free_list_ b = [] ∧ free_list_ b1 = [] ∧
    (∃ i, evictable_frame (replacer_ b) f i) ∧
    Evict order (replacer_ b) = Ok (Some f, replacer_ b1) ∧
    frame_table_ (replacer_ b1) = delete f (frame_table_ (replacer_ b)) ∧
    current_timestamp_ (replacer_ b1) = current_timestamp_ (replacer_ b) ∧
    k_ (replacer_ b1) = k_ (replacer_ b) ∧
    replacer_size_ (replacer_ b1) = replacer_size_ (replacer_ b) ∧
    page_table_ b1 = delete (page_id_ p) (page_table_ b) ∧
    disk_manager_ b1 =
      (if is_dirty_ p
       then disk_WritePage (page_id_ p) (data_ p) (disk_manager_ b)
       else disk_manager_ b))).
Proof.
  intros Hen H. unfold obtain_frame in H.
  destruct (free_list_ b) as [|f0 rest] eqn:Hfree.
  - apply obind_Ok in H as ([victim r'] & Hev & H).
    destruct victim as [f0|]; [|by inversion H].
    apply obind_Ok in H as (p0 & Hp & H). inversion H; subst. clear H.
    destruct (Evict_returns_evictable _ _ _ _ Hen Hev) as [Hi Hr'].
    split_and!; try done. right. simpl. split_and!; try done; by rewrite Hr'.
  - apply obind_Ok in H as (p0 & Hp & H). inversion H; subst. clear H.
    split_and!; try done. by left.
Qed.

(** What happened when [obtain_frame] found none. *)
Lemma obtain_frame_None order b b1 :
  obtain_frame order b = Ok (None, b1) →
  b1 = b ∧ free_list_ b = [] ∧
  Evict order (replacer_ b) = Ok (None, replacer_ b).
Proof.
  intros H. unfold obtain_frame in H.
  destruct (free_list_ b) as [|f0 rest] eqn:Hfree.
  - apply obind_Ok in H as ([victim r'] & Hev & H).
    destruct victim as [f0|].
    + apply obind_Ok in H as (p0 & Hp & H). by inversion H.
    + inversion H; subst. split_and!; try done.
      by rewrite (Evict_false_unchanged _ _ _ Hev) in Hev.
  - apply obind_Ok in H as (p0 & Hp & H). by inversion H.
Qed.

(** C3.  When the free list is empty, [Evict] hands out frame [f] and the
    page [p] found in that frame is dirty, then obtaining the frame calls
    [WritePage] with [p]'s page id and [p]'s data while the frame array
    still holds [p]; [NewPgImp] makes no other disk call and then binds
    the frame to the new page id; [FetchPgImp] on a page that is not
    resident reads the requested page after that write and then binds the
    frame to it. *)
Theorem dirty_victim_written_before_reuse
  (b : BufferPoolManagerInstance) order (f : Z) (r' : LRUKReplacer) (p : Page) :
  free_list_ b = [] →
  Evict order (replacer_ b) = Ok (Some f, r') →
  page_at b f = Ok p →
  is_dirty_ p = true →
  let written := calls (disk_manager_ b) ++ [WritePage (page_id_ p) (data_ p)] in
  (∃ b1, obtain_frame order b = Ok (Some (f, p), b1) ∧
         calls (disk_manager_ b1) = written ∧
         stored (disk_manager_ b1) = <[page_id_ p := data_ p]> (stored (disk_manager_ b)) ∧
         page_at b1 f = Ok p) ∧
  (∃ b', NewPgImp order b = Ok (Some (next_page_id_ b, f), b') ∧
         calls (disk_manager_ b') = written ∧
         page_at b' f = Ok {| data_ := zero_page; page_id_ := next_page_id_ b;
                              pin_count_ := 1; is_dirty_ := false |}) ∧
  (∀ page_id, page_table_ b !! page_id = None →
     ∃ b' bytes, FetchPgImp order page_id b = Ok (Some f, b') ∧
         calls (disk_manager_ b') = written ++ [ReadPage page_id] ∧
         page_at b' f = Ok {| data_ := bytes; page_id_ := page_id;
                              pin_count_ := 1; is_dirty_ := false |}).
Proof.
  intros Hfree Hev Hp Hdirty written.
  assert (obtain_frame order b =
            Ok (Some (f, p),
                set_page_table (delete (page_id_ p) (page_table_ b))
                  (set_disk (disk_WritePage (page_id_ p) (data_ p) (disk_manager_ b))
                     (set_replacer r' b)))) as Hob.
  { unfold obtain_frame. rewrite Hfree, Hev, bind_Ok, Hp, bind_Ok, Hdirty. done. }
  pose proof Hp as [Hf _]%page_at_Ok.
  split_and!.
  - eexists. split; [exact Hob|]. split_and!; try reflexivity. exact Hp.
  - unfold NewPgImp. rewrite Hob, bind_Ok.
    eexists. split; [reflexivity|]. split; [reflexivity|].
    simpl. eapply (page_at_store_eq (set_next_page_id _ _)). exact Hp.
  - intros page_id Hmiss. unfold FetchPgImp. rewrite Hmiss, Hob, bind_Ok.
    do 2 eexists. split; [reflexivity|]. split; [reflexivity|].
    simpl. rewrite page_at_Ok. split; [done|]. simpl.
    apply list_lookup_insert_eq. apply page_at_Ok in Hp as [_ Hp].
    by eapply lookup_lt_Some.
Qed.

Lemma dirty_victim_written_before_reuse_witness :
  let p := {| data_ := zero_page; page_id_ := 0; pin_count_ := 0; is_dirty_ := true |} in
  let i := {| timestamp := [0]; evictable := true |} in
  let b := {| pool_size_ := 1; pages_ := [p]; page_table_ := {[ 0 := 0 ]};
              free_list_ := [];
              replacer_ := {| frame_table_ := {[ 0 := i ]};
                              current_timestamp_ := 1; curr_size_ := 1;
                              replacer_size_ := 1; k_ := 2 |};
              next_page_id_ := 1;
              disk_manager_ := {| stored := ∅; calls := [] |} |} in
  let r' := {| frame_table_ := ∅; current_timestamp_ := 1; curr_size_ := 0;
               replacer_size_ := 1; k_ := 2 |} in
  (free_list_ b = [] ∧ Evict [(0, i)] (replacer_ b) = Ok (Some 0, r') ∧
   page_at b 0 = Ok p ∧ is_dirty_ p = true) ∧
  (∃ b', NewPgImp [(0, i)] b = Ok (Some (1, 0), b') ∧
         calls (disk_manager_ b') = [WritePage 0 zero_page]) ∧
  (∃ b' bytes, FetchPgImp [(0, i)] 9 b = Ok (Some 0, b') ∧
         calls (disk_manager_ b') = [WritePage 0 zero_page; ReadPage 9] ∧
         page_at b' 0 = Ok {| data_ := bytes; page_id_ := 9;
                              pin_count_ := 1; is_dirty_ := false |}).
Proof.
  intros p i b r'.
  assert (free_list_ b = []) as H1 by reflexivity.
  assert (Evict [(0, i)] (replacer_ b) = Ok (Some 0, r')) as H2 by reflexivity.
  assert (page_at b 0 = Ok p) as H3 by reflexivity.
  assert (is_dirty_ p = true) as H4 by reflexivity.
  destruct (dirty_victim_written_before_reuse b [(0, i)] 0 r' p H1 H2 H3 H4)
    as (_ & (bn & Hn & Hcn & _) & Hfetch).
  destruct (Hfetch 9 eq_refl) as (bf & bytes & Hf & Hcf & Hpf).
  split; [by split_and!|]. split.
  - exists bn. split; [exact Hn | exact Hcn].
  - exists bf, bytes. split_and!; [exact Hf | exact Hcf | exact Hpf].
Defined.

(** ** The pool: every returning call is a transition *)

#[local] Arguments page_at : simpl never.
#[local] Arguments SetEvictable : simpl never.
#[local] Arguments RecordAccess : simpl never.
#[local] Arguments Evict : simpl never.
#[local] Arguments Remove : simpl never.
#[local] Arguments obtain_frame : simpl never.
#[local] Arguments emplace : simpl never.

Lemma page_at_ext b1 b2 g : pages_ b1 = pages_ b2 → page_at b1 g = page_at b2 g.
Proof. unfold page_at. by intros ->. Qed.

Lemma page_at_insert b b' f p q g :
  page_at b f = Ok p → pages_ b' = <[Z.to_nat f := q]> (pages_ b) →
  page_at b' g = if decide (g = f) then Ok q else page_at b g.
Proof.
  intros Hp Hpages. rewrite (page_at_ext b' (store_page f q b)) by done.
  case_decide as Hg.
  - subst g. by eapply page_at_store_eq.
  - apply page_at_Ok in Hp as [Hf _]. by apply page_at_store_ne.
Qed.

(** A store that keeps page id and pin count keeps the bookkeeping. *)
Lemma frame_meta_store b f p q :
  page_at b f = Ok p → frame_meta q = frame_meta p →
  frame_meta <$> pages_ (store_page f q b) = frame_meta <$> pages_ b.
Proof.
  intros [Hf Hp]%page_at_Ok Hq. simpl. rewrite list_fmap_insert, Hq.
  apply list_insert_id. by rewrite list_lookup_fmap, Hp.
Qed.

Lemma FlushAll_loop_quiet order : ∀ b b',
  FlushAll_loop order b = Ok b' →
  frame_meta <$> pages_ b' = frame_meta <$> pages_ b ∧
  page_table_ b' = page_table_ b ∧ free_list_ b' = free_list_ b ∧
  replacer_ b' = replacer_ b.
Proof.
  induction order as [|[page_id f] rest IH]; intros b b' H; cbn [FlushAll_loop] in H.
  - by inversion H.
  - apply obind_Ok in H as (p & Hp & H). apply IH in H as (Hm & Ht & Hfl & Hr).
    split_and!; try done. rewrite Hm.
    by apply (frame_meta_store (set_disk _ b) f p).
Qed.

Lemma run_transition c b b' :
  order_ok c b → run c b = Ok b' → transition b b'.
Proof.
  destruct c as [order|order page_id|page_id is_dirty|page_id|order|page_id];
    cbn [run order_ok]; intros Hok H.
  - (* NewPgImp *)
    apply fmap_Ok in H as ([res b2] & H & ->). cbn [snd]. unfold NewPgImp in H.
    apply obind_Ok in H as ([got b1] & Hob & H).
    destruct got as [[f p]|]; inversion H; subst; clear H.
    + eapply (tr_bind _ _ order f p b1 (next_page_id_ b1)); try done; reflexivity.
    + apply obtain_frame_None in Hob as [-> _]. by apply tr_quiet.
  - (* FetchPgImp *)
    apply fmap_Ok in H as ([res b2] & H & ->). cbn [snd]. unfold FetchPgImp in H.
    destruct (page_table_ b !! page_id) as [f|] eqn:Hres.
    + apply obind_Ok in H as (p & Hp & H).
      destruct (pin_count_ p =? INT32_MAX); [done|]. inversion H; subst; clear H.
      eapply (tr_pin _ _ page_id f p); try done; reflexivity.
    + apply obind_Ok in H as ([got b1] & Hob & H).
      destruct got as [[f p]|]; inversion H; subst; clear H.
      * eapply (tr_bind _ _ order f p b1 page_id); try done; reflexivity.
      * apply obtain_frame_None in Hob as [-> _]. by apply tr_quiet.
  - (* UnpinPgImp *)
    apply fmap_Ok in H as ([res b2] & H & ->). cbn [snd]. unfold UnpinPgImp in H.
    destruct (page_table_ b !! page_id) as [f|] eqn:Hres;
      [|inversion H; by apply tr_quiet].
    apply obind_Ok in H as (p & Hp & H).
    destruct (pin_count_ p <=? 0) eqn:Hle; zbool; [inversion H; by apply tr_quiet|].
    cbn [pin_count_] in H.
    replace (pin_count_ p - 1 =? 0) with (pin_count_ p =? 1) in H
      by (destruct (pin_count_ p =? 1) eqn:E1, (pin_count_ p - 1 =? 0) eqn:E2; zbool; lia).
    destruct (pin_count_ p =? 1) eqn:Hone; inversion H; subst; clear H;
      eapply (tr_unpin _ _ page_id f p); try done; try reflexivity;
      cbn; rewrite Hone; reflexivity.
  - (* FlushPgImp *)
    apply fmap_Ok in H as ([res b2] & H & ->). cbn [snd]. unfold FlushPgImp in H.
    destruct (page_id =? INVALID_PAGE_ID); [inversion H; by apply tr_quiet|].
    destruct (page_table_ b !! page_id) as [f|] eqn:Hres;
      [|inversion H; by apply tr_quiet].
    apply obind_Ok in H as (p & Hp & H). inversion H; subst; clear H.
    apply tr_quiet; try done.
    by apply (frame_meta_store (set_disk _ b) f p).
  - (* FlushAllPgsImp *)
    apply FlushAll_loop_quiet in H as (? & ? & ? & ?). by apply tr_quiet.
  - (* DeletePgImp *)
    apply fmap_Ok in H as ([res b2] & H & ->). cbn [snd]. unfold DeletePgImp in H.
    destruct (page_table_ b !! page_id) as [f|] eqn:Hres;
      [|inversion H; by apply tr_quiet].
    apply obind_Ok in H as (p & Hp & H).
    destruct (0 <? pin_count_ p) eqn:Hpin; zbool; [inversion H; by apply tr_quiet|].
    apply obind_Ok in H as (r' & Hrem & H). inversion H; subst; clear H.
    eapply (tr_delete _ _ page_id f p); try done; reflexivity.
Qed.

(** ** The pool: pinned frames are not evictable *)

Lemma page_at_meta b b' g p' :
  frame_meta <$> pages_ b' = frame_meta <$> pages_ b →
  page_at b' g = Ok p' →
  ∃ p, page_at b g = Ok p ∧ frame_meta p = frame_meta p'.
Proof.
  intros Hm [Hg Hp']%page_at_Ok.
  assert ((frame_meta <$> pages_ b) !! Z.to_nat g = Some (frame_meta p')) as H
    by by rewrite <- Hm, list_lookup_fmap, Hp'.
  rewrite list_lookup_fmap in H. apply fmap_Some in H as (p & Hp & Heq).
  exists p. split; [by apply page_at_Ok|done].
Qed.

(** After [obtain_frame], the records of the other frames are as before. *)
Lemma obtain_frame_others order b f p b1 g :
  enumerates order (replacer_ b) →
  obtain_frame order b = Ok (Some (f, p), b1) → f ≠ g →
  frame_table_ (replacer_ b1) !! g = frame_table_ (replacer_ b) !! g.
Proof.
  intros Hen Hob Hne.
  destruct (obtain_frame_Some _ _ _ _ _ Hen Hob) as (_ & _ & _ & _ & [H | H]).
  - destruct H as (_ & -> & _). done.
  - destruct H as (_ & _ & _ & _ & -> & _). by rewrite lookup_delete_ne.
Qed.

Lemma transition_pinned b b' :
  transition b b' → pinned_not_evictable b → pinned_not_evictable b'.
Proof.
  intros Htr Hinv g p' i' Hp' Hpin Hi'.
  destruct Htr as [Hm Ht Hfl Hr
                  |order f p b1 page_id q Hen Hob Hq Hpages Htab Hrep Hfl
                  |page_id f p q Hres Hp Hq Hpages Htab Hrep Hfl
                  |page_id f p q Hres Hp Hpos Hq Hpages Htab Hrep Hfl
                  |page_id f p q Hres Hp Hle Hq Hpages Htab Hrem Hfl].
  - destruct (page_at_meta _ _ _ _ Hm Hp') as (p & Hp & Heq).
    rewrite Hr in Hi'. apply (Hinv g p i'); try done.
    unfold frame_meta in Heq. inversion Heq. lia.
  - destruct (obtain_frame_Some _ _ _ _ _ Hen Hob) as (Hp & Hpg1 & _).
    rewrite (page_at_insert b1 b' f p q g) in Hp'
      by (by rewrite ?(page_at_ext b1 b)).
    rewrite Hrep in Hi'. case_decide as Hg.
    + subst g. destruct (lookup_touch_eq (replacer_ b1) f) as (i & Hi & He & _).
      congruence.
    + rewrite lookup_touch_ne in Hi' by done.
      rewrite (obtain_frame_others order b f p b1 g) in Hi' by done.
      rewrite (page_at_ext b1 b) in Hp' by done. by apply (Hinv g p' i').
  - rewrite (page_at_insert b b' f p q g) in Hp' by done.
    rewrite Hrep in Hi'. case_decide as Hg.
    + subst g. destruct (lookup_touch_eq (replacer_ b) f) as (i & Hi & He & _).
      congruence.
    + rewrite lookup_touch_ne in Hi' by done. by apply (Hinv g p' i').
  - rewrite (page_at_insert b b' f p q g) in Hp' by done.
    rewrite Hrep in Hi'. case_decide as Hg.
    + subst g. inversion Hp'; subst p'. unfold frame_meta in Hq. inversion Hq.
      destruct (pin_count_ p =? 1) eqn:Hone; zbool; [lia|].
      by apply (Hinv f p i').
    + destruct (pin_count_ p =? 1);
        [rewrite lookup_SetEvictable, decide_False in Hi' by done|];
        by apply (Hinv g p' i').
  - rewrite (page_at_insert b b' f p q g) in Hp' by done.
    apply Remove_Ok in Hrem as (Hdel & _). rewrite Hdel in Hi'.
    case_decide as Hg.
    + subst g. by rewrite lookup_delete_eq in Hi'.
    + rewrite lookup_delete_ne in Hi' by done. by apply (Hinv g p' i').
Qed.

Lemma reachable_pinned pool_size disk k n b :
  reachable_in pool_size disk k n b → pinned_not_evictable b.
Proof.
  induction 1 as [b Hnew | n b c b' Hreach IH Hok Hrun].
  - inversion Hnew; subst. intros f p i _ _ Hi. simpl in Hi.
    by rewrite lookup_empty in Hi.
  - eapply transition_pinned; [|exact IH]. by eapply run_transition.
Qed.

(** C2.  In every state reachable from a freshly constructed pool by
    NewPage, FetchPage, UnpinPage, FlushPage, FlushAllPages and DeletePage
    calls, a frame whose pin count is positive is untracked by the
    replacer or tracked with the evictable flag cleared; so a frame that
    [Evict] returns, in whatever order it enumerates the table, has a pin
    count that is not positive. *)
Theorem pinned_frames_never_evictable pool_size disk k b :
  reachable pool_size disk k b →
  pinned_not_evictable b ∧
  ∀ order f r' p,
    enumerates order (replacer_ b) →
    Evict order (replacer_ b) = Ok (Some f, r') →
    page_at b f = Ok p → pin_count_ p ≤ 0.
Proof.
  intros [n Hreach]. pose proof (reachable_pinned _ _ _ _ _ Hreach) as Hinv.
  split; [done|]. intros order f r' p Hen Hev Hp.
  destruct (Evict_returns_evictable _ _ _ _ Hen Hev) as [(i & Hi & He) _].
  destruct (Z.lt_ge_cases 0 (pin_count_ p)) as [Hpos|Hle]; [|lia].
  rewrite (Hinv f p i Hp Hpos Hi) in He. done.
Qed.

Lemma pinned_frames_never_evictable_witness :
  let disk := {| stored := ∅; calls := [] |} in
  let b := {| pool_size_ := 1;
              pages_ := [{| data_ := zero_page; page_id_ := 0;
                            pin_count_ := 1; is_dirty_ := false |}];
              page_table_ := {[ 0 := 0 ]};
              free_list_ := [];
              replacer_ := {| frame_table_ := {[ 0 := {| timestamp := [0]; evictable := false |} ]};
                              current_timestamp_ := 1; curr_size_ := 0;
                              replacer_size_ := 1; k_ := 2 |};
              next_page_id_ := 1;
              disk_manager_ := disk |} in
  reachable 1 disk 2 b ∧ pinned_not_evictable b.
Proof.
  intros disk b.
  assert (reachable 1 disk 2 b) as Hreach.
  { exists 1%nat. eapply (reach_call 1 disk 2 0 _ (NewPage []) b).
    - apply reach_new. reflexivity.
    - cbn [order_ok]. unfold enumerates. simpl. by rewrite map_to_list_empty.
    - reflexivity. }
  split; [exact Hreach|].
  exact (proj1 (pinned_frames_never_evictable 1 disk 2 b Hreach)).
Defined.

(** ** The pool: the bookkeeping invariant *)

Lemma meta_at_page b f m :
  meta_at b f = Some m ↔ ∃ p, page_at b f = Ok p ∧ frame_meta p = m.
Proof.
  unfold meta_at, page_at. destruct (f <? 0).
  { split; [done|]. by intros (p & H & _). }
  destruct (pages_ b !! Z.to_nat f) as [p|]; simpl.
  - split; [intros H; inversion H; eauto|].
    intros (p' & H & <-). by inversion H.
  - split; [done|]. by intros (p & H & _).
Qed.

Lemma meta_at_ext b b' g :
  frame_meta <$> pages_ b' = frame_meta <$> pages_ b → meta_at b' g = meta_at b g.
Proof.
  intros H. unfold meta_at. destruct (g <? 0); [done|].
  by rewrite <- !list_lookup_fmap, H.
Qed.

Lemma meta_at_insert b b' f q g :
  is_Some (meta_at b f) → pages_ b' = <[Z.to_nat f := q]> (pages_ b) →
  meta_at b' g = if decide (g = f) then Some (frame_meta q) else meta_at b g.
Proof.
  intros [m Hm] Hpages. unfold meta_at in *. rewrite Hpages.
  destruct (f <? 0) eqn:Hf; [done|].
  assert (0 ≤ f) as Hf0 by by apply Z.ltb_ge.
  apply fmap_Some in Hm as (p & Hp & _). apply lookup_lt_Some in Hp.
  case_decide as Hg.
  - subst g. rewrite Hf. by rewrite list_lookup_insert_eq.
  - destruct (g <? 0) eqn:Hg0; [done|].
    assert (0 ≤ g) as Hg1 by by apply Z.ltb_ge.
    by rewrite list_lookup_insert_ne by lia.
Qed.

Lemma table_at_RecordAccess (r : LRUKReplacer) f :
  timestamp (table_at (RecordAccess f r) f) =
    (let pushed := timestamp (table_at r f) ++ [current_timestamp_ r] in
     if k_ r <? Z.of_nat (length pushed) then tail pushed else pushed).
Proof. unfold table_at. rewrite lookup_RecordAccess, decide_True by done. done. Qed.

(** The pair of calls [RecordAccess f; SetEvictable f false] on a replacer
    whose clock is not at its last value. *)
Lemma touch_spec (r : LRUKReplacer) f :
  1 ≤ k_ r → 0 ≤ current_timestamp_ r < SIZE_MAX →
  let r' := SetEvictable f false (RecordAccess f r) in
  current_timestamp_ r' = current_timestamp_ r + 1 ∧
  k_ r' = k_ r ∧ replacer_size_ r' = replacer_size_ r ∧
  (∃ i, frame_table_ r' !! f = Some i ∧ evictable i = false ∧
        timestamp i ≠ [] ∧
        ∀ x, x ∈ timestamp i →
             x = current_timestamp_ r ∨ x ∈ timestamp (table_at r f)) ∧
  (∀ g, f ≠ g → frame_table_ r' !! g = frame_table_ r !! g).
Proof.
  intros Hk Hnow r'. subst r'. split_and!.
  - unfold SetEvictable, RecordAccess. case_match; simpl; by rewrite wrap64_small by lia.
  - unfold SetEvictable, RecordAccess. by case_match.
  - unfold SetEvictable, RecordAccess. by case_match.
  - rewrite lookup_SetEvictable, decide_True by done. eexists.
    split; [reflexivity|]. split; [done|]. cbn [timestamp].
    rewrite table_at_RecordAccess. cbv zeta. set (ts := timestamp (table_at r f)).
    destruct (k_ r <? Z.of_nat (length (ts ++ [current_timestamp_ r]))) eqn:Hlen; zbool.
    + rewrite length_app in Hlen. simpl in Hlen.
      destruct ts as [|y ts]; simpl in *; [lia|]. split.
      * by destruct ts.
      * intros x Hx. apply elem_of_app in Hx as [Hx|Hx%list_elem_of_singleton];
          [right; by right | by left].
    + split; [by destruct ts|].
      intros x Hx. apply elem_of_app in Hx as [Hx|Hx%list_elem_of_singleton];
        [by right | by left].
  - intros g Hne. by apply lookup_touch_ne.
Qed.

Lemma SetEvictable_fields (r : LRUKReplacer) f v :
  current_timestamp_ (SetEvictable f v r) = current_timestamp_ r ∧
  k_ (SetEvictable f v r) = k_ r ∧
  replacer_size_ (SetEvictable f v r) = replacer_size_ r.
Proof. unfold SetEvictable. by case_match. Qed.

Lemma emplace_lookup_Some k v (m : gmap Z Z) k' g :
  emplace k v m !! k' = Some g →
  m !! k' = Some g ∨ (k' = k ∧ g = v ∧ m !! k = None).
Proof.
  unfold emplace. destruct (m !! k) eqn:Hk; [by left|].
  rewrite lookup_insert. case_decide; [|by left].
  intros Heq. inversion Heq; subst. by right.
Qed.

Lemma emplace_lookup_old k v (m : gmap Z Z) k' g :
  m !! k' = Some g → emplace k v m !! k' = Some g.
Proof.
  unfold emplace. intros H. destruct (m !! k) eqn:Hk; [done|].
  rewrite lookup_insert_ne; [done|]. congruence.
Qed.


Lemma touch_fields (r : LRUKReplacer) f :
  k_ (SetEvictable f false (RecordAccess f r)) = k_ r ∧
  replacer_size_ (SetEvictable f false (RecordAccess f r)) = replacer_size_ r.
Proof. unfold SetEvictable, RecordAccess. by case_match. Qed.

Lemma page_at_meta_at b f p :
  page_at b f = Ok p → meta_at b f = Some (page_id_ p, pin_count_ p).
Proof. intros Hp. apply meta_at_page. by exists p. Qed.

(** A quiet transition keeps the invariant. *)
Lemma pool_inv_quiet pool_size b b' :
  frame_meta <$> pages_ b' = frame_meta <$> pages_ b →
  page_table_ b' = page_table_ b → free_list_ b' = free_list_ b →
  replacer_ b' = replacer_ b →
  pool_inv pool_size b → pool_inv pool_size b'.
Proof.
  intros Hm Ht Hfl Hr [[] Hcover].
  assert (∀ g, meta_at b' g = meta_at b g) as Hmeta
    by (intros g; by apply meta_at_ext).
  split; [constructor|].
  all: rewrite ?Hr, ?Ht, ?Hfl; try done.
  - by rewrite <- (length_fmap frame_meta), Hm, length_fmap.
  - by setoid_rewrite Hmeta.
  - by setoid_rewrite Hmeta.
  - by setoid_rewrite Hmeta.
  - by setoid_rewrite Hmeta.
  - by setoid_rewrite Hmeta.
  - unfold available. setoid_rewrite Hmeta. by rewrite Hfl, Hr.
Qed.

(** Taking the front of the free list puts that frame in transit. *)
Lemma popped_in_transit pool_size b b1 f :
  pool_inv pool_size b →
  free_list_ b = f :: free_list_ b1 → pages_ b1 = pages_ b →
  page_table_ b1 = page_table_ b → replacer_ b1 = replacer_ b →
  in_transit pool_size f b1.
Proof.
  intros [[] Hcover] Hfl Hpages Ht Hr.
  assert (∀ g, meta_at b1 g = meta_at b g) as Hmeta
    by (intros g; apply meta_at_ext; by rewrite Hpages).
  rewrite Hfl in pc_free_nodup0. apply NoDup_cons in pc_free_nodup0 as [Hnotin Hnd].
  assert (∀ g, g ∈ free_list_ b1 → g ∈ free_list_ b) as Hsub
    by (intros g Hg; rewrite Hfl; by right).
  destruct (pc_free0 f) as ((page_id & Hmf) & Huntracked & Hnotab);
    [rewrite Hfl; left|].
  split_and!; [constructor|..]; rewrite ?Hr, ?Ht; try done.
  - by rewrite Hpages.
  - by setoid_rewrite Hmeta.
  - by setoid_rewrite Hmeta.
  - by setoid_rewrite Hmeta.
  - by setoid_rewrite Hmeta.
  - setoid_rewrite Hmeta. eauto.
  - intros g page_id' pin Hne Hg. rewrite Hmeta in Hg.
    destruct (Hcover g page_id' pin Hg) as [?|[Hin|He]]; [by left|..].
    + right. left. rewrite Hfl in Hin. apply elem_of_cons in Hin as [?|?]; done.
    + right. right. by rewrite Hr.
  - rewrite Hmeta, Hmf. eauto.
Qed.

(** Removing an evictable frame from the replacer and its page from the
    page table puts that frame in transit. *)
Lemma evicted_in_transit pool_size b b1 f i page_id pin :
  pool_inv pool_size b →
  evictable_frame (replacer_ b) f i → meta_at b f = Some (page_id, pin) →
  pages_ b1 = pages_ b → free_list_ b1 = free_list_ b →
  page_table_ b1 = delete page_id (page_table_ b) →
  frame_table_ (replacer_ b1) = delete f (frame_table_ (replacer_ b)) →
  replacer_size_ (replacer_ b1) = replacer_size_ (replacer_ b) →
  in_transit pool_size f b1.
Proof.
  intros [[] Hcover] [Hi He] Hmf Hpages Hfl Ht Hft Hcap.
  assert (∀ g, meta_at b1 g = meta_at b g) as Hmeta
    by (intros g; apply meta_at_ext; by rewrite Hpages).
  destruct (pc_evictable0 f i (conj Hi He)) as (page_id' & pin' & Hmf' & Hres).
  assert (page_id' = page_id) as -> by congruence. clear Hmf'.
  assert (∀ g j, frame_table_ (replacer_ b1) !! g = Some j →
                 g ≠ f ∧ frame_table_ (replacer_ b) !! g = Some j) as Hold.
  { intros g j. rewrite Hft. by intros [? ?]%lookup_delete_Some. }
  split_and!; [constructor|..]; rewrite ?Hcap, ?Hfl; try done.
  - by rewrite Hpages.
  - intros g j [_ Hg]%Hold. rewrite Hmeta. eauto.
  - by setoid_rewrite Hmeta.
  - intros pid g. rewrite Ht. intros [Hne Hg]%lookup_delete_Some.
    destruct (pc_resident0 pid g Hg) as (pn & j & Hmg & Hj & Hev).
    exists pn, j. rewrite Hmeta, Hft. split_and!; try done.
    rewrite lookup_delete_ne; [done|]. intros ->. congruence.
  - intros g j [[Hne Hg]%Hold Hej].
    destruct (pc_evictable0 g j (conj Hg Hej)) as (pid & pn & Hmg & Hpg).
    exists pid, pn. rewrite Hmeta, Ht. split; [done|].
    rewrite lookup_delete_ne; [done|]. intros ->. congruence.
  - intros g Hg. destruct (pc_free0 g Hg) as (Hm0 & Hun & Hnt).
    setoid_rewrite Hmeta. rewrite Hft, Ht. split_and!; [done| |].
    + apply lookup_delete_None. by right.
    + intros pid [_ ?]%lookup_delete_Some. by eapply Hnt.
  - intros g pid pn Hne Hg. rewrite Hmeta in Hg.
    destruct (Hcover g pid pn Hg) as [?|[Hin|(j & Hj & Hej)]]; [by left|..].
    + right. left. by rewrite Hfl.
    + right. right. exists j. split; [|done]. rewrite Hft.
      by rewrite lookup_delete_ne.
  - rewrite Hmeta, Hmf. eauto.
  - intros Hin. destruct (pc_free0 f Hin) as (_ & Hun & _). congruence.
  - rewrite Hft. apply lookup_delete_eq.
  - intros pid. rewrite Ht. intros [Hne Hg]%lookup_delete_Some.
    destruct (pc_resident0 pid f Hg) as (pn & j & Hmg & _). congruence.
Qed.

(** Binding the frame in transit to a page, pinned once and recorded in
    the replacer, restores the invariant. *)
Lemma bound_inv pool_size b1 b' f q page_id :
  in_transit pool_size f b1 →
  frame_meta q = (page_id, 1) →
  pages_ b' = <[Z.to_nat f := q]> (pages_ b1) →
  page_table_ b' = emplace page_id f (page_table_ b1) →
  replacer_ b' = SetEvictable f false (RecordAccess f (replacer_ b1)) →
  free_list_ b' = free_list_ b1 →
  pool_inv pool_size b'.
Proof.
  intros ([] & Hcover & Hsome & Hnotfree & Huntracked & Hnotab)
         Hq Hpages Htab Hrep Hfl.
  destruct (touch_fields (replacer_ b1) f) as [_ Hcap'].
  destruct (lookup_touch_eq (replacer_ b1) f) as (i & Hi & Hei & _).
  pose proof (lookup_touch_ne (replacer_ b1) f) as Hothers.
  assert (∀ g, meta_at b' g =
               if decide (g = f) then Some (page_id, 1) else meta_at b1 g) as Hmeta
    by (intros g; rewrite <- Hq; by apply meta_at_insert).
  split; [constructor|]; rewrite ?Hrep, ?Hcap', ?Hfl; try done.
  - by rewrite Hpages, length_insert.
  - intros g j Hj. rewrite Hmeta. case_decide as Hg; [done|].
    rewrite Hothers in Hj by done. eauto.
  - intros g pid pin. rewrite Hmeta. case_decide as Hg; [|eauto].
    intros Heq. inversion Heq. lia.
  - intros pid g. rewrite Htab. intros [Hold | (-> & -> & Hnew)]%emplace_lookup_Some.
    + assert (g ≠ f) as Hne by (intros ->; by eapply Hnotab).
      destruct (pc_resident0 pid g Hold) as (pin & j & Hmg & Hj & Hev).
      exists pin, j. rewrite Hmeta, decide_False by done.
      by rewrite Hothers by done.
    + exists 1, i. rewrite Hmeta, decide_True by done. split_and!; [done|done|lia].
  - intros g j [Hj Hej]. destruct (decide (f = g)) as [<-|Hne].
    + rewrite Hi in Hj. inversion Hj; subst j. congruence.
    + rewrite Hothers in Hj by done.
      destruct (pc_evictable0 g j (conj Hj Hej)) as (pid & pin & Hmg & Hpg).
      exists pid, pin. rewrite Hmeta, decide_False by done.
      split; [done|]. rewrite Htab. by apply emplace_lookup_old.
  - intros g Hg. assert (g ≠ f) as Hne by (intros ->; done).
    destruct (pc_free0 g Hg) as (Hm0 & Hun & Hnt).
    rewrite Hmeta, decide_False by done. rewrite Hothers by done.
    split_and!; [done|done|]. intros pid. rewrite Htab.
    intros [Hold | (_ & ? & _)]%emplace_lookup_Some; [by eapply Hnt|done].
  - intros g pid pin. rewrite Hmeta. case_decide as Hg.
    + intros Heq. inversion Heq. left. lia.
    + intros Hmg. destruct (Hcover g pid pin Hg Hmg) as [?|[Hin|(j & Hj & Hej)]];
        [by left|right; left; by rewrite Hfl|].
      right. right. exists j. split; [|done]. rewrite Hrep.
      by rewrite Hothers by done.
Qed.

(** Putting the frame in transit, unpinned, at the back of the free list
    restores the invariant. *)
Lemma freed_inv pool_size b1 b' f q page_id :
  in_transit pool_size f b1 →
  frame_meta q = (page_id, 0) →
  pages_ b' = <[Z.to_nat f := q]> (pages_ b1) →
  page_table_ b' = page_table_ b1 →
  replacer_ b' = replacer_ b1 →
  free_list_ b' = free_list_ b1 ++ [f] →
  pool_inv pool_size b'.
Proof.
  intros ([] & Hcover & Hsome & Hnotfree & Huntracked & Hnotab)
         Hq Hpages Htab Hrep Hfl.
  assert (∀ g, meta_at b' g =
               if decide (g = f) then Some (page_id, 0) else meta_at b1 g) as Hmeta
    by (intros g; rewrite <- Hq; by apply meta_at_insert).
  split; [constructor|]; rewrite ?Hrep, ?Htab, ?Hfl; try done.
  - by rewrite Hpages, length_insert.
  - intros g j Hj. rewrite Hmeta. case_decide; [done|eauto].
  - intros g pid pin. rewrite Hmeta. case_decide as Hg; [|eauto].
    intros Heq. inversion Heq. lia.
  - intros pid g Hg. assert (g ≠ f) as Hne by (intros ->; by eapply Hnotab).
    rewrite Hmeta, decide_False by done. eauto.
  - intros g j [Hj Hej]. assert (g ≠ f) as Hne by (intros ->; congruence).
    rewrite Hmeta, decide_False by done. exact (pc_evictable0 g j (conj Hj Hej)).
  - apply NoDup_app. split_and!; [done| |apply NoDup_singleton].
    intros g Hg ->%list_elem_of_singleton. done.
  - intros g [Hg | ->%list_elem_of_singleton]%elem_of_app.
    + assert (g ≠ f) as Hne by (intros ->; done).
      rewrite Hmeta, decide_False by done. eauto.
    + rewrite Hmeta, decide_True by done. split_and!; eauto.
  - intros g pid pin. rewrite Hmeta. unfold available. rewrite Hfl, Hrep.
    case_decide as Hg.
    + intros _. right. left. subst g. apply elem_of_app. right. left.
    + intros Hmg. destruct (Hcover g pid pin Hg Hmg) as [?|[Hin|?]];
        [by left| |by right; right].
      right. left. apply elem_of_app. by left.
Qed.

(** Pinning a resident frame once more. *)
Lemma pinned_inv pool_size b b' page_id f pid pin q :
  pool_inv pool_size b →
  page_table_ b !! page_id = Some f →
  meta_at b f = Some (pid, pin) →
  frame_meta q = (pid, pin + 1) →
  pages_ b' = <[Z.to_nat f := q]> (pages_ b) →
  page_table_ b' = page_table_ b →
  replacer_ b' = SetEvictable f false (RecordAccess f (replacer_ b)) →
  free_list_ b' = free_list_ b →
  pool_inv pool_size b'.
Proof.
  intros [[] Hcover] Hres Hmf Hq Hpages Htab Hrep Hfl.
  destruct (touch_fields (replacer_ b) f) as [_ Hcap'].
  destruct (lookup_touch_eq (replacer_ b) f) as (i & Hi & Hei & _).
  pose proof (lookup_touch_ne (replacer_ b) f) as Hothers.
  destruct (pc_resident0 page_id f Hres) as (pin0 & i0 & Hmf0 & Hi0 & _).
  assert (pid = page_id ∧ pin0 = pin) as [-> ->] by (split; congruence). clear Hmf0.
  pose proof (pc_pins0 f page_id pin Hmf) as Hpin.
  assert (∀ g, meta_at b' g =
               if decide (g = f) then Some (page_id, pin + 1) else meta_at b g) as Hmeta
    by (intros g; rewrite <- Hq; by apply meta_at_insert).
  split; [constructor|]; rewrite ?Hrep, ?Hcap', ?Hfl, ?Htab; try done.
  - by rewrite Hpages, length_insert.
  - intros g j Hj. rewrite Hmeta. case_decide as Hg; [done|].
    rewrite Hothers in Hj by done. eauto.
  - intros g pid' pin'. rewrite Hmeta. case_decide as Hg; [|eauto].
    intros Heq. inversion Heq. lia.
  - intros pid' g Hg. destruct (pc_resident0 pid' g Hg) as (pin' & j & Hmg & Hj & Hev).
    rewrite Hmeta. case_decide as Heq.
    + subst g. assert (pid' = page_id) as -> by congruence.
      exists (pin + 1), i. split_and!; [done|done|lia].
    + exists pin', j. by rewrite Hothers by done.
  - intros g j [Hj Hej]. destruct (decide (f = g)) as [<-|Hne].
    + rewrite Hi in Hj. inversion Hj; subst j. congruence.
    + rewrite Hothers in Hj by done.
      rewrite Hmeta, decide_False by done. exact (pc_evictable0 g j (conj Hj Hej)).
  - intros g Hg. destruct (pc_free0 g Hg) as (Hm0 & Hun & Hnt).
    assert (g ≠ f) as Hne by (intros ->; by eapply Hnt).
    rewrite Hmeta, decide_False by done. by rewrite Hothers by done.
  - intros g pid' pin'. rewrite Hmeta. unfold available. rewrite Hfl, Hrep.
    case_decide as Hg.
    + intros Heq. inversion Heq. left. lia.
    + intros Hmg. destruct (Hcover g pid' pin' Hmg) as [?|[Hin|(j & Hj & Hej)]];
        [by left|by right; left|].
      right. right. exists j. split; [|done]. by rewrite Hothers by done.
Qed.

(** What unpinning does to the replacer's table, the frame being tracked. *)
Lemma unpin_lookup (r r' : LRUKReplacer) f i0 pin g :
  frame_table_ r !! f = Some i0 →
  r' = (if pin =? 1 then SetEvictable f true r else r) →
  frame_table_ r' !! g =
    if decide (f = g)
    then Some {| timestamp := timestamp i0;
                 evictable := if pin =? 1 then true else evictable i0 |}
    else frame_table_ r !! g.
Proof.
  intros Hi0 ->. destruct (pin =? 1).
  - rewrite lookup_SetEvictable. unfold table_at. by rewrite Hi0.
  - case_decide; [|done]. subst g. rewrite Hi0. by destruct i0.
Qed.

(** Unpinning a resident frame that is pinned. *)
Lemma unpinned_inv pool_size b b' page_id f pid pin q :
  pool_inv pool_size b →
  page_table_ b !! page_id = Some f →
  meta_at b f = Some (pid, pin) →
  0 < pin →
  frame_meta q = (pid, pin - 1) →
  pages_ b' = <[Z.to_nat f := q]> (pages_ b) →
  page_table_ b' = page_table_ b →
  replacer_ b' = (if pin =? 1 then SetEvictable f true (replacer_ b)
                  else replacer_ b) →
  free_list_ b' = free_list_ b →
  pool_inv pool_size b'.
Proof.
  intros [[] Hcover] Hres Hmf Hpos Hq Hpages Htab Hrep Hfl.
  destruct (pc_resident0 page_id f Hres) as (pin0 & i0 & Hmf0 & Hi0 & _).
  assert (pid = page_id ∧ pin0 = pin) as [-> ->] by (split; congruence). clear Hmf0.
  assert (∀ g, meta_at b' g =
               if decide (g = f) then Some (page_id, pin - 1) else meta_at b g) as Hmeta
    by (intros g; rewrite <- Hq; by apply meta_at_insert).
  assert (replacer_size_ (replacer_ b') = replacer_size_ (replacer_ b)) as Hc1.
  { rewrite Hrep. destruct (pin =? 1); [|done].
    by destruct (SetEvictable_fields (replacer_ b) f true) as (_ & _ & ?). }
  pose proof (λ g, unpin_lookup (replacer_ b) (replacer_ b') f i0 pin g Hi0 Hrep) as Hlook.
  split; [constructor|]; rewrite ?Hc1, ?Hfl, ?Htab; try done.
  - by rewrite Hpages, length_insert.
  - intros g j. rewrite Hlook, Hmeta. case_decide as Hg.
    + subst g. by rewrite decide_True by done.
    + rewrite decide_False by done. eauto.
  - intros g pid' pin'. rewrite Hmeta. case_decide as Hg; [|eauto].
    intros Heq. inversion Heq. lia.
  - intros pid' g Hg. destruct (pc_resident0 pid' g Hg) as (pin' & j & Hmg & Hj & Hev).
    rewrite Hmeta, Hlook. case_decide as Heq.
    + subst g. rewrite decide_True by done.
      assert (pid' = page_id) as -> by congruence.
      eexists _, _. split_and!; [done|done|]. simpl. intros Hz.
      destruct (pin =? 1) eqn:Hone; zbool; [done|lia].
    + rewrite decide_False by done. eauto.
  - intros g j [Hj Hej]. rewrite Hlook in Hj. rewrite Hmeta.
    destruct (decide (f = g)) as [<-|Hne].
    + rewrite decide_True by done. eauto.
    + rewrite decide_False by done. exact (pc_evictable0 g j (conj Hj Hej)).
  - intros g Hg. destruct (pc_free0 g Hg) as (Hm0 & Hun & Hnt).
    assert (g ≠ f) as Hne by (intros ->; by eapply Hnt).
    rewrite Hmeta, Hlook, decide_False by done. by rewrite decide_False by done.
  - intros g pid' pin'. rewrite Hmeta. unfold available. rewrite Hfl.
    case_decide as Hg.
    + intros Heq. inversion Heq. destruct (decide (pin = 1)) as [->|Hne].
      * right. right. eexists.
        split; [rewrite Hlook, decide_True by done|]; reflexivity.
      * left. lia.
    + intros Hmg. destruct (Hcover g pid' pin' Hmg) as [?|[Hin|(j & Hj & Hej)]];
        [by left|by right; left|].
      right. right. exists j. split; [|done].
      by rewrite Hlook, decide_False by done.
Qed.

(** Every transition keeps the invariant. *)
Lemma transition_inv pool_size b b' :
  pool_inv pool_size b → transition b b' → pool_inv pool_size b'.
Proof.
  intros Hinv Htr.
  destruct Htr as [Hm Ht Hfl Hr
                  |order f p b1 page_id q Hen Hob Hq Hpages Htab Hrep Hfl
                  |page_id f p q Hres Hp Hq Hpages Htab Hrep Hfl
                  |page_id f p q Hres Hp Hpos Hq Hpages Htab Hrep Hfl
                  |page_id f p q Hres Hp Hle Hq Hpages Htab Hrem Hfl].
  - by eapply pool_inv_quiet.
  - destruct (obtain_frame_Some _ _ _ _ _ Hen Hob)
      as (Hp & Hpg1 & _ & _ & [(Hfree & Hr1 & Ht1 & _) | Hev]).
    + eapply bound_inv; try done. by eapply popped_in_transit.
    + destruct Hev as (Hfree0 & Hfree1 & (i & Hi) & _ & Hft & _ & _ & Hcap & Ht1 & _).
      eapply bound_inv; try done.
      eapply (evicted_in_transit _ b b1 f i); try done;
        [by apply page_at_meta_at | congruence].
  - eapply (pinned_inv _ b b' page_id f); try done.
    by apply page_at_meta_at.
  - eapply (unpinned_inv _ b b' page_id f); try done.
    by apply page_at_meta_at.
  - pose proof Hinv as [Hcore _].
    destruct (pc_resident _ _ Hcore page_id f Hres) as (pin & i & Hmf & Hi & Hev).
    pose proof (page_at_meta_at _ _ _ Hp) as Hmf'.
    assert (page_id_ p = page_id ∧ pin_count_ p = pin) as [Hpid Hpin]
      by (split; congruence).
    pose proof (pc_pins _ _ Hcore f page_id pin Hmf) as Hnn.
    assert (pin = 0) as -> by lia.
    apply Remove_Ok in Hrem as (Hft & _ & _ & Hcap).
    eapply (freed_inv _
              (set_replacer (replacer_ b') (set_page_table (page_table_ b') b))
              b' f q INVALID_PAGE_ID); try done.
    + eapply (evicted_in_transit _ b _ f i page_id 0); try done.
      split; [done|]. by apply Hev.
    + by rewrite Hq, Hpin.
Qed.

(** The constructor establishes the invariant. *)
Lemma constructor_inv pool_size disk k b :
  pool_size ≤ INT32_MAX →
  BufferPoolManagerInstance_new pool_size disk k = Ok b →
  pool_inv pool_size b.
Proof.
  intros Hsize Hnew. inversion Hnew; subst b; clear Hnew.
  set (N := Z.to_nat pool_size).
  assert ((λ i : nat, cast32 (Z.of_nat i)) <$> seq 0 N = Z.of_nat <$> seq 0 N) as Hfree.
  { apply list_fmap_ext. intros _ i Hi%list_elem_of_lookup_2%elem_of_seq.
    apply cast32_small. unfold is_int32, INT32_MAX in *. lia. }
  assert (∀ f m, meta_at
            {| pool_size_ := pool_size; pages_ := replicate N Page_new;
               page_table_ := ∅; free_list_ := Z.of_nat <$> seq 0 N;
               replacer_ := LRUKReplacer_new pool_size k; next_page_id_ := 0;
               disk_manager_ := disk |} f = Some m ↔
          m = (INVALID_PAGE_ID, 0) ∧ 0 ≤ f ∧ (Z.to_nat f < N)%nat) as Hmeta.
  { intros f m. unfold meta_at. simpl. destruct (f <? 0) eqn:Hf.
    - split; [done|]. intros (_ & Hf0 & _). apply Z.ltb_lt in Hf. lia.
    - apply Z.ltb_ge in Hf. rewrite fmap_Some. split.
      + intros (p & [-> Hlt]%lookup_replicate & ->). done.
      + intros (-> & _ & Hlt). exists Page_new. split; [|done].
        by apply lookup_replicate_2. }
  rewrite Hfree. split; [constructor|]; simpl; try done.
  - apply length_replicate.
  - intros f page_id pin [Heq _]%Hmeta. inversion Heq. lia.
  - intros f i [Hi _]. done.
  - apply NoDup_fmap; [apply Nat2Z.inj' | apply NoDup_seq].
  - intros f (i & -> & Hi%elem_of_seq)%list_elem_of_fmap. split_and!; [|done|done].
    exists INVALID_PAGE_ID. apply Hmeta. split_and!; [done|lia|].
    rewrite Nat2Z.id. lia.
  - intros f page_id pin (_ & Hf & Hlt)%Hmeta. right. left. simpl.
    apply list_elem_of_fmap. exists (Z.to_nat f). split; [lia|].
    apply elem_of_seq. lia.
Qed.

(** The invariant holds in every reachable state of a pool whose frame
    ids fit [frame_id_t]. *)
Lemma reachable_inv pool_size disk k n b :
  pool_size ≤ INT32_MAX →
  reachable_in pool_size disk k n b → pool_inv pool_size b.
Proof.
  intros Hsize Hreach.
  induction Hreach as [b Hnew | n b c b' Hreach IH Hok Hrun].
  - by eapply constructor_inv.
  - eapply transition_inv; [exact IH|by eapply run_transition].
Qed.

(** ** The pool: the replacer's clock *)

Lemma clock_mono k n r : clock_inv k n r → clock_inv k (S n) r.
Proof. intros []. constructor; try done. lia. Qed.

Lemma clock_touch k n r f :
  1 ≤ k → Z.of_nat n < SIZE_MAX →
  clock_inv k n r → clock_inv k (S n) (SetEvictable f false (RecordAccess f r)).
Proof.
  intros Hk Hn [].
  destruct (touch_spec r f) as (Hnow' & Hk' & _ & Hrec & Hothers); [lia|lia|].
  destruct Hrec as (i & Hi & _ & Hine & Hxs).
  assert (∀ x, x ∈ timestamp (table_at r f) → 0 ≤ x < current_timestamp_ r) as Hold.
  { unfold table_at. destruct (frame_table_ r !! f) as [i0|] eqn:Hi0; simpl.
    - intros x Hx. by eapply ck_past0.
    - intros x Hx. inversion Hx. }
  constructor; rewrite ?Hnow', ?Hk'; try done.
  - lia.
  - intros g j x Hj Hx. destruct (decide (f = g)) as [<-|Hne].
    + rewrite Hi in Hj. inversion Hj; subst j.
      destruct (Hxs x Hx) as [->|Hin]; [lia|]. specialize (Hold x Hin). lia.
    + rewrite Hothers in Hj by done. specialize (ck_past0 g j x Hj Hx). lia.
  - intros g j Hj. destruct (decide (f = g)) as [<-|Hne].
    + rewrite Hi in Hj. by inversion Hj; subst j.
    + rewrite Hothers in Hj by done. eauto.
Qed.

Lemma clock_delete k n r r' f :
  clock_inv k n r →
  frame_table_ r' = delete f (frame_table_ r) →
  current_timestamp_ r' = current_timestamp_ r → k_ r' = k_ r →
  clock_inv k n r'.
Proof.
  intros [] Hft Hnow Hk. constructor; rewrite ?Hnow, ?Hk, ?Hft; try done.
  - intros g j x [_ Hj]%lookup_delete_Some. eauto.
  - intros g j [_ Hj]%lookup_delete_Some. eauto.
Qed.

Lemma transition_clock pool_size k n b b' :
  1 ≤ k → Z.of_nat n < SIZE_MAX →
  pool_inv pool_size b → clock_inv k n (replacer_ b) →
  transition b b' → clock_inv k (S n) (replacer_ b').
Proof.
  intros Hk Hn Hinv Hclock Htr.
  destruct Htr as [Hm Ht Hfl Hr
                  |order f p b1 page_id q Hen Hob Hq Hpages Htab Hrep Hfl
                  |page_id f p q Hres Hp Hq Hpages Htab Hrep Hfl
                  |page_id f p q Hres Hp Hpos Hq Hpages Htab Hrep Hfl
                  |page_id f p q Hres Hp Hle Hq Hpages Htab Hrem Hfl].
  - rewrite Hr. by apply clock_mono.
  - rewrite Hrep. apply clock_touch; [done|done|].
    destruct (obtain_frame_Some _ _ _ _ _ Hen Hob)
      as (_ & _ & _ & _ & [(_ & -> & _) | Hev]); [done|].
    destruct Hev as (_ & _ & _ & _ & Hft & Hnow & Hk1 & _).
    by eapply clock_delete.
  - rewrite Hrep. by apply clock_touch.
  - apply clock_mono. destruct Hinv as [Hcore _].
    destruct (pc_resident _ _ Hcore page_id f Hres) as (pin & i0 & _ & Hi0 & _).
    pose proof (λ g, unpin_lookup (replacer_ b) (replacer_ b') f i0 _ g Hi0 Hrep) as Hlook.
    assert (current_timestamp_ (replacer_ b') = current_timestamp_ (replacer_ b) ∧
            k_ (replacer_ b') = k_ (replacer_ b)) as [Hn1 Hk1].
    { rewrite Hrep. destruct (pin_count_ p =? 1); [|done].
      by destruct (SetEvictable_fields (replacer_ b) f true) as (? & ? & _). }
    destruct Hclock. constructor; rewrite ?Hn1, ?Hk1; try done.
    + intros g j x. rewrite Hlook. case_decide as Hg; [|eauto].
      intros Hj Hx. inversion Hj; subst j. simpl in Hx. eauto.
    + intros g j. rewrite Hlook. case_decide as Hg; [|eauto].
      intros Hj. inversion Hj; subst j. simpl. eauto.
  - apply clock_mono. apply Remove_Ok in Hrem as (Hft & Hnow & Hk1 & _).
    by eapply clock_delete.
Qed.

Lemma reachable_clock pool_size disk k n b :
  1 ≤ k → pool_size ≤ INT32_MAX → Z.of_nat n ≤ SIZE_MAX →
  reachable_in pool_size disk k n b → clock_inv k n (replacer_ b).
Proof.
  intros Hk Hsize Hn Hreach.
  induction Hreach as [b Hnew | n b c b' Hreach IH Hok Hrun].
  - inversion Hnew; subst b. constructor; simpl; try done.
  - eapply transition_clock; [done|lia| |apply IH; lia|by eapply run_transition].
    by eapply reachable_inv.
Qed.

(** ** The pool: [DeletePgImp] *)

(** A frame that holds a page lies inside the capacity of the replacer. *)
Lemma resident_in_capacity pool_size b f m :
  pool_size ≤ INT32_MAX → pool_core pool_size b → meta_at b f = Some m →
  (f <? cast32 (replacer_size_ (replacer_ b))) = true.
Proof.
  intros Hsize Hcore Hm. rewrite (pc_cap _ _ Hcore).
  unfold meta_at in Hm. destruct (f <? 0) eqn:Hf; [done|]. apply Z.ltb_ge in Hf.
  apply fmap_Some in Hm as (p & Hp%lookup_lt_Some & _).
  rewrite (pc_frames _ _ Hcore) in Hp.
  rewrite cast32_small by (unfold is_int32, INT32_MAX in *; lia).
  apply Z.ltb_lt. lia.
Qed.

(** C6.  In every reachable state of a pool whose size fits the frame-id
    type: [DeletePgImp] returns true and changes nothing when the page is
    not resident; when it is resident in frame [f], it returns false and
    changes nothing if the frame is pinned; otherwise (the pin count is
    zero) it returns true, [f] is appended to the free list, the
    page-table entry is erased, [Remove] takes [f] out of the replacer
    (without failing an assertion), the frame holds zeroed data, a clear
    dirty flag and the sentinel page id, the other frames are unchanged,
    and the disk receives [DeallocatePage page_id] and nothing else. *)
Theorem DeletePgImp_effect pool_size disk k b page_id :
  pool_size ≤ INT32_MAX →
  reachable pool_size disk k b →
  (page_table_ b !! page_id = None → DeletePgImp page_id b = Ok (true, b)) ∧
  (∀ f, page_table_ b !! page_id = Some f →
     ∃ p, page_at b f = Ok p ∧ 0 ≤ pin_count_ p ∧
       (0 < pin_count_ p → DeletePgImp page_id b = Ok (false, b)) ∧
       (pin_count_ p = 0 →
        ∃ b', DeletePgImp page_id b = Ok (true, b') ∧
          free_list_ b' = free_list_ b ++ [f] ∧
          page_table_ b' = delete page_id (page_table_ b) ∧
          Remove f (replacer_ b) = Ok (replacer_ b') ∧
          frame_table_ (replacer_ b') = delete f (frame_table_ (replacer_ b)) ∧
          page_at b' f = Ok {| data_ := zero_page; page_id_ := INVALID_PAGE_ID;
                               pin_count_ := 0; is_dirty_ := false |} ∧
          (∀ g, g ≠ f → page_at b' g = page_at b g) ∧
          calls (disk_manager_ b') =
            calls (disk_manager_ b) ++ [DeallocatePage page_id] ∧
          stored (disk_manager_ b') = stored (disk_manager_ b) ∧
          next_page_id_ b' = next_page_id_ b ∧
          pool_size_ b' = pool_size_ b)).
Proof.
  intros Hsize [n Hreach].
  pose proof (reachable_inv _ _ _ _ _ Hsize Hreach) as [Hcore _].
  split.
  - intros Hnone. unfold DeletePgImp. by rewrite Hnone.
  - intros f Hres.
    destruct (pc_resident _ _ Hcore page_id f Hres) as (pin & i & Hmf & Hi & Hev).
    pose proof Hmf as (p & Hp & Hmeta)%meta_at_page.
    assert (page_id_ p = page_id ∧ pin_count_ p = pin) as [Hpid Hpin]
      by (unfold frame_meta in Hmeta; split; congruence).
    exists p. split; [done|].
    split; [rewrite Hpin; by eapply (pc_pins _ _ Hcore)|].
    unfold DeletePgImp. rewrite Hres, Hp, bind_Ok. split.
    + intros Hpos. destruct (0 <? pin_count_ p) eqn:E; zbool; [done|lia].
    + intros Hzero. destruct (0 <? pin_count_ p) eqn:E; zbool; [lia|].
      assert (Remove f (replacer_ b) =
                Ok {| frame_table_ := delete f (frame_table_ (replacer_ b));
                      current_timestamp_ := current_timestamp_ (replacer_ b);
                      curr_size_ := wrap64 (curr_size_ (replacer_ b) - 1);
                      replacer_size_ := replacer_size_ (replacer_ b);
                      k_ := k_ (replacer_ b) |}) as Hrem.
      { unfold Remove. rewrite (resident_in_capacity _ _ _ _ Hsize Hcore Hmf), Hi.
        rewrite Hev by lia. done. }
      cbn [replacer_ set_page_table set_free_list]. rewrite Hrem, bind_Ok.
      eexists. split; [reflexivity|].
      pose proof Hp as [Hf _]%page_at_Ok.
      split_and!; try reflexivity; try done.
      * rewrite Hzero. by eapply (page_at_store_eq (set_replacer _ (set_page_table _ (set_free_list _ b)))).
      * intros g Hg. by rewrite (page_at_ext _ (store_page f
           {| data_ := zero_page; page_id_ := INVALID_PAGE_ID;
              pin_count_ := pin_count_ p; is_dirty_ := false |} b)),
           page_at_store_ne.
Qed.

Lemma DeletePgImp_effect_witness :
  let disk := {| stored := ∅; calls := [] |} in
  let b := {| pool_size_ := 1;
              pages_ := [{| data_ := zero_page; page_id_ := 0;
                            pin_count_ := 0; is_dirty_ := false |}];
              page_table_ := {[ 0 := 0 ]};
              free_list_ := [];
              replacer_ := {| frame_table_ := {[ 0 := {| timestamp := [0]; evictable := true |} ]};
                              current_timestamp_ := 1; curr_size_ := 1;
                              replacer_size_ := 1; k_ := 2 |};
              next_page_id_ := 1;
              disk_manager_ := disk |} in
  (1 ≤ INT32_MAX ∧ reachable 1 disk 2 b) ∧
  DeletePgImp 5 b = Ok (true, b) ∧
  ∃ b', DeletePgImp 0 b = Ok (true, b') ∧ free_list_ b' = [0] ∧
        page_table_ b' !! 0 = None ∧
        calls (disk_manager_ b') = [DeallocatePage 0].
Proof.
  intros disk b.
  assert (1 ≤ INT32_MAX) as Hsize by (unfold INT32_MAX; lia).
  assert (reachable 1 disk 2 b) as Hreach.
  { exists 2%nat.
    eapply (reach_call 1 disk 2 1 _ (UnpinPage 0 false) b);
      [eapply (reach_call 1 disk 2 0 _ (NewPage []));
         [apply reach_new; reflexivity | | reflexivity]
      | exact I | reflexivity].
    cbn [order_ok]. unfold enumerates. simpl. by rewrite map_to_list_empty. }
  destruct (DeletePgImp_effect 1 disk 2 b 5 Hsize Hreach) as [Hmiss _].
  destruct (DeletePgImp_effect 1 disk 2 b 0 Hsize Hreach) as [_ Hhit].
  destruct (Hhit 0 eq_refl) as (p & Hp & _ & _ & Hdel).
  assert (pin_count_ p = 0) as Hzero by (inversion Hp; reflexivity).
  destruct (Hdel Hzero) as (b' & Hrun & Hfl & Htab & _ & _ & _ & _ & Hcalls & _).
  split; [by split|]. split; [by apply Hmiss|].
  exists b'. split_and!; [exact Hrun | exact Hfl | | exact Hcalls].
  rewrite Htab. apply lookup_delete_eq.
Defined.

(** ** The pool: exhaustion *)

(** Either some tracked frame is evictable or none is. *)
Lemma evictable_or_none (r : LRUKReplacer) :
  (∃ f i, evictable_frame r f i) ∨
  (∀ f i, frame_table_ r !! f = Some i → evictable i = false).
Proof.
  destruct (decide (map_Exists (λ _ i, evictable i = true) (frame_table_ r)))
    as [(f & i & Hi & He) | Hnone].
  - left. by exists f, i.
  - right. intros f i Hi. destruct (evictable i) eqn:He; [|done].
    exfalso. apply Hnone. by exists f, i.
Qed.

(** The replacer of a reachable pool can be scanned, within the life of
    its clock. *)
Lemma reachable_scannable pool_size disk k n b :
  1 ≤ k → pool_size ≤ INT32_MAX → Z.of_nat n < SIZE_MAX →
  reachable_in pool_size disk k n b → scannable (replacer_ b).
Proof.
  intros Hk Hsize Hn Hreach.
  pose proof (reachable_inv _ _ _ _ _ Hsize Hreach) as [Hcore _].
  destruct (reachable_clock _ _ _ _ _ Hk Hsize (Z.lt_le_incl _ _ Hn) Hreach).
  constructor; try done.
  - lia.
  - lia.
  - intros f i Hi. destruct (pc_tracked _ _ Hcore f i Hi) as [m Hm].
    unfold meta_at in Hm. destruct (f <? 0) eqn:Hf; [done|].
    apply Z.ltb_ge in Hf. unfold INVALID_FRAME_ID. lia.
  - intros f i [Hi _]. eauto.
Qed.

(** In a reachable pool, exhaustion is the same as every frame pinned. *)
Lemma exhausted_all_pinned pool_size disk k n b :
  pool_size ≤ INT32_MAX → reachable_in pool_size disk k n b →
  exhausted b ↔ all_pinned b.
Proof.
  intros Hsize Hreach.
  pose proof (reachable_inv _ _ _ _ _ Hsize Hreach) as [Hcore Hcover].
  pose proof (reachable_pinned _ _ _ _ _ Hreach) as Hpinned.
  split.
  - intros [Hfree Hnone] f p Hp.
    destruct (Hcover f _ _ (page_at_meta_at _ _ _ Hp)) as [?|[Hin|(i & Hi & He)]];
      [done|..].
    + rewrite Hfree in Hin. inversion Hin.
    + rewrite (Hnone f i Hi) in He. done.
  - intros Hall. split.
    + destruct (free_list_ b) as [|f rest] eqn:Hfree; [done|].
      destruct (pc_free _ _ Hcore f) as ((pid & Hm) & _); [rewrite Hfree; left|].
      apply meta_at_page in Hm as (p & Hp & Hmeta).
      specialize (Hall f p Hp). unfold frame_meta in Hmeta.
      inversion Hmeta. lia.
    + intros f i Hi. destruct (pc_tracked _ _ Hcore f i Hi) as [m Hm].
      apply meta_at_page in Hm as (p & Hp & _). eauto.
Qed.

(** When the pool is exhausted, no frame can be obtained. *)
Lemma obtain_frame_exhausted order b :
  enumerates order (replacer_ b) → exhausted b →
  obtain_frame order b = Ok (None, b).
Proof.
  intros Hen [Hfree Hnone]. unfold obtain_frame.
  by rewrite Hfree, (Evict_nothing_evictable _ _ Hen Hnone).
Qed.

(** When a reachable pool is not exhausted, a frame is obtained. *)
Lemma obtain_frame_available pool_size disk k n b order :
  1 ≤ k → pool_size ≤ INT32_MAX → Z.of_nat n < SIZE_MAX →
  reachable_in pool_size disk k n b →
  enumerates order (replacer_ b) → ¬ exhausted b →
  ∃ f p b1, obtain_frame order b = Ok (Some (f, p), b1).
Proof.
  intros Hk Hsize Hn Hreach Hen Hnot.
  pose proof (reachable_inv _ _ _ _ _ Hsize Hreach) as [Hcore _].
  unfold obtain_frame. destruct (free_list_ b) as [|f rest] eqn:Hfree.
  - destruct (evictable_or_none (replacer_ b)) as [Hsome | Hnone];
      [|exfalso; by apply Hnot].
    destruct (Evict_selects _ order (reachable_scannable _ _ _ _ _ Hk Hsize Hn Hreach)
                Hen Hsome) as (f & r' & (i & [Hi _] & _) & -> & _).
    destruct (pc_tracked _ _ Hcore f i Hi) as [m (p & Hp & _)%meta_at_page].
    rewrite bind_Ok, Hp, bind_Ok. eauto.
  - destruct (pc_free _ _ Hcore f) as ((pid & (p & Hp & _)%meta_at_page) & _);
      [rewrite Hfree; left|].
    rewrite Hp, bind_Ok. eauto.
Qed.

(** The first [NewPgImp] on a pool of one frame takes frame 0 from the
    free list, whatever [k] is. *)
Lemma first_NewPgImp_pool_of_one disk k order :
  ∃ b0 b1, BufferPoolManagerInstance_new 1 disk k = Ok b0 ∧
           NewPgImp order b0 = Ok (Some (0, 0), b1) ∧
           free_list_ b1 = [] ∧
           replacer_ b1 = SetEvictable 0 false (RecordAccess 0 (LRUKReplacer_new 1 k)).
Proof. do 2 eexists. split_and!; reflexivity. Qed.

Lemma touched_alone_not_evictable k g i :
  frame_table_ (SetEvictable 0 false (RecordAccess 0 (LRUKReplacer_new 1 k))) !! g = Some i →
  evictable i = false.
Proof.
  destruct (decide (0 = g)) as [<-|Hne].
  - destruct (lookup_touch_eq (LRUKReplacer_new 1 k) 0) as (j & Hj & He & _).
    rewrite Hj. by intros [= <-].
  - rewrite lookup_touch_ne by done. simpl. by rewrite lookup_empty.
Qed.

(** C4.  In a state reached by [n] calls on a pool built with [k ≥ 1]
    and a size that fits the frame-id type, [n] being within the life of
    the replacer's 64-bit clock: the pool is exhausted (free list empty
    and no evictable frame) exactly when every frame is pinned; if it is
    exhausted, [NewPgImp], and [FetchPgImp] of a page that is not
    resident, return null and change nothing; if it is not, both return a
    frame.  And on a pool of one frame, for any [k], a first [NewPgImp]
    returns a frame and a second one right after it returns null. *)
Theorem null_exactly_when_exhausted :
  (∀ pool_size disk k n b order,
     1 ≤ k → pool_size ≤ INT32_MAX → Z.of_nat n < SIZE_MAX →
     reachable_in pool_size disk k n b →
     enumerates order (replacer_ b) →
     (exhausted b ↔ all_pinned b) ∧
     (exhausted b →
        NewPgImp order b = Ok (None, b) ∧
        ∀ page_id, page_table_ b !! page_id = None →
                   FetchPgImp order page_id b = Ok (None, b)) ∧
     (¬ exhausted b →
        (∃ page_id f b', NewPgImp order b = Ok (Some (page_id, f), b')) ∧
        ∀ page_id, page_table_ b !! page_id = None →
                   ∃ f b', FetchPgImp order page_id b = Ok (Some f, b'))) ∧
  (∀ disk k b0 order1 order2 res b1,
     BufferPoolManagerInstance_new 1 disk k = Ok b0 →
     NewPgImp order1 b0 = Ok (res, b1) →
     enumerates order2 (replacer_ b1) →
     is_Some res ∧ NewPgImp order2 b1 = Ok (None, b1)).
Proof.
  split.
  - intros pool_size disk k n b order Hk Hsize Hn Hreach Hen.
    split; [by eapply exhausted_all_pinned|]. split.
    + intros Hex. pose proof (obtain_frame_exhausted _ _ Hen Hex) as Hob.
      split.
      * unfold NewPgImp. by rewrite Hob.
      * intros page_id Hmiss. unfold FetchPgImp. by rewrite Hmiss, Hob.
    + intros Hnot.
      destruct (obtain_frame_available _ _ _ _ _ _ Hk Hsize Hn Hreach Hen Hnot)
        as (f & p & b1 & Hob).
      split.
      * unfold NewPgImp. rewrite Hob, bind_Ok. eauto.
      * intros page_id Hmiss. unfold FetchPgImp. rewrite Hmiss, Hob, bind_Ok.
        destruct (disk_ReadPage page_id (disk_manager_ b1)). eauto.
  - intros disk k b0 order1 order2 res b1 Hnew Hfirst Hen.
    destruct (first_NewPgImp_pool_of_one disk k order1)
      as (b0' & b1' & Hnew' & Hfirst' & Hfree & Hrep).
    assert (b0' = b0) as -> by congruence.
    rewrite Hfirst' in Hfirst. inversion Hfirst; subst res b1'. split; [done|].
    assert (exhausted b1) as Hex.
    { split; [done|]. rewrite Hrep. intros g i. apply touched_alone_not_evictable. }
    unfold NewPgImp. by rewrite (obtain_frame_exhausted _ _ Hen Hex).
Qed.

Lemma null_exactly_when_exhausted_witness :
  let disk := {| stored := ∅; calls := [] |} in
  let i := {| timestamp := [0]; evictable := false |} in
  let b := {| pool_size_ := 1;
              pages_ := [{| data_ := zero_page; page_id_ := 0;
                            pin_count_ := 1; is_dirty_ := false |}];
              page_table_ := {[ 0 := 0 ]};
              free_list_ := [];
              replacer_ := {| frame_table_ := {[ 0 := i ]};
                              current_timestamp_ := 1; curr_size_ := 0;
                              replacer_size_ := 1; k_ := 2 |};
              next_page_id_ := 1;
              disk_manager_ := disk |} in
  (1 ≤ 2 ∧ 1 ≤ INT32_MAX ∧ Z.of_nat 1 < SIZE_MAX ∧
   reachable_in 1 disk 2 1 b ∧ enumerates [(0, i)] (replacer_ b) ∧ exhausted b) ∧
  all_pinned b ∧ NewPgImp [(0, i)] b = Ok (None, b).
Proof.
  intros disk i b.
  assert (1 ≤ 2) as Hk by lia.
  assert (1 ≤ INT32_MAX) as Hsize by (unfold INT32_MAX; lia).
  assert (Z.of_nat 1 < SIZE_MAX) as Hn by (unfold SIZE_MAX; simpl; lia).
  assert (reachable_in 1 disk 2 1 b) as Hreach.
  { eapply (reach_call 1 disk 2 0 _ (NewPage []));
      [apply reach_new; reflexivity | | reflexivity].
    cbn [order_ok]. unfold enumerates. simpl. by rewrite map_to_list_empty. }
  assert (enumerates [(0, i)] (replacer_ b)) as Hen.
  { unfold enumerates. simpl. by rewrite map_to_list_singleton. }
  assert (exhausted b) as Hex.
  { split; [reflexivity|]. intros f j. simpl. intros Hj.
    apply lookup_singleton_Some in Hj as [_ <-]. reflexivity. }
  destruct null_exactly_when_exhausted as [Hgen _].
  destruct (Hgen 1 disk 2 1%nat b [(0, i)] Hk Hsize Hn Hreach Hen)
    as (Hiff & Hnull & _).
  split; [by split_and!|]. split; [by apply Hiff | by apply Hnull].
Defined.

(** ** The pool: the data-model invariants *)

(** In every reachable state of a pool whose size fits the frame-id type:
    the frame array has [pool_size] frames; the free list has no
    duplicates and its frames are unpinned, untracked by the replacer and
    not in the page table; a page-table entry names a frame that holds
    that page and is tracked by the replacer, evictable when unpinned; an
    evictable frame is unpinned and is the page-table entry of the page it
    holds; and every frame has a non-negative pin count and is pinned, on
    the free list, or evictable. *)
Theorem reachable_bookkeeping pool_size disk k b :
  pool_size ≤ INT32_MAX → reachable pool_size disk k b →
  length (pages_ b) = Z.to_nat pool_size ∧
  NoDup (free_list_ b) ∧
  (∀ f, f ∈ free_list_ b →
     ∃ p, page_at b f = Ok p ∧ pin_count_ p = 0 ∧
          frame_table_ (replacer_ b) !! f = None ∧
          ∀ page_id, page_table_ b !! page_id ≠ Some f) ∧
  (∀ page_id f, page_table_ b !! page_id = Some f →
     ∃ p i, page_at b f = Ok p ∧ page_id_ p = page_id ∧
            frame_table_ (replacer_ b) !! f = Some i ∧
            (pin_count_ p = 0 → evictable i = true)) ∧
  (∀ f i, evictable_frame (replacer_ b) f i →
     ∃ p, page_at b f = Ok p ∧ pin_count_ p = 0 ∧
          page_table_ b !! page_id_ p = Some f) ∧
  (∀ f p, page_at b f = Ok p →
     0 ≤ pin_count_ p ∧ (0 < pin_count_ p ∨ available b f)).
Proof.
  intros Hsize [n Hreach].
  pose proof (reachable_inv _ _ _ _ _ Hsize Hreach) as [Hcore Hcover].
  pose proof (reachable_pinned _ _ _ _ _ Hreach) as Hpinned.
  assert (∀ f pid pin, meta_at b f = Some (pid, pin) →
            ∃ p, page_at b f = Ok p ∧ page_id_ p = pid ∧ pin_count_ p = pin) as Hpage.
  { intros f pid pin (p & Hp & Hm)%meta_at_page. exists p.
    unfold frame_meta in Hm. inversion Hm. done. }
  split_and!.
  - exact (pc_frames _ _ Hcore).
  - exact (pc_free_nodup _ _ Hcore).
  - intros f Hin. destruct (pc_free _ _ Hcore f Hin) as ((pid & Hm) & Hun & Hnt).
    destruct (Hpage _ _ _ Hm) as (p & Hp & _ & Hpin). by exists p.
  - intros page_id f Hres.
    destruct (pc_resident _ _ Hcore page_id f Hres) as (pin & i & Hm & Hi & Hev).
    destruct (Hpage _ _ _ Hm) as (p & Hp & Hpid & Hpin).
    exists p, i. split_and!; try done. intros Hz. apply Hev. lia.
  - intros f i [Hi He].
    destruct (pc_evictable _ _ Hcore f i (conj Hi He)) as (pid & pin & Hm & Hres).
    destruct (Hpage _ _ _ Hm) as (p & Hp & Hpid & Hpin).
    exists p. split_and!; [done| |by rewrite Hpid].
    pose proof (pc_pins _ _ Hcore f pid pin Hm) as Hnn.
    destruct (decide (0 < pin_count_ p)) as [Hpos|Hle]; [|lia].
    rewrite (Hpinned f p i Hp Hpos Hi) in He. done.
  - intros f p Hp. pose proof (page_at_meta_at _ _ _ Hp) as Hm.
    split; [by eapply (pc_pins _ _ Hcore)|]. by eapply Hcover.
Qed.

Lemma reachable_bookkeeping_witness :
  let disk := {| stored := ∅; calls := [] |} in
  let b := {| pool_size_ := 1;
              pages_ := [{| data_ := zero_page; page_id_ := 0;
                            pin_count_ := 1; is_dirty_ := false |}];
              page_table_ := {[ 0 := 0 ]};
              free_list_ := [];
              replacer_ := {| frame_table_ := {[ 0 := {| timestamp := [0]; evictable := false |} ]};
                              current_timestamp_ := 1; curr_size_ := 0;
                              replacer_size_ := 1; k_ := 2 |};
              next_page_id_ := 1;
              disk_manager_ := disk |} in
  (1 ≤ INT32_MAX ∧ reachable 1 disk 2 b) ∧
  0 ≤ 1 ∧ (0 < 1 ∨ available b 0).
Proof.
  intros disk b.
  assert (1 ≤ INT32_MAX) as Hsize by (unfold INT32_MAX; lia).
  assert (reachable 1 disk 2 b) as Hreach.
  { exists 1%nat. eapply (reach_call 1 disk 2 0 _ (NewPage []) b).
    - apply reach_new. reflexivity.
    - cbn [order_ok]. unfold enumerates. simpl. by rewrite map_to_list_empty.
    - reflexivity. }
  split; [by split|].
  destruct (reachable_bookkeeping 1 disk 2 b Hsize Hreach) as (_ & _ & _ & _ & _ & Hcover).
  exact (Hcover 0 _ eq_refl).
Defined.

(** * Further properties of the replacer *)

(** ** Counting the evictable frames *)

Lemma size_filter_delete (m : gmap Z FrameInfo) f :
  Z.of_nat (size (filter (λ e : Z * FrameInfo, evictable e.2 = true) (delete f m))) =
  Z.of_nat (size (filter (λ e : Z * FrameInfo, evictable e.2 = true) m))
  - Z.b2z (evictable (default FrameInfo_default (m !! f))).
Proof.
  rewrite map_filter_delete, map_size_delete.
  destruct (filter _ m !! f) as [i|] eqn:Hf.
  - apply map_lookup_filter_Some in Hf as [Hm He]. simpl in He.
    rewrite Hm. simpl. rewrite He. simpl.
    assert (size (filter (λ e : Z * FrameInfo, evictable e.2 = true) m) ≠ 0%nat).
    { apply map_size_ne_0_lookup. exists f.
      exists i. by apply map_lookup_filter_Some. }
    lia.
  - destruct (m !! f) as [i|] eqn:Hm; simpl; [|lia].
    destruct (evictable i) eqn:He; simpl; [|lia].
    assert (filter (λ e : Z * FrameInfo, evictable e.2 = true) m !! f = Some i)
      by by apply map_lookup_filter_Some.
    congruence.
Qed.

Lemma size_filter_insert (m : gmap Z FrameInfo) f x :
  Z.of_nat (size (filter (λ e : Z * FrameInfo, evictable e.2 = true) (<[f := x]> m))) =
  Z.of_nat (size (filter (λ e : Z * FrameInfo, evictable e.2 = true) m))
  - Z.b2z (evictable (default FrameInfo_default (m !! f)))
  + Z.b2z (evictable x).
Proof.
  destruct (evictable x) eqn:Hx.
  - rewrite map_filter_insert_True by done.
    rewrite <- (insert_delete_eq (filter _ m)).
    rewrite map_size_insert_None by apply lookup_delete_eq.
    rewrite <- map_filter_delete. rewrite Nat2Z.inj_succ, size_filter_delete.
    simpl. lia.
  - rewrite map_filter_insert_False by (simpl; congruence).
    rewrite size_filter_delete. simpl. lia.
Qed.

Lemma evictable_count_RecordAccess r f :
  evictable_count (RecordAccess f r) = evictable_count r.
Proof.
  unfold evictable_count, RecordAccess. cbn [frame_table_].
  rewrite size_filter_insert. cbn [evictable]. unfold table_at. lia.
Qed.

Lemma evictable_count_SetEvictable r f v :
  evictable_count (SetEvictable f v r) =
  evictable_count r - Z.b2z (evictable (table_at r f)) + Z.b2z v.
Proof.
  unfold evictable_count, SetEvictable.
  destruct (table_at r f) as [ts ev] eqn:Hat. cbn [evictable timestamp].
  assert (evictable (default FrameInfo_default (frame_table_ r !! f)) = ev) as Hold
    by (unfold table_at in Hat; by rewrite Hat).
  destruct ev, v; cbn [negb eqb frame_table_];
    rewrite size_filter_insert, Hold; simpl; lia.
Qed.

Lemma evictable_count_nonneg r : 0 ≤ evictable_count r.
Proof. unfold evictable_count. lia. Qed.

Lemma evictable_count_le_size r :
  evictable_count r ≤ Z.of_nat (size (frame_table_ r)).
Proof.
  unfold evictable_count. apply inj_le, map_subseteq_size, map_filter_subseteq.
Qed.

(** Each operation keeps [curr_size_] equal to the number of evictable
    frames, as long as that number fits a [size_t]. *)
Lemma counted_SetEvictable r f v :
  curr_size_ r = evictable_count r →
  evictable_count (SetEvictable f v r) ≤ SIZE_MAX →
  curr_size_ (SetEvictable f v r) = evictable_count (SetEvictable f v r).
Proof.
  intros Hc Hle. pose proof (evictable_count_nonneg (SetEvictable f v r)) as H0.
  pose proof (evictable_count_nonneg r) as H1.
  rewrite evictable_count_SetEvictable in *.
  unfold SetEvictable. destruct (evictable (table_at r f)), v; simpl in *;
    (rewrite ?wrap64_small by lia); lia.
Qed.

Lemma counted_Remove r r' f :
  Remove f r = Ok r' →
  curr_size_ r = evictable_count r → evictable_count r ≤ SIZE_MAX →
  curr_size_ r' = evictable_count r' ∧ evictable_count r' ≤ evictable_count r.
Proof.
  unfold Remove. intros H Hc Hle.
  destruct (f <? cast32 (replacer_size_ r)); [|done].
  destruct (frame_table_ r !! f) as [i|] eqn:Hi; [|inversion H; subst; lia].
  destruct (evictable i) eqn:He; [|done]. inversion H; subst r'; clear H.
  pose proof (evictable_count_nonneg
                {| frame_table_ := delete f (frame_table_ r);
                   current_timestamp_ := current_timestamp_ r;
                   curr_size_ := wrap64 (curr_size_ r - 1);
                   replacer_size_ := replacer_size_ r; k_ := k_ r |}) as H0.
  unfold evictable_count in *. cbn [frame_table_ curr_size_] in *.
  rewrite size_filter_delete, Hi in *. simpl in *. rewrite He in *. simpl in *.
  rewrite wrap64_small by lia. lia.
Qed.

Lemma counted_Evict r r' order v :
  enumerates order r → Evict order r = Ok (v, r') →
  curr_size_ r = evictable_count r → evictable_count r ≤ SIZE_MAX →
  curr_size_ r' = evictable_count r' ∧ evictable_count r' ≤ evictable_count r.
Proof.
  intros Hen H Hc Hle. destruct v as [f|].
  - destruct (Evict_returns_evictable _ _ _ _ Hen H) as [(i & Hi & He) ->].
    pose proof (evictable_count_nonneg
                  {| frame_table_ := delete f (frame_table_ r);
                     current_timestamp_ := current_timestamp_ r;
                     curr_size_ := wrap64 (curr_size_ r - 1);
                     replacer_size_ := replacer_size_ r; k_ := k_ r |}) as H0.
    unfold evictable_count in *. cbn [frame_table_ curr_size_] in *.
    rewrite size_filter_delete, Hi in *. simpl in *. rewrite He in *. simpl in *.
    rewrite wrap64_small by lia. lia.
  - apply Evict_false_unchanged in H as ->. lia.
Qed.

Lemma size_RecordAccess r f :
  (size (frame_table_ (RecordAccess f r)) ≤ S (size (frame_table_ r)))%nat.
Proof.
  unfold RecordAccess. cbn [frame_table_]. rewrite map_size_insert.
  destruct (frame_table_ r !! f); unfold id; lia.
Qed.

Lemma size_SetEvictable r f v :
  (size (frame_table_ (SetEvictable f v r)) ≤ S (size (frame_table_ r)))%nat.
Proof.
  unfold SetEvictable. destruct (negb _); cbn [frame_table_];
    rewrite map_size_insert; destruct (frame_table_ r !! f); unfold id; lia.
Qed.

(** One call keeps the count exact and adds at most one record. *)
Lemma replacer_run_counted c r r' (n : nat) :
  replacer_order_ok c r → replacer_run c r = Ok r' →
  Z.of_nat (S n) ≤ SIZE_MAX →
  curr_size_ r = evictable_count r ∧ (size (frame_table_ r) ≤ n)%nat →
  curr_size_ r' = evictable_count r' ∧ (size (frame_table_ r') ≤ S n)%nat.
Proof.
  intros Hok Hrun Hn [Hc Hsz].
  pose proof (evictable_count_le_size r) as Hle.
  destruct c as [order|f|f v|f]; cbn [replacer_run replacer_order_ok] in *.
  - apply fmap_Ok in Hrun as ([v r1] & Hev & ->). cbn [snd].
    destruct (counted_Evict _ _ _ _ Hok Hev Hc) as [Hc' _]; [lia|].
    split; [done|]. destruct v as [f|].
    + destruct (Evict_returns_evictable _ _ _ _ Hok Hev) as [_ ->].
      cbn [frame_table_]. rewrite map_size_delete.
      destruct (frame_table_ r !! f); unfold id; lia.
    + apply Evict_false_unchanged in Hev as ->. lia.
  - inversion Hrun; subst r'. pose proof (size_RecordAccess r f).
    split; [|lia]. rewrite evictable_count_RecordAccess. done.
  - inversion Hrun; subst r'. pose proof (size_SetEvictable r f v).
    split; [|lia]. apply counted_SetEvictable; [done|].
    pose proof (evictable_count_le_size (SetEvictable f v r)). lia.
  - destruct (counted_Remove _ _ _ Hrun Hc) as [Hc' _]; [lia|].
    split; [done|]. apply Remove_Ok in Hrun as (-> & _).
    rewrite map_size_delete. destruct (frame_table_ r !! f); unfold id; lia.
Qed.

(** [Size] is the number of tracked frames whose evictable flag is set, in
    every state a replacer reaches by at most [SIZE_MAX] returning calls
    of [Evict], [RecordAccess], [SetEvictable] and [Remove], whatever the
    frame ids passed. *)
Theorem Size_counts_evictable num_frames k n r :
  Z.of_nat n ≤ SIZE_MAX →
  replacer_reachable_in num_frames k n r →
  Size r = evictable_count r.
Proof.
  intros Hn Hreach.
  enough (curr_size_ r = evictable_count r ∧ (size (frame_table_ r) ≤ n)%nat)
    as [H _] by exact H.
  induction Hreach as [|n r c r' Hreach IH Hok Hrun].
  - split; [reflexivity|]. simpl. rewrite map_size_empty. lia.
  - eapply replacer_run_counted; [done|done|done|apply IH; lia].
Qed.

Lemma Size_counts_evictable_witness :
  let r := SetEvictable 1 true (RecordAccess 1 (RecordAccess 0 (LRUKReplacer_new 3 2))) in
  (Z.of_nat 3 ≤ SIZE_MAX ∧ replacer_reachable_in 3 2 3 r) ∧
  Size r = 1 ∧ evictable_count r = 1.
Proof.
  intros r.
  assert (Z.of_nat 3 ≤ SIZE_MAX) as Hn by (unfold SIZE_MAX; simpl; lia).
  assert (replacer_reachable_in 3 2 3 r) as Hreach.
  { eapply (rreach_call 3 2 2 _ (DoSetEvictable 1 true)); [|exact I|reflexivity].
    eapply (rreach_call 3 2 1 _ (DoRecordAccess 1)); [|exact I|reflexivity].
    eapply (rreach_call 3 2 0 _ (DoRecordAccess 0)); [|exact I|reflexivity].
    apply rreach_new. }
  pose proof (Size_counts_evictable 3 2 3 r Hn Hreach) as H.
  split; [by split|]. split; [reflexivity|]. rewrite <- H. reflexivity.
Defined.

(** ** The access histories *)

Lemma increasing_nil : increasing [].
Proof. intros a c x y _ H. by rewrite lookup_nil in H. Qed.

Lemma increasing_snoc ts x :
  increasing ts → (∀ y, y ∈ ts → y < x) → increasing (ts ++ [x]).
Proof.
  intros Hinc Hlt a c y z Hac Ha Hc.
  apply lookup_app_Some in Ha as [Ha | [Hla Ha]];
    apply lookup_app_Some in Hc as [Hc | [Hlc Hc]].
  - by eapply Hinc.
  - apply list_lookup_singleton_Some in Hc as [_ <-].
    apply Hlt. by eapply list_elem_of_lookup_2.
  - apply lookup_lt_Some in Hc. lia.
  - apply list_lookup_singleton_Some in Ha as [Ha0 _].
    apply list_lookup_singleton_Some in Hc as [Hc0 _]. lia.
Qed.

Lemma increasing_tail ts : increasing ts → increasing (tail ts).
Proof.
  intros Hinc a c x y Hac Ha Hc.
  destruct ts as [|z ts]; simpl in *; [by rewrite lookup_nil in Ha|].
  apply (Hinc (S a) (S c) x y); [lia|done|done].
Qed.

Lemma elem_of_tail (ts : list Z) x : x ∈ tail ts → x ∈ ts.
Proof. destruct ts; [done|]. simpl. by right. Qed.

(** The history [RecordAccess] leaves in its frame: the old one with the
    clock value appended, without its oldest entry when that makes more
    than [k]. *)
Lemma history_RecordAccess r f (old := timestamp (table_at r f)) :
  ∃ i, frame_table_ (RecordAccess f r) !! f = Some i ∧
       evictable i = evictable (table_at r f) ∧
       timestamp i = (if k_ r <? Z.of_nat (length old) + 1
                      then tail (old ++ [current_timestamp_ r])
                      else old ++ [current_timestamp_ r]).
Proof.
  rewrite lookup_RecordAccess, decide_True by done. eexists. split; [done|].
  split; [done|]. cbn [timestamp]. cbv zeta. fold old.
  rewrite length_app. simpl. by rewrite Nat2Z.inj_add.
Qed.

Lemma table_at_history k n r f :
  history_inv k n r →
  Z.of_nat (length (timestamp (table_at r f))) ≤ Z.max k 0 ∧
  increasing (timestamp (table_at r f)) ∧
  (∀ x, x ∈ timestamp (table_at r f) → 0 ≤ x < current_timestamp_ r) ∧
  (∀ g j x, f ≠ g → frame_table_ r !! g = Some j →
            x ∈ timestamp (table_at r f) → x ∉ timestamp j).
Proof.
  intros []. unfold table_at. destruct (frame_table_ r !! f) as [i|] eqn:Hi; simpl.
  - split_and!; eauto. specialize (hi_len0 f i Hi). lia.
  - split_and!; [lia|apply increasing_nil| |].
    + intros x Hx. inversion Hx.
    + intros g j x _ _ Hx. inversion Hx.
Qed.

Lemma history_inv_mono k n r : history_inv k n r → history_inv k (S n) r.
Proof. intros []. constructor; try done. lia. Qed.

Lemma history_inv_RecordAccess k n r f :
  0 ≤ k → Z.of_nat n < SIZE_MAX →
  history_inv k n r → history_inv k (S n) (RecordAccess f r).
Proof.
  intros Hk Hn Hinv.
  destruct (table_at_history k n r f Hinv) as (Hlen & Hinc & Hpast & Huniq).
  destruct (history_RecordAccess r f) as (i & Hi & _ & Hts).
  destruct Hinv.
  assert (∀ g, f ≠ g → frame_table_ (RecordAccess f r) !! g = frame_table_ r !! g) as Hothers
    by (intros g Hne; by rewrite lookup_RecordAccess, decide_False).
  assert (current_timestamp_ (RecordAccess f r) = current_timestamp_ r + 1) as Hnow
    by (unfold RecordAccess; simpl; by rewrite wrap64_small by lia).
  assert (∀ x, x ∈ timestamp i →
               x = current_timestamp_ r ∨ x ∈ timestamp (table_at r f)) as Hin.
  { intros x. rewrite Hts. intros Hx.
    assert (x ∈ timestamp (table_at r f) ++ [current_timestamp_ r]) as Hx'
      by (destruct (k_ r <? _); [by apply elem_of_tail|done]).
    apply elem_of_app in Hx' as [?|Heq]; [by right|].
    apply list_elem_of_singleton in Heq. by left. }
  constructor; rewrite ?Hnow; try done.
  - lia.
  - intros g j Hj. destruct (decide (f = g)) as [<-|Hne]; [|rewrite Hothers in Hj; eauto].
    rewrite Hi in Hj. inversion Hj; subst j. rewrite Hts.
    destruct (k_ r <? _) eqn:Hc; zbool.
    + destruct (timestamp (table_at r f)) as [|z ts]; simpl in *; [lia|].
      rewrite length_app. simpl. lia.
    + rewrite length_app. simpl. lia.
  - intros g j Hj. destruct (decide (f = g)) as [<-|Hne]; [|rewrite Hothers in Hj; eauto].
    rewrite Hi in Hj. inversion Hj; subst j. rewrite Hts.
    assert (increasing (timestamp (table_at r f) ++ [current_timestamp_ r]))
      by (apply increasing_snoc; [done|]; intros y Hy; specialize (Hpast y Hy); lia).
    destruct (k_ r <? _); [by apply increasing_tail|done].
  - intros g j x Hj Hx. destruct (decide (f = g)) as [<-|Hne].
    + rewrite Hi in Hj. inversion Hj; subst j.
      destruct (Hin x Hx) as [->|Hold]; [lia|]. specialize (Hpast x Hold). lia.
    + rewrite Hothers in Hj by done. specialize (hi_past0 g j x Hj Hx). lia.
  - intros f1 g1 i1 j1 x Hne H1 H2 Hx1 Hx2.
    destruct (decide (f = f1)) as [<-|Hf1]; destruct (decide (f = g1)) as [<-|Hg1];
      try done.
    + rewrite Hi in H1. inversion H1; subst i1. rewrite Hothers in H2 by done.
      destruct (Hin x Hx1) as [->|Hold].
      * specialize (hi_past0 g1 j1 _ H2 Hx2). lia.
      * by apply (Huniq g1 j1 x).
    + rewrite Hi in H2. inversion H2; subst j1. rewrite Hothers in H1 by done.
      destruct (Hin x Hx2) as [->|Hold].
      * specialize (hi_past0 f1 i1 _ H1 Hx1). lia.
      * by apply (Huniq f1 i1 x).
    + rewrite Hothers in H1, H2 by done. by eapply (hi_unique0 f1 g1).
Qed.

Lemma history_inv_SetEvictable k n r f v :
  0 ≤ k → history_inv k n r → history_inv k n (SetEvictable f v r).
Proof.
  intros Hk Hinv.
  destruct (table_at_history k n r f Hinv) as (Hlen & Hinc & Hpast & Huniq).
  destruct (SetEvictable_fields r f v) as (Hnow & Hk' & _).
  destruct Hinv.
  assert (∀ g j, frame_table_ (SetEvictable f v r) !! g = Some j →
                 (g = f ∧ timestamp j = timestamp (table_at r f)) ∨
                 (g ≠ f ∧ frame_table_ r !! g = Some j)) as Hcases.
  { intros g j. rewrite lookup_SetEvictable. case_decide as Hg.
    - intros [= <-]. by left.
    - intros Hj. right. split; [congruence|done]. }
  constructor; rewrite ?Hnow, ?Hk'; try done.
  - intros g j [[-> ->] | [_ Hj]]%Hcases; [lia|eauto].
  - intros g j [[-> ->] | [_ Hj]]%Hcases; [done|eauto].
  - intros g j x [[-> ->] | [_ Hj]]%Hcases; [apply Hpast|eauto].
  - intros f1 g1 i1 j1 x Hne [[-> Hi1] | [Hf1 H1]]%Hcases [[-> Hj1] | [Hg1 H2]]%Hcases;
      rewrite ?Hi1, ?Hj1; try done.
    + intros Hx. by apply (Huniq g1 j1 x).
    + intros Hx1 Hx2. by apply (Huniq f1 i1 x).
    + by apply (hi_unique0 f1 g1).
Qed.

Lemma history_inv_delete k n r r' f :
  history_inv k n r →
  frame_table_ r' = delete f (frame_table_ r) →
  current_timestamp_ r' = current_timestamp_ r → k_ r' = k_ r →
  history_inv k n r'.
Proof.
  intros [] Hft Hnow Hk. constructor; rewrite ?Hnow, ?Hk, ?Hft; try done.
  - intros g j [_ Hj]%lookup_delete_Some. eauto.
  - intros g j [_ Hj]%lookup_delete_Some. eauto.
  - intros g j x [_ Hj]%lookup_delete_Some. eauto.
  - intros f1 g1 i1 j1 x Hne [_ H1]%lookup_delete_Some [_ H2]%lookup_delete_Some.
    by apply (hi_unique0 f1 g1).
Qed.

Lemma replacer_run_history k n c r r' :
  0 ≤ k → Z.of_nat n < SIZE_MAX →
  replacer_order_ok c r → replacer_run c r = Ok r' →
  history_inv k n r → history_inv k (S n) r'.
Proof.
  intros Hk Hn Hok Hrun Hinv.
  destruct c as [order|f|f v|f]; cbn [replacer_run replacer_order_ok] in *.
  - apply fmap_Ok in Hrun as ([v r1] & Hev & ->). cbn [snd].
    apply history_inv_mono. destruct v as [f|].
    + destruct (Evict_returns_evictable _ _ _ _ Hok Hev) as [_ ->].
      by eapply history_inv_delete.
    + by apply Evict_false_unchanged in Hev as ->.
  - inversion Hrun; subst r'. by apply history_inv_RecordAccess.
  - inversion Hrun; subst r'. apply history_inv_mono.
    by apply history_inv_SetEvictable.
  - apply history_inv_mono. apply Remove_Ok in Hrun as (Hft & Hnow & Hk' & _).
    by eapply history_inv_delete.
Qed.

(** In every state a replacer built with [k ≥ 0] reaches by [n] returning
    calls, [n] within the life of the 64-bit clock: the clock is at most
    [n]; every tracked frame's history holds at most [k] timestamps, in
    strictly increasing order, all of them earlier than the clock; and no
    timestamp is recorded for two frames. *)
Theorem histories_bounded_ordered_unique num_frames k n r :
  0 ≤ k → Z.of_nat n ≤ SIZE_MAX →
  replacer_reachable_in num_frames k n r →
  0 ≤ current_timestamp_ r ≤ Z.of_nat n ∧
  (∀ f i, frame_table_ r !! f = Some i →
     Z.of_nat (length (timestamp i)) ≤ k ∧
     increasing (timestamp i) ∧
     (∀ x, x ∈ timestamp i → 0 ≤ x < current_timestamp_ r)) ∧
  (∀ f g i j x, f ≠ g →
     frame_table_ r !! f = Some i → frame_table_ r !! g = Some j →
     x ∈ timestamp i → x ∉ timestamp j).
Proof.
  intros Hk Hn Hreach.
  enough (history_inv k n r) as [].
  { split_and!; [lia|lia| |done]. intros f i Hi. split_and!; eauto. }
  induction Hreach as [|n r c r' Hreach IH Hok Hrun].
  - constructor; simpl; try done; try lia.
  - eapply replacer_run_history; [done|lia|done|done|apply IH; lia].
Qed.

Lemma histories_bounded_ordered_unique_witness :
  let r := RecordAccess 0 (RecordAccess 0 (RecordAccess 0 (LRUKReplacer_new 3 2))) in
  (0 ≤ 2 ∧ Z.of_nat 3 ≤ SIZE_MAX ∧ replacer_reachable_in 3 2 3 r) ∧
  frame_table_ r !! 0 = Some {| timestamp := [1; 2]; evictable := false |} ∧
  Z.of_nat (length [1; 2]) ≤ 2 ∧ increasing [1; 2].
Proof.
  intros r.
  assert (0 ≤ 2) as Hk by lia.
  assert (Z.of_nat 3 ≤ SIZE_MAX) as Hn by (unfold SIZE_MAX; simpl; lia).
  assert (replacer_reachable_in 3 2 3 r) as Hreach.
  { eapply (rreach_call 3 2 2 _ (DoRecordAccess 0)); [|exact I|reflexivity].
    eapply (rreach_call 3 2 1 _ (DoRecordAccess 0)); [|exact I|reflexivity].
    eapply (rreach_call 3 2 0 _ (DoRecordAccess 0)); [|exact I|reflexivity].
    apply rreach_new. }
  assert (frame_table_ r !! 0 = Some {| timestamp := [1; 2]; evictable := false |})
    as Hlook by reflexivity.
  destruct (histories_bounded_ordered_unique 3 2 3 r Hk Hn Hreach) as (_ & Hhist & _).
  destruct (Hhist 0 _ Hlook) as (Hlen & Hinc & _).
  split; [by split_and!|]. split_and!; [exact Hlook | exact Hlen | exact Hinc].
Defined.

(** ** Frames with fewer than [k] accesses go first *)

Lemma backward_k_distance_Infinite k now ts :
  1 ≤ k → backward_k_distance k now ts = Infinite ↔ Z.of_nat (length ts) < k.
Proof.
  intros Hk. unfold backward_k_distance.
  destruct (k <=? Z.of_nat (length ts)) eqn:Hlen; zbool; [|split; [lia|done]].
  destruct (rev ts !! Z.to_nat (k - 1)) as [x|] eqn:Hx; [split; [done|lia]|].
  apply lookup_ge_None in Hx. rewrite length_rev in Hx. lia.
Qed.

(** On a scannable state, if some evictable frame has fewer than [k]
    recorded accesses, then [Evict] returns a frame with fewer than [k]
    recorded accesses, however recently the frames with full histories
    were used; and the first retained access of the victim is not later
    than that of any evictable frame with fewer than [k] accesses. *)
Theorem Evict_prefers_short_histories (r : LRUKReplacer) order g j :
  scannable r → enumerates order r →
  evictable_frame r g j → Z.of_nat (length (timestamp j)) < k_ r →
  ∃ f r' i, Evict order r = Ok (Some f, r') ∧
            evictable_frame r f i ∧
            Z.of_nat (length (timestamp i)) < k_ r ∧
            ∀ g' j' x y, evictable_frame r g' j' →
                         Z.of_nat (length (timestamp j')) < k_ r →
                         oldest_retained (timestamp i) = Some x →
                         oldest_retained (timestamp j') = Some y → x ≤ y.
Proof.
  intros Hsc Hen Hg Hshort.
  destruct (Evict_selects r order Hsc Hen (ex_intro _ g (ex_intro _ j Hg)))
    as (f & r' & (i & Hi & Hbest) & Hrun & _).
  pose proof (sc_k r Hsc) as Hk.
  assert (backward_k_distance (k_ r) (current_timestamp_ r) (timestamp i) = Infinite) as Hinf.
  { destruct (Hbest g j Hg) as [Hle _]. cbv zeta in Hle.
    rewrite (proj2 (backward_k_distance_Infinite _ _ _ Hk) Hshort) in Hle.
    by destruct (backward_k_distance _ _ (timestamp i)). }
  exists f, r', i.
  split_and!; [done|done|exact (proj1 (backward_k_distance_Infinite _ _ _ Hk) Hinf)|].
  intros g' j' x y Hg' Hshort' Hx Hy.
  destruct (Hbest g' j' Hg') as [_ Htie]. cbv zeta in Htie.
  apply (Htie); [|done|done].
  rewrite Hinf. by apply backward_k_distance_Infinite.
Qed.

Lemma Evict_prefers_short_histories_witness :
  let a := {| timestamp := [0; 2]; evictable := true |} in
  let c := {| timestamp := [1]; evictable := true |} in
  let r := {| frame_table_ := <[0 := a]> {[ 1 := c ]};
              current_timestamp_ := 3; curr_size_ := 2;
              replacer_size_ := 3; k_ := 2 |} in
  (scannable r ∧ enumerates [(0, a); (1, c)] r ∧ evictable_frame r 1 c ∧
   Z.of_nat (length (timestamp c)) < k_ r) ∧
  ∃ f r', Evict [(0, a); (1, c)] r = Ok (Some f, r') ∧ f = 1.
Proof.
  intros a c r.
  assert (∀ f i, frame_table_ r !! f = Some i → (f = 0 ∧ i = a) ∨ (f = 1 ∧ i = c)) as Hcases.
  { intros f i. simpl. rewrite lookup_insert_Some, lookup_singleton_Some.
    intros [[<- <-] | [_ [<- <-]]]; [by left | by right]. }
  assert (scannable r) as Hsc.
  { constructor.
    - simpl. lia.
    - unfold SIZE_MAX. simpl. lia.
    - intros f i [[-> _] | [-> _]]%Hcases; discriminate.
    - intros f i x [[_ ->] | [_ ->]]%Hcases Hx; simpl in *;
        repeat (apply elem_of_cons in Hx as [-> | Hx]; [lia|]); inversion Hx.
    - intros f i [[[_ ->] | [_ ->]]%Hcases _]; discriminate. }
  assert (enumerates [(0, a); (1, c)] r) as Hen.
  { unfold enumerates. simpl. rewrite map_to_list_insert by reflexivity.
    by rewrite map_to_list_singleton. }
  assert (evictable_frame r 1 c) as Hev by (split; reflexivity).
  assert (Z.of_nat (length (timestamp c)) < k_ r) as Hshort by (simpl; lia).
  destruct (Evict_prefers_short_histories r [(0, a); (1, c)] 1 c Hsc Hen Hev Hshort)
    as (f & r' & i & Hrun & _).
  split; [by split_and!|]. exists f, r'. split; [exact Hrun|].
  vm_compute in Hrun. congruence.
Defined.

(** * Further properties of the pool *)

(** ** [FlushAllPgsImp] *)

Lemma page_at_flush_step b f0 p0 d g :
  page_at b f0 = Ok p0 →
  page_at (store_page f0 (flushed p0) (set_disk d b)) g =
    if decide (g = f0) then Ok (flushed p0) else page_at b g.
Proof.
  intros Hp0. by apply (page_at_insert b _ f0 p0).
Qed.

Lemma FlushAll_loop_effect order : ∀ b,
  (∀ pid f, (pid, f) ∈ order → ∃ p, page_at b f = Ok p ∧ page_id_ p = pid) →
  NoDup order.*1 →
  ∃ b' written,
    FlushAll_loop order b = Ok b' ∧
    calls (disk_manager_ b') = calls (disk_manager_ b) ++ written ∧
    Forall2 (λ e c, ∃ p, page_at b e.2 = Ok p ∧ c = WritePage e.1 (data_ p))
            order written ∧
    (∀ pid f p, (pid, f) ∈ order → page_at b f = Ok p →
                stored (disk_manager_ b') !! pid = Some (data_ p)) ∧
    (∀ pid, pid ∉ order.*1 →
            stored (disk_manager_ b') !! pid = stored (disk_manager_ b) !! pid) ∧
    (∀ f p, page_at b f = Ok p →
            page_at b' f = Ok (if decide (f ∈ order.*2) then flushed p else p)) ∧
    page_table_ b' = page_table_ b ∧ free_list_ b' = free_list_ b ∧
    replacer_ b' = replacer_ b ∧ next_page_id_ b' = next_page_id_ b ∧
    pool_size_ b' = pool_size_ b.
Proof.
  induction order as [|[pid0 f0] rest IH]; intros b Hres Hnd.
  - exists b, []. simpl. rewrite app_nil_r.
    split_and!; try done.
    intros pid f p Hin. by apply elem_of_nil in Hin.
  - destruct (Hres pid0 f0) as (p0 & Hp0 & Hid0); [left|].
    apply NoDup_cons in Hnd as [Hfresh Hnd]. fold (fmap (M:=list) (@fst Z Z) rest) in Hfresh, Hnd.
    set (d := disk_WritePage (page_id_ p0) (data_ p0) (disk_manager_ b)).
    set (b1 := store_page f0 (flushed p0) (set_disk d b)).
    assert (∀ g, page_at b1 g = if decide (g = f0) then Ok (flushed p0) else page_at b g)
      as Hat by (intros g; by apply page_at_flush_step).
    destruct (IH b1) as (b' & written & Hrun & Hcalls & Hall & Hst & Hkeep & Hpages & Hrest);
      [|exact Hnd|].
    { intros pid f Hin. destruct (Hres pid f) as (p & Hp & Hid); [by right|].
      rewrite Hat. case_decide as Hf; [|by exists p]. subst f.
      exists (flushed p0). split; [done|]. simpl. congruence. }
    exists b', (WritePage pid0 (data_ p0) :: written).
    split_and!.
    + simpl. rewrite Hp0, bind_Ok. exact Hrun.
    + rewrite Hcalls. simpl. rewrite Hid0, <- app_assoc. done.
    + constructor; [by exists p0|].
      eapply Forall2_impl; [exact Hall|]. intros [pid f] c (p & Hp & ->). simpl in *.
      rewrite Hat in Hp. case_decide as Hf; [|by exists p]. subst f.
      exists p0. split; [done|]. by inversion Hp.
    + intros pid f p Hin Hp. apply elem_of_cons in Hin as [Heq | Hin].
      * inversion Heq; subst pid f. rewrite Hkeep by done.
        simpl. rewrite Hid0, lookup_insert_eq. congruence.
      * assert (page_at b1 f = Ok (if decide (f = f0) then flushed p0 else p)) as Hp1.
        { rewrite Hat. by case_decide. }
        rewrite (Hst pid f _ Hin Hp1). case_decide as Hf; [|done].
        subst f. simpl. congruence.
    + intros pid Hout. rewrite fmap_cons, not_elem_of_cons in Hout.
      destruct Hout as [Hne Hout]. simpl in Hne. rewrite (Hkeep pid Hout). simpl.
      rewrite Hid0. by rewrite lookup_insert_ne.
    + intros f p Hp.
      assert (page_at b1 f = Ok (if decide (f = f0) then flushed p0 else p)) as Hp1.
      { rewrite Hat. by case_decide. }
      rewrite (Hpages f _ Hp1). f_equal. rewrite fmap_cons. simpl.
      destruct (decide (f = f0)) as [->|Hne].
      * assert (p0 = p) as -> by congruence.
        rewrite (decide_True (P := f0 ∈ f0 :: rest.*2)) by left.
        by case_decide.
      * case_decide as Hin.
        -- rewrite decide_True; [done|by right].
        -- rewrite decide_False; [done|]. by intros [?|?]%elem_of_cons.
    + by destruct Hrest as (-> & _).
    + by destruct Hrest as (_ & -> & _).
    + by destruct Hrest as (_ & _ & -> & _).
    + by destruct Hrest as (_ & _ & _ & -> & _).
    + by destruct Hrest as (_ & _ & _ & _ & ->).
Qed.

(** On every state reachable from a fresh pool of at most 2^31-1 frames,
    [FlushAllPgsImp] returns; it calls [WritePage] once for each
    page-table entry, in the order of the iteration, with the entry's
    page id and the bytes of its frame, and makes no other disk call;
    afterwards the disk stores the bytes of every resident page, every
    resident frame is clean with its bytes, page id and pin count as
    before, and the frames holding no resident page, the stored contents
    of the other pages, the page table, the free list, the replacer and
    the page-id counter are unchanged. *)
Theorem FlushAllPgsImp_effect pool_size disk k b order :
  pool_size ≤ INT32_MAX →
  reachable pool_size disk k b →
  order ≡ₚ map_to_list (page_table_ b) →
  ∃ b' written,
    FlushAllPgsImp order b = Ok b' ∧
    calls (disk_manager_ b') = calls (disk_manager_ b) ++ written ∧
    Forall2 (λ e c, ∃ p, page_at b e.2 = Ok p ∧ c = WritePage e.1 (data_ p))
            order written ∧
    (∀ page_id f, page_table_ b !! page_id = Some f →
       ∃ p, page_at b f = Ok p ∧ page_at b' f = Ok (flushed p) ∧
            stored (disk_manager_ b') !! page_id = Some (data_ p)) ∧
    (∀ page_id, page_table_ b !! page_id = None →
       stored (disk_manager_ b') !! page_id = stored (disk_manager_ b) !! page_id) ∧
    (∀ f p, page_at b f = Ok p → (∀ page_id, page_table_ b !! page_id ≠ Some f) →
       page_at b' f = Ok p) ∧
    page_table_ b' = page_table_ b ∧ free_list_ b' = free_list_ b ∧
    replacer_ b' = replacer_ b ∧ next_page_id_ b' = next_page_id_ b ∧
    pool_size_ b' = pool_size_ b.
Proof.
  intros Hsize [n Hreach] Horder.
  destruct (reachable_inv _ _ _ _ _ Hsize Hreach) as [Hcore _].
  assert (∀ pid f, (pid, f) ∈ order ↔ page_table_ b !! pid = Some f) as Hmem.
  { intros pid f. rewrite Horder. apply elem_of_map_to_list. }
  assert (∀ pid f, page_table_ b !! pid = Some f →
                   ∃ p, page_at b f = Ok p ∧ page_id_ p = pid) as Hres.
  { intros pid f Hpf. destruct (pc_resident _ _ Hcore pid f Hpf) as (pin & i & Hm & _).
    apply meta_at_page in Hm as (p & Hp & Hfm). exists p. split; [done|].
    unfold frame_meta in Hfm. congruence. }
  destruct (FlushAll_loop_effect order b)
    as (b' & written & Hrun & Hcalls & Hall & Hst & Hkeep & Hpages & Hrest).
  { intros pid f Hin. apply Hres. by apply Hmem. }
  { rewrite Horder. apply NoDup_fst_map_to_list. }
  exists b', written. split_and!; try done; try apply Hrest.
  - intros pid f Hpf. destruct (Hres pid f Hpf) as (p & Hp & _).
    exists p. split_and!; [done| |].
    + rewrite (Hpages f p Hp). f_equal. rewrite decide_True; [done|].
      apply list_elem_of_fmap. exists (pid, f). split; [done|]. by apply Hmem.
    + apply (Hst pid f p); [by apply Hmem | done].
  - intros pid Hnone. apply Hkeep. intros ([pid' f] & -> & Hin)%list_elem_of_fmap.
    apply Hmem in Hin. simpl in Hnone. congruence.
  - intros f p Hp Hout. rewrite (Hpages f p Hp). f_equal. rewrite decide_False; [done|].
    intros ([pid f'] & -> & Hin)%list_elem_of_fmap. apply Hmem in Hin.
    by apply (Hout pid).
Qed.

Lemma FlushAllPgsImp_effect_witness :
  let disk := {| stored := ∅; calls := [] |} in
  let b := {| pool_size_ := 1;
              pages_ := [{| data_ := zero_page; page_id_ := 0;
                            pin_count_ := 1; is_dirty_ := false |}];
              page_table_ := {[ 0 := 0 ]};
              free_list_ := [];
              replacer_ := {| frame_table_ := {[ 0 := {| timestamp := [0]; evictable := false |} ]};
                              current_timestamp_ := 1; curr_size_ := 0;
                              replacer_size_ := 1; k_ := 2 |};
              next_page_id_ := 1;
              disk_manager_ := disk |} in
  (1 ≤ INT32_MAX ∧ reachable 1 disk 2 b ∧ [(0, 0)] ≡ₚ map_to_list (page_table_ b)) ∧
  ∃ b', FlushAllPgsImp [(0, 0)] b = Ok b' ∧
        stored (disk_manager_ b') !! 0 = Some zero_page ∧
        page_table_ b' = page_table_ b.
Proof.
  intros disk b.
  assert (1 ≤ INT32_MAX) as Hsize by (unfold INT32_MAX; lia).
  assert (reachable 1 disk 2 b) as Hreach.
  { exists 1%nat. eapply (reach_call 1 disk 2 0 _ (NewPage []) b).
    - apply reach_new. reflexivity.
    - cbn [order_ok]. unfold enumerates. simpl. by rewrite map_to_list_empty.
    - reflexivity. }
  assert ([(0, 0)] ≡ₚ map_to_list (page_table_ b)) as Horder.
  { simpl. by rewrite map_to_list_singleton. }
  split; [by split_and!|].
  destruct (FlushAllPgsImp_effect 1 disk 2 b [(0, 0)] Hsize Hreach Horder)
    as (b' & written & Hrun & _ & _ & Hres & _ & _ & Hpt & _).
  exists b'. split_and!; [exact Hrun| |exact Hpt].
  destruct (Hres 0 0 eq_refl) as (p & Hp & _ & Hst).
  rewrite Hst. inversion Hp. reflexivity.
Defined.

(** ** [AllocatePage]: the page ids handed out *)

Lemma obtain_frame_next order b got b1 :
  obtain_frame order b = Ok (got, b1) → next_page_id_ b1 = next_page_id_ b.
Proof.
  unfold obtain_frame. intros H.
  destruct (free_list_ b) as [|f0 rest].
  - apply obind_Ok in H as ([victim r'] & _ & H).
    destruct victim as [f0|]; [|by inversion H].
    apply obind_Ok in H as (p0 & _ & H). by inversion H.
  - apply obind_Ok in H as (p0 & _ & H). by inversion H.
Qed.

Lemma NewPgImp_next order b res b' :
  NewPgImp order b = Ok (res, b') →
  match res with
  | Some (page_id, _) =>
      page_id = next_page_id_ b ∧ next_page_id_ b' = cast32 (next_page_id_ b + 1)
  | None => next_page_id_ b' = next_page_id_ b
  end.
Proof.
  unfold NewPgImp. intros H.
  apply obind_Ok in H as ([got b1] & Hob & H).
  apply obtain_frame_next in Hob.
  destruct got as [[f p]|]; inversion H; subst; simpl; by rewrite ?Hob.
Qed.

Lemma FlushAll_loop_next order : ∀ b b',
  FlushAll_loop order b = Ok b' → next_page_id_ b' = next_page_id_ b.
Proof.
  induction order as [|[pid f] rest IH]; intros b b' H; simpl in H.
  - by inversion H.
  - apply obind_Ok in H as (p & _ & H). by rewrite (IH _ _ H).
Qed.

(** Only [NewPgImp] moves the page-id counter, and by one. *)
Lemma run_next c b b' :
  run c b = Ok b' →
  next_page_id_ b' = next_page_id_ b ∨
  ((∃ order, c = NewPage order) ∧ next_page_id_ b' = cast32 (next_page_id_ b + 1)).
Proof.
  destruct c as [order|order page_id|page_id is_dirty|page_id|order|page_id]; simpl.
  - intros ([res b1] & H & ->)%fmap_Ok. apply NewPgImp_next in H.
    destruct res as [[pid f]|]; [right|by left]. destruct H as [_ H]. eauto.
  - intros ([res b1] & H & ->)%fmap_Ok. left. unfold FetchPgImp in H.
    destruct (page_table_ b !! page_id) as [f|].
    + apply obind_Ok in H as (p & _ & H).
      destruct (pin_count_ p =? INT32_MAX); [done|]. by inversion H.
    + apply obind_Ok in H as ([got b2] & Hob & H). apply obtain_frame_next in Hob.
      destruct got as [[f p]|]; inversion H; subst; simpl; by rewrite ?Hob.
  - intros ([res b1] & H & ->)%fmap_Ok. left. unfold UnpinPgImp in H.
    destruct (page_table_ b !! page_id) as [f|]; [|by inversion H].
    apply obind_Ok in H as (p & _ & H).
    destruct (pin_count_ p <=? 0); [by inversion H|].
    cbv zeta in H. simpl in H.
    destruct (pin_count_ p - 1 =? 0); by inversion H.
  - intros ([res b1] & H & ->)%fmap_Ok. left. unfold FlushPgImp in H.
    destruct (page_id =? INVALID_PAGE_ID); [by inversion H|].
    destruct (page_table_ b !! page_id) as [f|]; [|by inversion H].
    apply obind_Ok in H as (p & _ & H). by inversion H.
  - intros H. left. by apply FlushAll_loop_next in H.
  - intros ([res b1] & H & ->)%fmap_Ok. left. unfold DeletePgImp in H.
    destruct (page_table_ b !! page_id) as [f|]; [|by inversion H].
    apply obind_Ok in H as (p & _ & H).
    destruct (0 <? pin_count_ p); [by inversion H|].
    apply obind_Ok in H as (r' & _ & H). by inversion H.
Qed.

Lemma run_all_next cs : ∀ b b',
  run_all cs b = Ok b' →
  0 ≤ next_page_id_ b → next_page_id_ b + Z.of_nat (length cs) ≤ INT32_MAX →
  next_page_id_ b ≤ next_page_id_ b' ≤ next_page_id_ b + Z.of_nat (length cs).
Proof.
  induction cs as [|c cs IH]; intros b b' H Hpos Hmax; simpl in H.
  - inversion H. simpl. lia.
  - apply obind_Ok in H as (b1 & Hc & H). simpl length in *.
    apply run_next in Hc.
    assert (next_page_id_ b ≤ next_page_id_ b1 ≤ next_page_id_ b + 1) as Hstep.
    { destruct Hc as [-> | [_ ->]]; [lia|].
      rewrite cast32_small; [lia|]. unfold is_int32, INT32_MAX in *. lia. }
    specialize (IH b1 b' H). lia.
Qed.

Lemma reachable_next pool_size disk k n b :
  reachable_in pool_size disk k n b → Z.of_nat n ≤ INT32_MAX →
  0 ≤ next_page_id_ b ≤ Z.of_nat n.
Proof.
  induction 1 as [b Hnew | n b c b' Hreach IH Hok Hrun]; intros Hmax.
  - inversion Hnew. simpl. lia.
  - apply run_next in Hrun.
    destruct Hrun as [-> | [_ ->]]; [lia|].
    rewrite cast32_small; [lia|]. unfold is_int32, INT32_MAX in *. lia.
Qed.

(** After [n] calls on a fresh pool, a successful [NewPgImp] returns the
    counter's value, which is between 0 and [n]; and whatever calls [cs]
    follow, the next successful [NewPgImp] returns a strictly larger id,
    at most [length cs + 1] above it, as long as fewer than 2^31-1 calls
    have been made in all: no page id is handed out twice. *)
Theorem NewPgImp_page_ids_increase pool_size disk k n b order page_id f b1
    cs b2 order2 page_id2 f2 b3 :
  reachable_in pool_size disk k n b →
  Z.of_nat n + Z.of_nat (length cs) < INT32_MAX →
  NewPgImp order b = Ok (Some (page_id, f), b1) →
  run_all cs b1 = Ok b2 →
  NewPgImp order2 b2 = Ok (Some (page_id2, f2), b3) →
  page_id = next_page_id_ b ∧ 0 ≤ page_id ≤ Z.of_nat n ∧
  next_page_id_ b1 = page_id + 1 ∧
  page_id < page_id2 ≤ page_id + 1 + Z.of_nat (length cs).
Proof.
  intros Hreach Hmax Hnew Hcs Hnew2.
  apply NewPgImp_next in Hnew as [-> Hb1].
  apply NewPgImp_next in Hnew2 as [-> _].
  pose proof (reachable_next _ _ _ _ _ Hreach ltac:(lia)) as Hb.
  rewrite cast32_small in Hb1 by (unfold is_int32, INT32_MAX in *; lia).
  pose proof (run_all_next cs b1 b2 Hcs ltac:(lia) ltac:(lia)).
  lia.
Qed.

Lemma NewPgImp_page_ids_increase_witness :
  let disk := {| stored := ∅; calls := [] |} in
  ∃ b b1 b2 b3,
    BufferPoolManagerInstance_new 2 disk 2 = Ok b ∧
    NewPgImp [] b = Ok (Some (0, 0), b1) ∧
    run_all [UnpinPage 0 true] b1 = Ok b2 ∧
    NewPgImp [] b2 = Ok (Some (1, 1), b3) ∧
    0 < 1 ≤ 0 + 1 + Z.of_nat 1.
Proof.
  intros disk.
  destruct (BufferPoolManagerInstance_new 2 disk 2) as [b| |] eqn:Hb; try discriminate.
  destruct (NewPgImp [] b) as [[[[pid f]|] b1]| |] eqn:H1;
    try (vm_compute in Hb; inversion Hb; subst b; vm_compute in H1; discriminate).
  destruct (run_all [UnpinPage 0 true] b1) as [b2| |] eqn:H2;
    try (vm_compute in Hb; inversion Hb; subst b; vm_compute in H1; inversion H1; subst;
         vm_compute in H2; discriminate).
  destruct (NewPgImp [] b2) as [[[[pid2 f2]|] b3]| |] eqn:H3;
    try (vm_compute in Hb; inversion Hb; subst b; vm_compute in H1; inversion H1; subst;
         vm_compute in H2; inversion H2; subst; vm_compute in H3; discriminate).
  assert (Z.of_nat 0 + Z.of_nat (length [UnpinPage 0 true]) < INT32_MAX) as Hmax
    by (unfold INT32_MAX; simpl; lia).
  pose proof (NewPgImp_page_ids_increase 2 disk 2 0 b [] pid f b1 _ b2 [] pid2 f2 b3
                (reach_new 2 disk 2 b Hb) Hmax H1 H2 H3) as (_ & _ & _ & Hlt).
  assert (pid = 0 ∧ f = 0 ∧ pid2 = 1 ∧ f2 = 1) as (-> & -> & -> & ->).
  { vm_compute in Hb; inversion Hb; subst b; vm_compute in H1; inversion H1; subst.
    vm_compute in H2; inversion H2; subst; vm_compute in H3; inversion H3; subst. done. }
  exists b, b1, b2, b3. split_and!; try done. all: simpl in Hlt; lia.
Defined.

(** ** [FetchPgImp] and [NewPgImp]: binding a frame *)

(** What a fetch of a page that is not resident did when it returned a
    frame. *)
Lemma FetchPgImp_miss_inv order page_id b f b' :
  page_table_ b !! page_id = None →
  FetchPgImp order page_id b = Ok (Some f, b') →
  ∃ p0 b1,
    obtain_frame order b = Ok (Some (f, p0), b1) ∧
    pages_ b' =
      <[Z.to_nat f := {| data_ := default zero_page (stored (disk_manager_ b1) !! page_id);
                         page_id_ := page_id; pin_count_ := 1; is_dirty_ := false |}]>
        (pages_ b1) ∧
    page_table_ b' = emplace page_id f (page_table_ b1) ∧
    replacer_ b' = SetEvictable f false (RecordAccess f (replacer_ b1)) ∧
    free_list_ b' = free_list_ b1 ∧
    stored (disk_manager_ b') = stored (disk_manager_ b1) ∧
    calls (disk_manager_ b') = calls (disk_manager_ b1) ++ [ReadPage page_id] ∧
    next_page_id_ b' = next_page_id_ b1 ∧ pool_size_ b' = pool_size_ b1.
Proof.
  intros Hmiss H. unfold FetchPgImp in H. rewrite Hmiss in H.
  apply obind_Ok in H as ([got b1] & Hob & H).
  destruct got as [[f0 p0]|]; [|by inversion H].
  unfold disk_ReadPage in H. inversion H; subst. clear H.
  exists p0, b1. by split_and!.
Qed.

(** What [NewPgImp] did when it returned a frame. *)
Lemma NewPgImp_inv order b page_id f b' :
  NewPgImp order b = Ok (Some (page_id, f), b') →
  ∃ p0 b1,
    obtain_frame order b = Ok (Some (f, p0), b1) ∧
    page_id = next_page_id_ b ∧
    pages_ b' =
      <[Z.to_nat f := {| data_ := zero_page; page_id_ := page_id;
                         pin_count_ := 1; is_dirty_ := false |}]> (pages_ b1) ∧
    page_table_ b' = emplace page_id f (page_table_ b1) ∧
    replacer_ b' = SetEvictable f false (RecordAccess f (replacer_ b1)) ∧
    free_list_ b' = free_list_ b1 ∧
    disk_manager_ b' = disk_manager_ b1 ∧
    next_page_id_ b' = cast32 (page_id + 1) ∧ pool_size_ b' = pool_size_ b1.
Proof.
  intros H. unfold NewPgImp in H.
  apply obind_Ok in H as ([got b1] & Hob & H).
  destruct got as [[f0 p0]|]; [|by inversion H].
  inversion H; subst. clear H.
  exists p0, b1. pose proof (obtain_frame_next _ _ _ _ Hob). by split_and!.
Qed.

(** The frame [obtain_frame] hands out on a state that satisfies the
    bookkeeping invariant was unpinned and available, and the page it
    held is the only page that leaves the page table. *)
Lemma obtain_frame_inv pool_size order b f p0 b1 :
  pool_inv pool_size b → pinned_not_evictable b →
  enumerates order (replacer_ b) →
  obtain_frame order b = Ok (Some (f, p0), b1) →
  page_at b f = Ok p0 ∧ pin_count_ p0 = 0 ∧ available b f ∧
  pages_ b1 = pages_ b ∧ free_list_ b1 = tail (free_list_ b) ∧
  page_table_ b1 =
    match free_list_ b with
    | [] => delete (page_id_ p0) (page_table_ b)
    | _ => page_table_ b
    end ∧
  (free_list_ b = [] → page_table_ b !! page_id_ p0 = Some f) ∧
  (∀ page_id, page_table_ b1 !! page_id ≠ Some f) ∧
  stored (disk_manager_ b1) =
    match free_list_ b with
    | [] => if is_dirty_ p0
            then <[page_id_ p0 := data_ p0]> (stored (disk_manager_ b))
            else stored (disk_manager_ b)
    | _ => stored (disk_manager_ b)
    end ∧
  calls (disk_manager_ b1) =
    calls (disk_manager_ b) ++
    match free_list_ b with
    | [] => if is_dirty_ p0 then [WritePage (page_id_ p0) (data_ p0)] else []
    | _ => []
    end.
Proof.
  intros [Hcore Hcover] Hpin Hen Hob.
  destruct (obtain_frame_Some _ _ _ _ _ Hen Hob) as (Hp0 & Hpages & _ & _ & Hcase).
  pose proof (page_at_meta_at _ _ _ Hp0) as Hm.
  destruct Hcase as [(Hfree & Hrep & Hpt & Hdisk) |
                     (Hfree & Hfree1 & [i Hi] & _ & _ & _ & _ & _ & Hpt & Hdisk)].
  - destruct (pc_free _ _ Hcore f) as ([pid Hpid] & _ & Hout); [rewrite Hfree; left|].
    rewrite Hfree, Hpt, Hdisk, app_nil_r. simpl.
    split_and!; try done.
    + congruence.
    + left. rewrite Hfree. left.
  - destruct (pc_evictable _ _ Hcore f i Hi) as (pid & pin & Hm' & Hres).
    assert (pid = page_id_ p0 ∧ pin = pin_count_ p0) as [-> ->]
      by (split; congruence).
    pose proof (pc_pins _ _ Hcore f _ _ Hm) as Hpos.
    assert (pin_count_ p0 = 0) as Hzero.
    { destruct (decide (0 < pin_count_ p0)) as [Hgt|]; [|lia].
      destruct Hi as [Hi Hev]. pose proof (Hpin f p0 i Hp0 Hgt Hi). congruence. }
    rewrite Hfree, Hpt, Hdisk, Hfree1. simpl.
    split_and!; try done.
    + right. by exists i.
    + intros page_id. destruct (decide (page_id = page_id_ p0)) as [->|Hne].
      * by rewrite lookup_delete_eq.
      * rewrite lookup_delete_ne by done. intros Hother.
        destruct (pc_resident _ _ Hcore _ _ Hother) as (pin' & i' & Hm'' & _).
        congruence.
    + by destruct (is_dirty_ p0).
    + destruct (is_dirty_ p0); simpl; [done|by rewrite app_nil_r].
Qed.

(** On every state reachable from a fresh pool of at most 2^31-1 frames:
    fetching a resident page pins its frame once more, records an access,
    leaves the frame not evictable and touches neither the disk, nor the
    bytes and dirty flag of the frame, nor any other frame, nor the page
    table or free list (at a pin count of 2^31-1 the increment is
    undefined); a fetch of a page that is not resident, when it returns a
    frame, returns one that was unpinned and available, now holding the
    bytes the disk stored for the page before the call (zeroes if never
    written), clean, pinned once and not evictable; the page table maps
    the page to that frame and has lost only the page the frame held; the
    disk saw at most the write-back of a dirty victim and then one read
    of the page; all other frames are as before. *)
Theorem FetchPgImp_effect pool_size disk k b order page_id :
  pool_size ≤ INT32_MAX →
  reachable pool_size disk k b →
  enumerates order (replacer_ b) →
  (∀ f, page_table_ b !! page_id = Some f →
     ∃ p, page_at b f = Ok p ∧ page_id_ p = page_id ∧ 0 ≤ pin_count_ p ∧
       (pin_count_ p = INT32_MAX → FetchPgImp order page_id b = Undefined) ∧
       (pin_count_ p < INT32_MAX →
        ∃ b', FetchPgImp order page_id b = Ok (Some f, b') ∧
          page_at b' f = Ok {| data_ := data_ p; page_id_ := page_id;
                               pin_count_ := pin_count_ p + 1;
                               is_dirty_ := is_dirty_ p |} ∧
          (∀ g, g ≠ f → page_at b' g = page_at b g) ∧
          page_table_ b' = page_table_ b ∧ free_list_ b' = free_list_ b ∧
          disk_manager_ b' = disk_manager_ b ∧
          next_page_id_ b' = next_page_id_ b ∧
          replacer_ b' = SetEvictable f false (RecordAccess f (replacer_ b)) ∧
          (∃ i, frame_table_ (replacer_ b') !! f = Some i ∧ evictable i = false))) ∧
  (page_table_ b !! page_id = None →
     ∀ f b', FetchPgImp order page_id b = Ok (Some f, b') →
       ∃ p0, page_at b f = Ok p0 ∧ pin_count_ p0 = 0 ∧ available b f ∧
         page_at b' f =
           Ok {| data_ := default zero_page (stored (disk_manager_ b) !! page_id);
                 page_id_ := page_id; pin_count_ := 1; is_dirty_ := false |} ∧
         (∀ g, g ≠ f → page_at b' g = page_at b g) ∧
         page_table_ b' =
           <[page_id := f]> (match free_list_ b with
                             | [] => delete (page_id_ p0) (page_table_ b)
                             | _ => page_table_ b
                             end) ∧
         free_list_ b' = tail (free_list_ b) ∧
         (∃ i, frame_table_ (replacer_ b') !! f = Some i ∧ evictable i = false) ∧
         (∀ g, g ≠ f →
               frame_table_ (replacer_ b') !! g = frame_table_ (replacer_ b) !! g) ∧
         calls (disk_manager_ b') =
           calls (disk_manager_ b) ++
           match free_list_ b with
           | [] => if is_dirty_ p0 then [WritePage (page_id_ p0) (data_ p0)] else []
           | _ => []
           end ++ [ReadPage page_id] ∧
         next_page_id_ b' = next_page_id_ b).
Proof.
  intros Hsize [n Hreach] Hen.
  pose proof (reachable_inv _ _ _ _ _ Hsize Hreach) as Hinv.
  pose proof (reachable_pinned _ _ _ _ _ Hreach) as Hpin.
  destruct Hinv as [Hcore Hcover]. split.
  - intros f Hhit.
    destruct (pc_resident _ _ Hcore _ _ Hhit) as (pin & i & Hm & _).
    pose proof (pc_pins _ _ Hcore _ _ _ Hm) as Hpos.
    apply meta_at_page in Hm as (p & Hp & Hfm).
    assert (page_id_ p = page_id ∧ pin_count_ p = pin) as [Hid Hpc]
      by (unfold frame_meta in Hfm; split; congruence).
    exists p. split_and!; [done|done|lia| |].
    + intros Hmax. unfold FetchPgImp. rewrite Hhit, Hp, bind_Ok.
      by rewrite (proj2 (Z.eqb_eq _ _) Hmax).
    + intros Hlt. unfold FetchPgImp. rewrite Hhit, Hp, bind_Ok.
      rewrite (proj2 (Z.eqb_neq _ _)) by lia. cbv zeta.
      eexists. split; [reflexivity|]. rewrite Hid.
      split_and!; try reflexivity.
      * erewrite (page_at_insert b _ f p _ f Hp) by reflexivity.
        by rewrite decide_True.
      * intros g Hne. erewrite (page_at_insert b _ f p _ g Hp) by reflexivity.
        by rewrite decide_False.
      * destruct (lookup_touch_eq (replacer_ b) f) as (i' & Hi' & Hev & _). eauto.
  - intros Hmiss f b' Hrun.
    destruct (FetchPgImp_miss_inv _ _ _ _ _ Hmiss Hrun)
      as (p0 & b1 & Hob & Hpages & Hpt & Hrep & Hfl & Hst & Hcalls & Hnext & _).
    destruct (obtain_frame_inv pool_size _ _ _ _ _ (conj Hcore Hcover) Hpin Hen Hob)
      as (Hp0 & Hzero & Hav & Hpages1 & Hfl1 & Hpt1 & Hvictim & _ & Hst1 & Hcalls1).
    assert (page_at b1 f = Ok p0) as Hp1 by (by rewrite (page_at_ext b1 b)).
    exists p0. split_and!; try done.
    + rewrite (page_at_insert b1 b' f p0 _ f Hp1 Hpages), decide_True by done.
      do 2 f_equal. rewrite Hst1.
      destruct (free_list_ b) as [|f0 rest]; [|done].
      destruct (is_dirty_ p0); [|done].
      rewrite lookup_insert_ne; [done|]. intros Heq.
      specialize (Hvictim eq_refl). congruence.
    + intros g Hne. rewrite (page_at_insert b1 b' f p0 _ g Hp1 Hpages).
      rewrite decide_False by done. by apply page_at_ext.
    + rewrite Hpt, <- Hpt1. unfold emplace.
      assert (page_table_ b1 !! page_id = None) as ->; [|done].
      rewrite Hpt1. destruct (free_list_ b); [|done].
      apply lookup_delete_None. by right.
    + congruence.
    + rewrite Hrep. destruct (lookup_touch_eq (replacer_ b1) f) as (i' & Hi' & Hev & _).
      eauto.
    + intros g Hne. rewrite Hrep, lookup_touch_ne by done.
      by apply (obtain_frame_others order b f p0 b1 g).
    + rewrite Hcalls, Hcalls1, <- app_assoc. done.
    + rewrite Hnext. by apply (obtain_frame_next order b (Some (f, p0)) b1).
Qed.

Lemma FetchPgImp_effect_witness :
  let disk := {| stored := ∅; calls := [] |} in
  let p := {| data_ := zero_page; page_id_ := 0; pin_count_ := 1; is_dirty_ := false |} in
  let i := {| timestamp := [0]; evictable := false |} in
  let b := {| pool_size_ := 1; pages_ := [p]; page_table_ := {[ 0 := 0 ]};
              free_list_ := [];
              replacer_ := {| frame_table_ := {[ 0 := i ]};
                              current_timestamp_ := 1; curr_size_ := 0;
                              replacer_size_ := 1; k_ := 2 |};
              next_page_id_ := 1;
              disk_manager_ := disk |} in
  (1 ≤ INT32_MAX ∧ reachable 1 disk 2 b ∧ enumerates [(0, i)] (replacer_ b)) ∧
  ∃ b', FetchPgImp [(0, i)] 0 b = Ok (Some 0, b') ∧
        page_at b' 0 = Ok {| data_ := zero_page; page_id_ := 0;
                             pin_count_ := 2; is_dirty_ := false |} ∧
        disk_manager_ b' = disk.
Proof.
  intros disk p i b.
  assert (1 ≤ INT32_MAX) as Hsize by (unfold INT32_MAX; lia).
  assert (reachable 1 disk 2 b) as Hreach.
  { exists 1%nat. eapply (reach_call 1 disk 2 0 _ (NewPage []) b).
    - apply reach_new. reflexivity.
    - cbn [order_ok]. unfold enumerates. simpl. by rewrite map_to_list_empty.
    - reflexivity. }
  assert (enumerates [(0, i)] (replacer_ b)) as Hen.
  { unfold enumerates. simpl. by rewrite map_to_list_singleton. }
  split; [by split_and!|].
  destruct (FetchPgImp_effect 1 disk 2 b [(0, i)] 0 Hsize Hreach Hen) as [Hhit _].
  destruct (Hhit 0 eq_refl) as (q & Hq & _ & _ & _ & Hfetch).
  assert (q = p) as -> by (inversion Hq; reflexivity).
  destruct Hfetch as (b' & Hrun & Hpage & _ & _ & _ & Hdisk & _).
  { unfold INT32_MAX. simpl. lia. }
  exists b'. by split_and!.
Defined.

(** On every state reachable from a fresh pool of at most 2^31-1 frames,
    when [NewPgImp] returns a frame: the frame was unpinned and
    available; the page id returned is the counter's value and the
    counter moves by one; the frame now holds zeroes under that id, clean,
    pinned once and not evictable; no other frame and no other replacer
    record changes; the disk saw at most the write-back of a dirty
    victim; the page table lost only the page the frame held.  If the new
    id was not resident the page table now maps it to the frame.  If it
    was (a client had fetched that id before it was allocated) the page
    table is left as it was and the frame is orphaned: pinned, but not
    the page-table entry of any page. *)
Theorem NewPgImp_effect pool_size disk k b order page_id f b' :
  pool_size ≤ INT32_MAX →
  reachable pool_size disk k b →
  enumerates order (replacer_ b) →
  NewPgImp order b = Ok (Some (page_id, f), b') →
  ∃ p0, page_at b f = Ok p0 ∧ pin_count_ p0 = 0 ∧ available b f ∧
    page_id = next_page_id_ b ∧ next_page_id_ b' = cast32 (page_id + 1) ∧
    page_at b' f = Ok {| data_ := zero_page; page_id_ := page_id;
                         pin_count_ := 1; is_dirty_ := false |} ∧
    (∀ g, g ≠ f → page_at b' g = page_at b g) ∧
    free_list_ b' = tail (free_list_ b) ∧
    (∃ i, frame_table_ (replacer_ b') !! f = Some i ∧ evictable i = false) ∧
    (∀ g, g ≠ f →
          frame_table_ (replacer_ b') !! g = frame_table_ (replacer_ b) !! g) ∧
    calls (disk_manager_ b') =
      calls (disk_manager_ b) ++
      match free_list_ b with
      | [] => if is_dirty_ p0 then [WritePage (page_id_ p0) (data_ p0)] else []
      | _ => []
      end ∧
    let kept := match free_list_ b with
                | [] => delete (page_id_ p0) (page_table_ b)
                | _ => page_table_ b
                end in
    (kept !! page_id = None → page_table_ b' = <[page_id := f]> kept) ∧
    (∀ g, kept !! page_id = Some g →
          g ≠ f ∧ page_table_ b' = kept ∧ orphaned f b').
Proof.
  intros Hsize [n Hreach] Hen Hrun.
  pose proof (reachable_inv _ _ _ _ _ Hsize Hreach) as Hinv.
  pose proof (reachable_pinned _ _ _ _ _ Hreach) as Hpin.
  destruct (NewPgImp_inv _ _ _ _ _ Hrun)
    as (p0 & b1 & Hob & Hid & Hpages & Hpt & Hrep & Hfl & Hdisk & Hnext & _).
  destruct (obtain_frame_inv pool_size _ _ _ _ _ Hinv Hpin Hen Hob)
    as (Hp0 & Hzero & Hav & Hpages1 & Hfl1 & Hpt1 & Hvictim & Hgone & Hst1 & Hcalls1).
  assert (page_at b1 f = Ok p0) as Hp1 by (by rewrite (page_at_ext b1 b)).
  assert (page_at b' f = Ok {| data_ := zero_page; page_id_ := page_id;
                               pin_count_ := 1; is_dirty_ := false |}) as Hnew.
  { by rewrite (page_at_insert b1 b' f p0 _ f Hp1 Hpages), decide_True. }
  assert (∃ i, frame_table_ (replacer_ b') !! f = Some i ∧ evictable i = false) as Hrec.
  { rewrite Hrep. destruct (lookup_touch_eq (replacer_ b1) f) as (i' & Hi' & Hev & _).
    eauto. }
  exists p0. split_and!; try done.
  - intros g Hne. rewrite (page_at_insert b1 b' f p0 _ g Hp1 Hpages).
    rewrite decide_False by done. by apply page_at_ext.
  - congruence.
  - intros g Hne. rewrite Hrep, lookup_touch_ne by done.
    by apply (obtain_frame_others order b f p0 b1 g).
  - by rewrite Hdisk, Hcalls1.
  - rewrite <- Hpt1. cbv zeta. split.
    + intros Hfresh. rewrite Hpt. unfold emplace. by rewrite Hfresh.
    + intros g Hg.
      assert (page_table_ b' = page_table_ b1) as Hsame.
      { rewrite Hpt. unfold emplace. by rewrite Hg. }
      split_and!; [|done|].
      * intros ->. by apply (Hgone page_id).
      * split_and!.
        -- exists page_id, 1. split; [|lia].
           by apply (page_at_meta_at b' f) in Hnew.
        -- intros pid. rewrite Hsame. apply Hgone.
        -- rewrite Hfl, Hfl1. destruct Hinv as [Hcore _].
           pose proof (pc_free_nodup _ _ Hcore) as Hnd.
           destruct Hav as [Hin | [i [Hi Hev]]].
           ++ destruct (free_list_ b) as [|f0 rest] eqn:Hfree; [by apply elem_of_nil in Hin|].
              destruct (obtain_frame_Some _ _ _ _ _ Hen Hob) as (_ & _ & _ & _ & Hcase).
              destruct Hcase as [(Hfree' & _) | (Hfree' & _)]; [|congruence].
              rewrite Hfree in Hfree'. inversion Hfree'; subst f0.
              apply NoDup_cons in Hnd as [Hnotin _]. simpl. congruence.
           ++ intros Hin. destruct (free_list_ b) as [|f0 rest] eqn:Hfree;
                [by apply elem_of_nil in Hin|]. simpl in Hin.
              destruct (pc_free _ _ Hcore f) as (_ & Hnone & _);
                [rewrite Hfree; by right|]. congruence.
        -- intros i Hi. destruct Hrec as (i' & Hi' & Hev). congruence.
Qed.

Lemma NewPgImp_effect_witness :
  let disk := {| stored := ∅; calls := [] |} in
  let i := {| timestamp := [0]; evictable := false |} in
  let b := {| pool_size_ := 2;
              pages_ := [{| data_ := zero_page; page_id_ := 0;
                            pin_count_ := 1; is_dirty_ := false |}; Page_new];
              page_table_ := {[ 0 := 0 ]};
              free_list_ := [1];
              replacer_ := {| frame_table_ := {[ 0 := i ]};
                              current_timestamp_ := 1; curr_size_ := 0;
                              replacer_size_ := 2; k_ := 2 |};
              next_page_id_ := 0;
              disk_manager_ := {| stored := ∅; calls := [ReadPage 0] |} |} in
  (2 ≤ INT32_MAX ∧ reachable 2 disk 2 b ∧ enumerates [(0, i)] (replacer_ b)) ∧
  ∃ b', NewPgImp [(0, i)] b = Ok (Some (0, 1), b') ∧
        page_table_ b' = page_table_ b ∧ orphaned 1 b'.
Proof.
  intros disk i b.
  assert (2 ≤ INT32_MAX) as Hsize by (unfold INT32_MAX; lia).
  assert (reachable 2 disk 2 b) as Hreach.
  { exists 1%nat. eapply (reach_call 2 disk 2 0 _ (FetchPage [] 0) b).
    - apply reach_new. reflexivity.
    - cbn [order_ok]. unfold enumerates. simpl. by rewrite map_to_list_empty.
    - reflexivity. }
  assert (enumerates [(0, i)] (replacer_ b)) as Hen.
  { unfold enumerates. simpl. by rewrite map_to_list_singleton. }
  split; [by split_and!|].
  destruct (NewPgImp [(0, i)] b) as [[[[pid f]|] b']| |] eqn:Hrun;
    try (vm_compute in Hrun; discriminate).
  assert (pid = 0 ∧ f = 1) as [-> ->].
  { vm_compute in Hrun. inversion Hrun. done. }
  destruct (NewPgImp_effect 2 disk 2 b [(0, i)] 0 1 b' Hsize Hreach Hen Hrun)
    as (p0 & _ & _ & _ & _ & _ & _ & _ & _ & _ & _ & _ & _ & Horph).
  destruct (Horph 0 eq_refl) as (_ & Hsame & Ho).
  exists b'. by split_and!.
Defined.

(** ** Orphaned frames *)

Lemma obtain_frame_not_orphan f order b g p b1 :
  orphaned f b → enumerates order (replacer_ b) →
  obtain_frame order b = Ok (Some (g, p), b1) → g ≠ f.
Proof.
  intros (_ & _ & Hnfree & Hnev) Hen Hob ->.
  destruct (obtain_frame_Some _ _ _ _ _ Hen Hob) as (_ & _ & _ & _ & Hcase).
  destruct Hcase as [(Hfree & _) | (_ & _ & [i [Hi Hev]] & _)].
  - apply Hnfree. rewrite Hfree. left.
  - specialize (Hnev i Hi). congruence.
Qed.

Lemma transition_orphaned f b b' :
  transition b b' → orphaned f b → orphaned f b'.
Proof.
  intros Htr Horph. pose proof Horph as ((pid & pin & Hm & Hpos) & Hout & Hnfree & Hnev).
  destruct Htr as [Hmeta Ht Hfl Hr
                  |order f0 p b1 page_id q Hen Hob Hq Hpages Htab Hrep Hfl
                  |page_id f0 p q Hres Hp Hq Hpages Htab Hrep Hfl
                  |page_id f0 p q Hres Hp Hpin Hq Hpages Htab Hrep Hfl
                  |page_id f0 p q Hres Hp Hle Hq Hpages Htab Hrem Hfl].
  - split_and!.
    + exists pid, pin. by rewrite (meta_at_ext b b').
    + by rewrite Ht.
    + by rewrite Hfl.
    + by rewrite Hr.
  - pose proof (obtain_frame_not_orphan _ _ _ _ _ _ Horph Hen Hob) as Hne.
    destruct (obtain_frame_Some _ _ _ _ _ Hen Hob) as (Hp & Hpg1 & _ & _ & Hcase).
    assert (is_Some (meta_at b1 f0)) as Hsome.
    { rewrite (meta_at_ext b b1) by (by rewrite Hpg1).
      rewrite (page_at_meta_at _ _ _ Hp). eauto. }
    split_and!.
    + exists pid, pin. split; [|done].
      rewrite (meta_at_insert b1 b' f0 q f Hsome Hpages), decide_False by done.
      rewrite (meta_at_ext b b1); [done | by rewrite Hpg1].
    + intros pid' Hin. rewrite Htab in Hin.
      apply emplace_lookup_Some in Hin as [Hin | (_ & Heq & _)]; [|done].
      destruct Hcase as [(_ & _ & Hpt & _) | (_ & _ & _ & _ & _ & _ & _ & _ & Hpt & _)];
        rewrite Hpt in Hin.
      * by apply (Hout pid').
      * apply lookup_delete_Some in Hin as [_ Hin]. by apply (Hout pid').
    + rewrite Hfl.
      destruct Hcase as [(Hfree & _) | (_ & Hfree1 & _)].
      * intros Hin. apply Hnfree. rewrite Hfree. by right.
      * rewrite Hfree1. apply not_elem_of_nil.
    + intros i. rewrite Hrep, lookup_touch_ne by done.
      rewrite (obtain_frame_others order b f0 p b1 f) by done. apply Hnev.
  - assert (f0 ≠ f) as Hne by (intros ->; by apply (Hout page_id)).
    assert (is_Some (meta_at b f0)) as Hsome
      by (rewrite (page_at_meta_at _ _ _ Hp); eauto).
    split_and!.
    + exists pid, pin. split; [|done].
      by rewrite (meta_at_insert b b' f0 q f Hsome Hpages), decide_False.
    + by rewrite Htab.
    + by rewrite Hfl.
    + intros i. rewrite Hrep, lookup_touch_ne by done. apply Hnev.
  - assert (f0 ≠ f) as Hne by (intros ->; by apply (Hout page_id)).
    assert (is_Some (meta_at b f0)) as Hsome
      by (rewrite (page_at_meta_at _ _ _ Hp); eauto).
    split_and!.
    + exists pid, pin. split; [|done].
      by rewrite (meta_at_insert b b' f0 q f Hsome Hpages), decide_False.
    + by rewrite Htab.
    + by rewrite Hfl.
    + intros i. rewrite Hrep.
      destruct (pin_count_ p =? 1);
        [rewrite lookup_SetEvictable, decide_False by done|]; apply Hnev.
  - assert (f0 ≠ f) as Hne by (intros ->; by apply (Hout page_id)).
    assert (is_Some (meta_at b f0)) as Hsome
      by (rewrite (page_at_meta_at _ _ _ Hp); eauto).
    split_and!.
    + exists pid, pin. split; [|done].
      by rewrite (meta_at_insert b b' f0 q f Hsome Hpages), decide_False.
    + intros pid' Hin. rewrite Htab in Hin.
      apply lookup_delete_Some in Hin as [_ Hin]. by apply (Hout pid').
    + rewrite Hfl. intros [Hin | Hin%list_elem_of_singleton]%elem_of_app; [done|].
      by apply Hne.
    + intros i. apply Remove_Ok in Hrem as (Hdel & _).
      rewrite Hdel, lookup_delete_ne by done. apply Hnev.
Qed.

(** An orphaned frame is never recovered: whatever calls follow, the
    frame stays pinned, outside the page table, the free list and the
    evictable frames, and neither [NewPgImp] nor [FetchPgImp] ever
    returns it again. *)
Theorem orphaned_frame_never_recovered f cs : ∀ b b',
  orphaned f b → orders_ok cs b → run_all cs b = Ok b' →
  orphaned f b' ∧
  (∀ order page_id g b'', enumerates order (replacer_ b') →
     NewPgImp order b' = Ok (Some (page_id, g), b'') → g ≠ f) ∧
  (∀ order page_id g b'', enumerates order (replacer_ b') →
     FetchPgImp order page_id b' = Ok (Some g, b'') → g ≠ f).
Proof.
  induction cs as [|c cs IH]; intros b b' Horph Hok Hrun; simpl in *.
  - inversion Hrun; subst b'. clear Hrun. split_and!; [done| |].
    + intros order page_id g b'' Hen Hnew.
      destruct (NewPgImp_inv _ _ _ _ _ Hnew) as (p0 & b1 & Hob & _).
      by apply (obtain_frame_not_orphan f order b g p0 b1).
    + intros order page_id g b'' Hen Hfetch.
      destruct (page_table_ b !! page_id) as [g'|] eqn:Hres.
      * unfold FetchPgImp in Hfetch. rewrite Hres in Hfetch.
        apply obind_Ok in Hfetch as (p & _ & Hfetch).
        destruct (pin_count_ p =? INT32_MAX); [done|].
        inversion Hfetch; subst g'. intros ->.
        destruct Horph as (_ & Hout & _). by apply (Hout page_id).
      * destruct (FetchPgImp_miss_inv _ _ _ _ _ Hres Hfetch) as (p0 & b1 & Hob & _).
        by apply (obtain_frame_not_orphan f order b g p0 b1).
  - apply obind_Ok in Hrun as (b1 & Hc & Hrun). destruct Hok as [Hok Hoks].
    rewrite Hc in Hoks. apply (IH b1 b'); [|done|done].
    eapply transition_orphaned; [|exact Horph]. by apply (run_transition c).
Qed.

Lemma orphaned_frame_never_recovered_witness :
  let held := {| data_ := zero_page; page_id_ := 0; pin_count_ := 1; is_dirty_ := false |} in
  let b := {| pool_size_ := 2; pages_ := [held; held];
              page_table_ := {[ 0 := 0 ]};
              free_list_ := [];
              replacer_ :=
                {| frame_table_ := <[1 := {| timestamp := [1]; evictable := false |}]>
                                     {[ 0 := {| timestamp := [0]; evictable := false |} ]};
                   current_timestamp_ := 2; curr_size_ := 0;
                   replacer_size_ := 2; k_ := 2 |};
              next_page_id_ := 1;
              disk_manager_ := {| stored := ∅; calls := [ReadPage 0] |} |} in
  let cs := [UnpinPage 0 true; DeletePage 0] in
  (orphaned 1 b ∧ orders_ok cs b) ∧
  ∃ b', run_all cs b = Ok b' ∧ free_list_ b' = [0] ∧ orphaned 1 b'.
Proof.
  intros held b cs.
  assert (orphaned 1 b) as Horph.
  { split_and!.
    - exists 0, 1. split; [reflexivity|lia].
    - intros pid H. simpl in H. apply lookup_singleton_Some in H as [_ H].
      discriminate.
    - apply not_elem_of_nil.
    - intros i H. vm_compute in H. by inversion H. }
  assert (orders_ok cs b) as Hok by (vm_compute; tauto).
  split; [by split|].
  destruct (run_all cs b) as [b'| |] eqn:Hrun; try (vm_compute in Hrun; discriminate).
  destruct (orphaned_frame_never_recovered 1 cs b b' Horph Hok Hrun) as [Hstill _].
  exists b'. split_and!; [done| |done].
  vm_compute in Hrun. by inversion Hrun.
Defined.

(** ** The pool: what [Size] of the replacer counts *)

Lemma unpinned_resident_evictable pool_size b f :
  pool_inv pool_size b → pinned_not_evictable b →
  f ∈ unpinned_resident b ↔ ∃ i, evictable_frame (replacer_ b) f i.
Proof.
  intros [Hcore _] Hpin. unfold unpinned_resident, unpinned_resident_frame.
  rewrite list_elem_of_filter, elem_of_seqZ. split.
  - intros [Hf _]. destruct (page_at b f) as [p| |] eqn:Hp; try done.
    apply andb_true_iff in Hf as [Hzero Hres]. zbool.
    apply bool_decide_eq_true in Hres.
    destruct (pc_resident _ _ Hcore _ _ Hres) as (pin & i & Hm & Hi & Hev).
    rewrite (page_at_meta_at _ _ _ Hp) in Hm. exists i. split; [done|].
    apply Hev. congruence.
  - intros [i [Hi Hev]].
    destruct (pc_evictable _ _ Hcore f i (conj Hi Hev)) as (pid & pin & Hm & Hres).
    pose proof (pc_pins _ _ Hcore _ _ _ Hm) as Hpos.
    apply meta_at_page in Hm as (p & Hp & Hfm).
    assert (page_id_ p = pid ∧ pin_count_ p = pin) as [Hid Hpc]
      by (unfold frame_meta in Hfm; split; congruence).
    assert (pin_count_ p = 0) as Hzero.
    { destruct (decide (0 < pin_count_ p)) as [Hgt|]; [|lia].
      pose proof (Hpin f p i Hp Hgt Hi). congruence. }
    rewrite Hp. split.
    + apply andb_true_iff. split; [by apply Z.eqb_eq|].
      apply bool_decide_eq_true. congruence.
    + apply page_at_Ok in Hp as [Hf Hp]. apply lookup_lt_Some in Hp. lia.
Qed.

Lemma evictable_count_pool pool_size b :
  pool_inv pool_size b → pinned_not_evictable b →
  evictable_count (replacer_ b) = Z.of_nat (length (unpinned_resident b)).
Proof.
  intros Hinv Hpin. unfold evictable_count. f_equal.
  rewrite <- size_dom.
  rewrite <- (size_list_to_set (C := gset Z) (unpinned_resident b))
    by (apply NoDup_filter, NoDup_seqZ).
  f_equal. apply set_eq. intros f.
  rewrite elem_of_dom, elem_of_list_to_set.
  rewrite (unpinned_resident_evictable pool_size b f Hinv Hpin).
  unfold evictable_frame. split.
  - intros [i Hi]. apply map_lookup_filter_Some in Hi as [Hi Hev]. by exists i.
  - intros [i [Hi Hev]]. exists i. by apply map_lookup_filter_Some.
Qed.

Lemma unpinned_resident_bound pool_size b :
  pool_size ≤ INT32_MAX → pool_inv pool_size b →
  Z.of_nat (length (unpinned_resident b)) ≤ Z.max pool_size 0 ∧
  Z.max pool_size 0 ≤ SIZE_MAX.
Proof.
  intros Hsize [Hcore _]. unfold unpinned_resident. split.
  - pose proof (length_filter (λ f, unpinned_resident_frame b f = true)
                  (seqZ 0 (Z.of_nat (length (pages_ b))))) as Hle.
    rewrite length_seqZ, Nat2Z.id in Hle. rewrite (pc_frames _ _ Hcore) in *. lia.
  - unfold INT32_MAX, SIZE_MAX in *. lia.
Qed.

Lemma counted_touch r f :
  curr_size_ r = evictable_count r → evictable_count r ≤ SIZE_MAX →
  curr_size_ (SetEvictable f false (RecordAccess f r)) =
    evictable_count (SetEvictable f false (RecordAccess f r)).
Proof.
  intros Hc Hle. apply counted_SetEvictable.
  - rewrite evictable_count_RecordAccess. exact Hc.
  - rewrite evictable_count_SetEvictable, evictable_count_RecordAccess.
    destruct (evictable (table_at (RecordAccess f r) f)); simpl; lia.
Qed.

Lemma transition_counted pool_size b b' :
  pool_size ≤ INT32_MAX →
  pool_inv pool_size b → pinned_not_evictable b →
  pool_inv pool_size b' → pinned_not_evictable b' →
  transition b b' →
  curr_size_ (replacer_ b) = evictable_count (replacer_ b) →
  curr_size_ (replacer_ b') = evictable_count (replacer_ b').
Proof.
  intros Hsize Hinv Hpin Hinv' Hpin' Htr Hc.
  assert (evictable_count (replacer_ b) ≤ SIZE_MAX) as Hb.
  { rewrite (evictable_count_pool pool_size b Hinv Hpin).
    pose proof (unpinned_resident_bound pool_size b Hsize Hinv). lia. }
  assert (evictable_count (replacer_ b') ≤ SIZE_MAX) as Hb'.
  { rewrite (evictable_count_pool pool_size b' Hinv' Hpin').
    pose proof (unpinned_resident_bound pool_size b' Hsize Hinv'). lia. }
  destruct Htr as [Hmeta Ht Hfl Hr
                  |order f0 p b1 page_id q Hen Hob Hq Hpages Htab Hrep Hfl
                  |page_id f0 p q Hres Hp Hq Hpages Htab Hrep Hfl
                  |page_id f0 p q Hres Hp Hpos Hq Hpages Htab Hrep Hfl
                  |page_id f0 p q Hres Hp Hle Hq Hpages Htab Hrem Hfl].
  - by rewrite Hr.
  - rewrite Hrep.
    destruct (obtain_frame_Some _ _ _ _ _ Hen Hob) as (_ & _ & _ & _ & Hcase).
    destruct Hcase as [(_ & Hr1 & _) | (_ & _ & _ & Hev & _)].
    + rewrite Hr1. by apply counted_touch.
    + destruct (counted_Evict _ _ _ _ Hen Hev Hc Hb) as [Hc1 Hle1].
      apply counted_touch; [done|lia].
  - rewrite Hrep. by apply counted_touch.
  - rewrite Hrep in *. destruct (pin_count_ p =? 1); [|done].
    by apply counted_SetEvictable.
  - by destruct (counted_Remove _ _ _ Hrem Hc Hb).
Qed.

Lemma reachable_counted pool_size disk k n b :
  pool_size ≤ INT32_MAX → reachable_in pool_size disk k n b →
  curr_size_ (replacer_ b) = evictable_count (replacer_ b).
Proof.
  intros Hsize. induction 1 as [b Hnew | n b c b' Hreach IH Hok Hrun].
  - inversion Hnew; subst. unfold evictable_count. simpl.
    by rewrite map_filter_empty, map_size_empty.
  - pose proof (reach_call _ _ _ _ _ _ _ Hreach Hok Hrun) as Hreach'.
    apply (transition_counted pool_size b b'); try done.
    + by apply (reachable_inv _ _ _ _ _ Hsize Hreach).
    + by apply (reachable_pinned _ _ _ _ _ Hreach).
    + by apply (reachable_inv _ _ _ _ _ Hsize Hreach').
    + by apply (reachable_pinned _ _ _ _ _ Hreach').
    + by apply (run_transition c).
Qed.

(** In every state reachable from a fresh pool of at most 2^31-1 frames,
    [Size] of the pool's replacer is the number of frames that hold a
    resident page with pin count zero; these are exactly the frames the
    replacer has marked evictable, and there are at most [pool_size] of
    them. *)
Theorem replacer_Size_counts_unpinned_resident pool_size disk k b :
  pool_size ≤ INT32_MAX →
  reachable pool_size disk k b →
  Size (replacer_ b) = Z.of_nat (length (unpinned_resident b)) ∧
  0 ≤ Size (replacer_ b) ≤ Z.max pool_size 0 ∧
  (∀ f, f ∈ unpinned_resident b ↔ ∃ i, evictable_frame (replacer_ b) f i).
Proof.
  intros Hsize [n Hreach].
  pose proof (reachable_inv _ _ _ _ _ Hsize Hreach) as Hinv.
  pose proof (reachable_pinned _ _ _ _ _ Hreach) as Hpin.
  pose proof (reachable_counted _ _ _ _ _ Hsize Hreach) as Hc.
  pose proof (evictable_count_pool pool_size b Hinv Hpin) as Hcount.
  pose proof (unpinned_resident_bound pool_size b Hsize Hinv) as [Hle _].
  unfold Size. rewrite Hc, Hcount. split_and!; [done|lia|lia|].
  intros f. by apply (unpinned_resident_evictable pool_size).
Qed.

Lemma replacer_Size_counts_unpinned_resident_witness :
  let disk := {| stored := ∅; calls := [] |} in
  let b := {| pool_size_ := 1;
              pages_ := [{| data_ := zero_page; page_id_ := 0;
                            pin_count_ := 0; is_dirty_ := false |}];
              page_table_ := {[ 0 := 0 ]};
              free_list_ := [];
              replacer_ := {| frame_table_ := {[ 0 := {| timestamp := [0]; evictable := true |} ]};
                              current_timestamp_ := 1; curr_size_ := 1;
                              replacer_size_ := 1; k_ := 2 |};
              next_page_id_ := 1;
              disk_manager_ := disk |} in
  (1 ≤ INT32_MAX ∧ reachable 1 disk 2 b) ∧
  Size (replacer_ b) = Z.of_nat (length (unpinned_resident b)) ∧
  unpinned_resident b = [0].
Proof.
  intros disk b.
  assert (1 ≤ INT32_MAX) as Hsize by (unfold INT32_MAX; lia).
  assert (reachable 1 disk 2 b) as Hreach.
  { exists 2%nat.
    eapply (reach_call 1 disk 2 1 _ (UnpinPage 0 false) b);
      [eapply (reach_call 1 disk 2 0 _ (NewPage []));
         [apply reach_new; reflexivity | | reflexivity]
      | exact I | reflexivity].
    cbn [order_ok]. unfold enumerates. simpl. by rewrite map_to_list_empty. }
  split; [by split|].
  split; [|reflexivity].
  exact (proj1 (replacer_Size_counts_unpinned_resident 1 disk 2 b Hsize Hreach)).
Defined.

(** ** A fetch and its unpin *)

Lemma unpinned_resident_ext b b' :
  pages_ b' = pages_ b → page_table_ b' = page_table_ b →
  unpinned_resident b' = unpinned_resident b.
Proof.
  unfold unpinned_resident, unpinned_resident_frame, page_at. by intros -> ->.
Qed.

(** On every state reachable from a fresh pool of at most 2^31-1 frames,
    fetching a resident page whose pin count is below 2^31-1 and then
    unpinning it without the dirty flag both succeed and give back the
    frames, the page table, the free list, the disk and the page-id
    counter as they were; in the replacer, [Size] and every frame's
    evictable flag are as before and no record other than the fetched
    frame's has changed. *)
Theorem Fetch_then_Unpin_restores pool_size disk k b order page_id f p :
  pool_size ≤ INT32_MAX →
  reachable pool_size disk k b →
  page_table_ b !! page_id = Some f →
  page_at b f = Ok p →
  pin_count_ p < INT32_MAX →
  ∃ b1 b2,
    FetchPgImp order page_id b = Ok (Some f, b1) ∧
    UnpinPgImp page_id false b1 = Ok (true, b2) ∧
    pages_ b2 = pages_ b ∧ page_table_ b2 = page_table_ b ∧
    free_list_ b2 = free_list_ b ∧ disk_manager_ b2 = disk_manager_ b ∧
    next_page_id_ b2 = next_page_id_ b ∧
    Size (replacer_ b2) = Size (replacer_ b) ∧
    (∀ g i, frame_table_ (replacer_ b) !! g = Some i →
       ∃ i2, frame_table_ (replacer_ b2) !! g = Some i2 ∧
             evictable i2 = evictable i ∧ (g ≠ f → i2 = i)) ∧
    (∀ g, frame_table_ (replacer_ b) !! g = None →
          frame_table_ (replacer_ b2) !! g = None).
Proof.
  intros Hsize [n Hreach] Hhit Hp Hlt.
  pose proof (reachable_inv _ _ _ _ _ Hsize Hreach) as Hinv.
  pose proof (reachable_pinned _ _ _ _ _ Hreach) as Hpin.
  destruct (pc_resident _ _ (proj1 Hinv) _ _ Hhit) as (pin & i0 & Hm & Hi0 & Hev0).
  pose proof (pc_pins _ _ (proj1 Hinv) _ _ _ Hm) as Hpos.
  rewrite (page_at_meta_at _ _ _ Hp) in Hm.
  assert (pin = pin_count_ p) as -> by congruence. clear Hm.
  set (p1 := {| data_ := data_ p; page_id_ := page_id_ p;
                pin_count_ := pin_count_ p + 1; is_dirty_ := is_dirty_ p |}).
  set (r1 := SetEvictable f false (RecordAccess f (replacer_ b))).
  set (b1 := set_replacer r1 (store_page f p1 b)).
  assert (∀ o, FetchPgImp o page_id b = Ok (Some f, b1)) as Hfetch.
  { intros o. unfold FetchPgImp. rewrite Hhit, Hp, bind_Ok.
    by rewrite (proj2 (Z.eqb_neq _ _)) by lia. }
  assert (page_at b1 f = Ok p1) as Hp1.
  { erewrite (page_at_insert b b1 f p p1 f Hp) by reflexivity.
    by rewrite decide_True. }
  set (p2 := {| data_ := data_ p1; page_id_ := page_id_ p1;
                pin_count_ := pin_count_ p1 - 1; is_dirty_ := is_dirty_ p1 |}).
  set (r2 := if pin_count_ p2 =? 0 then SetEvictable f true r1 else r1).
  set (b2 := set_replacer r2 (store_page f p2 b1)).
  assert (UnpinPgImp page_id false b1 = Ok (true, b2)) as Hunpin.
  { unfold UnpinPgImp. change (page_table_ b1) with (page_table_ b).
    rewrite Hhit, Hp1, bind_Ok.
    rewrite (proj2 (Z.leb_gt _ _)) by (simpl; lia). cbv zeta.
    fold p2. unfold b2, r2. destruct (pin_count_ p2 =? 0); [done|].
    by destruct b. }
  assert (p2 = p) as Hback.
  { unfold p2, p1. destruct p. simpl. f_equal. lia. }
  assert (pages_ b2 = pages_ b) as Hpages.
  { unfold b2, b1. simpl. rewrite list_insert_insert_eq, Hback.
    apply list_insert_id. by apply page_at_Ok in Hp as [_ Hp]. }
  assert (reachable_in pool_size disk k (S (S n)) b2) as Hreach2.
  { eapply (reach_call _ _ _ _ b1 (UnpinPage page_id false));
      [eapply (reach_call _ _ _ _ b
                 (FetchPage (map_to_list (frame_table_ (replacer_ b))) page_id));
         [exact Hreach | cbn [order_ok]; unfold enumerates; reflexivity |]
      | exact I |].
    - cbn [run]. by rewrite Hfetch.
    - cbn [run]. by rewrite Hunpin. }
  exists b1, b2. split_and!; try done.
  - unfold Size.
    rewrite (reachable_counted _ _ _ _ _ Hsize Hreach2).
    rewrite (reachable_counted _ _ _ _ _ Hsize Hreach).
    rewrite (evictable_count_pool pool_size b2)
      by (by eauto using reachable_inv, reachable_pinned).
    rewrite (evictable_count_pool pool_size b) by done.
    by rewrite (unpinned_resident_ext b b2).
  - intros g i Hi. change (replacer_ b2) with r2. unfold r2.
    rewrite Hback. destruct (decide (g = f)) as [->|Hne].
    + assert (i = i0) as -> by congruence.
      destruct (lookup_touch_eq (replacer_ b) f) as (i1 & Hi1 & Hev1 & _).
      fold r1 in Hi1.
      destruct (pin_count_ p =? 0) eqn:Hzero; zbool.
      * rewrite lookup_SetEvictable, decide_True by done. eexists.
        split; [reflexivity|]. split; [|done]. simpl. symmetry. by apply Hev0.
      * exists i1. split_and!; [done| |done]. rewrite Hev1. symmetry.
        apply (Hpin f p i0); [done|lia|done].
    + exists i. split_and!; try done.
      destruct (pin_count_ p =? 0);
        [rewrite lookup_SetEvictable, decide_False by done|];
        unfold r1; by rewrite lookup_touch_ne.
  - intros g Hnone. assert (g ≠ f) as Hne by congruence.
    change (replacer_ b2) with r2. unfold r2.
    destruct (pin_count_ p2 =? 0);
      [rewrite lookup_SetEvictable, decide_False by done|];
      unfold r1; by rewrite lookup_touch_ne.
Qed.

Lemma Fetch_then_Unpin_restores_witness :
  let disk := {| stored := ∅; calls := [] |} in
  let p := {| data_ := zero_page; page_id_ := 0; pin_count_ := 1; is_dirty_ := false |} in
  let i := {| timestamp := [0]; evictable := false |} in
  let b := {| pool_size_ := 1; pages_ := [p]; page_table_ := {[ 0 := 0 ]};
              free_list_ := [];
              replacer_ := {| frame_table_ := {[ 0 := i ]};
                              current_timestamp_ := 1; curr_size_ := 0;
                              replacer_size_ := 1; k_ := 2 |};
              next_page_id_ := 1;
              disk_manager_ := disk |} in
  (1 ≤ INT32_MAX ∧ reachable 1 disk 2 b ∧ page_table_ b !! 0 = Some 0 ∧
   page_at b 0 = Ok p ∧ pin_count_ p < INT32_MAX) ∧
  ∃ b1 b2, FetchPgImp [(0, i)] 0 b = Ok (Some 0, b1) ∧
           UnpinPgImp 0 false b1 = Ok (true, b2) ∧
           pages_ b2 = [p] ∧ Size (replacer_ b2) = 0.
Proof.
  intros disk p i b.
  assert (1 ≤ INT32_MAX) as Hsize by (unfold INT32_MAX; lia).
  assert (reachable 1 disk 2 b) as Hreach.
  { exists 1%nat. eapply (reach_call 1 disk 2 0 _ (NewPage []) b).
    - apply reach_new. reflexivity.
    - cbn [order_ok]. unfold enumerates. simpl. by rewrite map_to_list_empty.
    - reflexivity. }
  assert (page_table_ b !! 0 = Some 0) as Hhit by reflexivity.
  assert (page_at b 0 = Ok p) as Hp by reflexivity.
  assert (pin_count_ p < INT32_MAX) as Hlt by (unfold INT32_MAX; simpl; lia).
  split; [by split_and!|].
  destruct (Fetch_then_Unpin_restores 1 disk 2 b [(0, i)] 0 0 p Hsize Hreach Hhit Hp Hlt)
    as (b1 & b2 & Hfetch & Hunpin & Hpages & _ & _ & _ & _ & Hsz & _).
  exists b1, b2. by split_and!.
Defined.

(** ** A dirty page comes back as it was evicted *)

Lemma emplace_lookup_None k v (m : gmap Z Z) k' :
  k' ≠ k → m !! k' = None → emplace k v m !! k' = None.
Proof.
  intros Hne Hnone. unfold emplace. destruct (m !! k); [done|].
  by rewrite lookup_insert_ne.
Qed.

(** The frame a fetch of a page that is not resident returns holds the
    bytes the disk stored for the page before the call. *)
Lemma FetchPgImp_miss_page pool_size order page_id b g b' :
  pool_inv pool_size b → pinned_not_evictable b →
  enumerates order (replacer_ b) →
  page_table_ b !! page_id = None →
  FetchPgImp order page_id b = Ok (Some g, b') →
  page_at b' g =
    Ok {| data_ := default zero_page (stored (disk_manager_ b) !! page_id);
          page_id_ := page_id; pin_count_ := 1; is_dirty_ := false |}.
Proof.
  intros Hinv Hpin Hen Hmiss Hrun.
  destruct (FetchPgImp_miss_inv _ _ _ _ _ Hmiss Hrun)
    as (p0 & b1 & Hob & Hpages & _).
  destruct (obtain_frame_inv pool_size _ _ _ _ _ Hinv Hpin Hen Hob)
    as (Hp0 & _ & _ & Hpages1 & _ & _ & Hvictim & _ & Hst1 & _).
  assert (page_at b1 g = Ok p0) as Hp1 by (by rewrite (page_at_ext b1 b)).
  rewrite (page_at_insert b1 b' g p0 _ g Hp1 Hpages), decide_True by done.
  do 2 f_equal. rewrite Hst1.
  destruct (free_list_ b) as [|f0 rest]; [|done].
  destruct (is_dirty_ p0); [|done].
  rewrite lookup_insert_ne; [done|]. intros Heq.
  specialize (Hvictim eq_refl). congruence.
Qed.

(** On a state that satisfies the bookkeeping invariants, whatever bytes
    its frames hold: when the free list is empty and a fetch of a page
    that is not resident evicts frame [f], whose page [p] is dirty, then
    [p]'s page is no longer resident, the disk stores [p]'s bytes under
    its page id, and the next fetch of that page, whichever frame it
    gets, returns exactly those bytes, clean and pinned once. *)
Theorem dirty_page_survives_eviction pool_size b order q f b1 p order1 g b2 :
  pool_inv pool_size b → pinned_not_evictable b →
  enumerates order (replacer_ b) →
  free_list_ b = [] →
  page_table_ b !! q = None →
  FetchPgImp order q b = Ok (Some f, b1) →
  page_at b f = Ok p → is_dirty_ p = true →
  enumerates order1 (replacer_ b1) →
  FetchPgImp order1 (page_id_ p) b1 = Ok (Some g, b2) →
  page_table_ b1 !! page_id_ p = None ∧
  stored (disk_manager_ b1) !! page_id_ p = Some (data_ p) ∧
  page_at b2 g = Ok {| data_ := data_ p; page_id_ := page_id_ p;
                       pin_count_ := 1; is_dirty_ := false |}.
Proof.
  intros Hinv Hpin Hen Hfree Hmiss Hrun Hp Hdirty Hen1 Hrun1.
  destruct (FetchPgImp_miss_inv _ _ _ _ _ Hmiss Hrun)
    as (p0 & b0 & Hob & _ & Hpt & _ & _ & Hst & _).
  destruct (obtain_frame_inv pool_size _ _ _ _ _ Hinv Hpin Hen Hob)
    as (Hp0 & _ & _ & _ & _ & Hpt0 & Hvictim & _ & Hst0 & _).
  assert (p0 = p) as -> by congruence.
  rewrite Hfree in Hpt0, Hst0. rewrite Hdirty in Hst0. specialize (Hvictim Hfree).
  assert (page_table_ b1 !! page_id_ p = None) as Hgone.
  { rewrite Hpt. apply emplace_lookup_None; [congruence|].
    rewrite Hpt0. apply lookup_delete_eq. }
  assert (stored (disk_manager_ b1) !! page_id_ p = Some (data_ p)) as Hdisk.
  { rewrite Hst, Hst0. apply lookup_insert_eq. }
  assert (transition b b1) as Htr.
  { apply (run_transition (FetchPage order q)); [done|].
    cbn [run]. by rewrite Hrun. }
  pose proof (transition_inv _ _ _ Hinv Htr) as Hinv1.
  pose proof (transition_pinned _ _ Htr Hpin) as Hpin1.
  split_and!; [done|done|].
  rewrite (FetchPgImp_miss_page pool_size order1 (page_id_ p) b1 g b2) by done.
  by rewrite Hdisk.
Qed.

Lemma run_all_reachable pool_size disk k cs : ∀ n b b',
  reachable_in pool_size disk k n b → orders_ok cs b → run_all cs b = Ok b' →
  reachable_in pool_size disk k (length cs + n) b'.
Proof.
  induction cs as [|c cs IH]; intros n b b' Hreach Hok Hrun; simpl in *.
  - by inversion Hrun; subst.
  - apply obind_Ok in Hrun as (b1 & Hc & Hrun). destruct Hok as [Hok Hoks].
    rewrite Hc in Hoks.
    replace (S (length cs + n)) with (length cs + S n)%nat by lia.
    apply (IH (S n) b1 b'); [|done|done].
    by apply (reach_call _ _ _ _ b c).
Qed.

Lemma dirty_page_survives_eviction_witness :
  let disk := {| stored := ∅; calls := [] |} in
  let p := {| data_ := zero_page; page_id_ := 0; pin_count_ := 0; is_dirty_ := true |} in
  let i0 := {| timestamp := [0]; evictable := true |} in
  let i1 := {| timestamp := [1]; evictable := true |} in
  let b := {| pool_size_ := 2;
              pages_ := [p; {| data_ := zero_page; page_id_ := 1;
                               pin_count_ := 0; is_dirty_ := false |}];
              page_table_ := <[1 := 1]> {[ 0 := 0 ]};
              free_list_ := [];
              replacer_ := {| frame_table_ := <[1 := i1]> {[ 0 := i0 ]};
                              current_timestamp_ := 2; curr_size_ := 2;
                              replacer_size_ := 2; k_ := 2 |};
              next_page_id_ := 2;
              disk_manager_ := disk |} in
  let order := [(0, i0); (1, i1)] in
  let order1 := [(0, {| timestamp := [2]; evictable := false |}); (1, i1)] in
  (pool_inv 2 b ∧ pinned_not_evictable b ∧ enumerates order (replacer_ b) ∧
   page_at b 0 = Ok p ∧ is_dirty_ p = true) ∧
  ∃ b1 b2, FetchPgImp order 7 b = Ok (Some 0, b1) ∧
           FetchPgImp order1 0 b1 = Ok (Some 1, b2) ∧
           page_at b2 1 = Ok {| data_ := zero_page; page_id_ := 0;
                                pin_count_ := 1; is_dirty_ := false |}.
Proof.
  intros disk p i0 i1 b order order1.
  assert (2 ≤ INT32_MAX) as Hsize by (unfold INT32_MAX; lia).
  set (cs := [NewPage []; NewPage [(0, {| timestamp := [0]; evictable := false |})];
              UnpinPage 0 true; UnpinPage 1 false]).
  assert (reachable_in 2 disk 2 (length cs + 0) b) as Hreach.
  { eapply (run_all_reachable 2 disk 2 cs 0).
    - apply reach_new. reflexivity.
    - simpl. split_and!; try done; unfold enumerates; vm_compute; reflexivity.
    - reflexivity. }
  pose proof (reachable_inv _ _ _ _ _ Hsize Hreach) as Hinv.
  pose proof (reachable_pinned _ _ _ _ _ Hreach) as Hpin.
  assert (enumerates order (replacer_ b)) as Hen.
  { unfold enumerates. simpl. rewrite map_to_list_insert by reflexivity.
    rewrite map_to_list_singleton. apply perm_swap. }
  assert (page_at b 0 = Ok p) as Hp by reflexivity.
  split; [by split_and!|].
  destruct (FetchPgImp order 7 b) as [[[f|] b1]| |] eqn:Hrun;
    try (vm_compute in Hrun; discriminate).
  assert (f = 0) as -> by (vm_compute in Hrun; by inversion Hrun).
  destruct (FetchPgImp order1 0 b1) as [[[g|] b2]| |] eqn:Hrun1;
    try (vm_compute in Hrun; inversion Hrun; subst b1;
         vm_compute in Hrun1; discriminate).
  assert (g = 1) as ->.
  { vm_compute in Hrun; inversion Hrun; subst b1.
    vm_compute in Hrun1; by inversion Hrun1. }
  assert (enumerates order1 (replacer_ b1)) as Hen1.
  { assert (replacer_ b1 =
              {| frame_table_ := <[0 := {| timestamp := [2]; evictable := false |}]>
                                   {[ 1 := i1 ]};
                 current_timestamp_ := 3; curr_size_ := 1;
                 replacer_size_ := 2; k_ := 2 |}) as ->.
    { vm_compute in Hrun; inversion Hrun; subst b1. reflexivity. }
    unfold enumerates. simpl. rewrite map_to_list_insert by reflexivity.
    by rewrite map_to_list_singleton. }
  destruct (dirty_page_survives_eviction 2 b order 7 0 b1 p order1 1 b2
              Hinv Hpin Hen eq_refl eq_refl Hrun Hp eq_refl Hen1 Hrun1)
    as (_ & _ & Hback).
  exists b1, b2. by split_and!.
Defined.

(** ** Filling a fresh pool *)

Lemma filling_new pool_size disk k b :
  BufferPoolManagerInstance_new pool_size disk k = Ok b →
  filling 0 b ∧ length (pages_ b) = Z.to_nat pool_size.
Proof.
  intros H. inversion H; subst. clear H. split; [constructor|]; simpl.
  - done.
  - by rewrite length_replicate, Nat.sub_0_r.
  - intros pid [x Hx]. by rewrite lookup_empty in Hx.
  - intros f i Hi. by rewrite lookup_empty in Hi.
  - by rewrite length_replicate.
Qed.

Lemma filling_NewPgImp m b order :
  filling m b → (m < length (pages_ b))%nat →
  Z.of_nat (length (pages_ b)) ≤ INT32_MAX →
  ∃ b', NewPgImp order b = Ok (Some (Z.of_nat m, Z.of_nat m), b') ∧
        filling (S m) b' ∧ length (pages_ b') = length (pages_ b).
Proof.
  intros [Hnext Hfree Hres Hpinned] Hlt Hmax.
  replace (length (pages_ b) - m)%nat with (S (length (pages_ b) - S m)) in Hfree by lia.
  simpl in Hfree. rewrite cast32_small in Hfree
    by (unfold is_int32, INT32_MAX in *; lia).
  destruct (lookup_lt_is_Some_2 (pages_ b) m Hlt) as [p Hp].
  assert (page_at b (Z.of_nat m) = Ok p) as Hat.
  { apply page_at_Ok. split; [lia|]. by rewrite Nat2Z.id. }
  unfold NewPgImp, obtain_frame. rewrite Hfree, Hat, !bind_Ok. cbv zeta.
  simpl. rewrite Hnext.
  eexists. split; [reflexivity|]. simpl. rewrite length_insert.
  split; [constructor|done]; simpl.
  - rewrite cast32_small by (unfold is_int32, INT32_MAX in *; lia). lia.
  - by rewrite length_insert.
  - intros pid [g Hg]. apply emplace_lookup_Some in Hg as [Hg | (-> & _)].
    + specialize (Hres pid (ex_intro _ g Hg)). lia.
    + lia.
  - intros f i Hi. destruct (decide (Z.of_nat m = f)) as [<-|Hne].
    + destruct (lookup_touch_eq (replacer_ b) (Z.of_nat m)) as (i' & Hi' & Hev & _).
      congruence.
    + rewrite lookup_touch_ne in Hi by done. by apply (Hpinned f i).
Qed.

Lemma filling_run_all orders : ∀ m b,
  filling m b → (m + length orders ≤ length (pages_ b))%nat →
  Z.of_nat (length (pages_ b)) ≤ INT32_MAX →
  ∃ b', run_all (NewPage <$> orders) b = Ok b' ∧
        filling (m + length orders) b' ∧ length (pages_ b') = length (pages_ b).
Proof.
  induction orders as [|order orders IH]; intros m b Hfill Hle Hmax; simpl in *.
  - exists b. by rewrite Nat.add_0_r.
  - destruct (filling_NewPgImp m b order Hfill) as (b1 & Hrun & Hfill1 & Hlen1);
      [lia|done|].
    destruct (IH (S m) b1 Hfill1) as (b' & Hall & Hfill' & Hlen'); [lia|lia|].
    exists b'. rewrite Hrun. simpl.
    split; [exact Hall|]. split; [|lia].
    by replace (m + S (length orders))%nat with (S m + length orders)%nat by lia.
Qed.

(** On a fresh pool of [pool_size <= 2^31-1] frames, any [m <= pool_size]
    calls of [NewPgImp] in a row all return; if [m < pool_size] the next
    call of [NewPgImp] returns page id [m] in frame [m]: the frames are
    handed out in index order and the pages numbered from 0; if
    [m = pool_size] the next call returns no page and changes nothing. *)
Theorem fresh_pool_fills_in_order pool_size disk k b0 orders :
  pool_size ≤ INT32_MAX →
  BufferPoolManagerInstance_new pool_size disk k = Ok b0 →
  Z.of_nat (length orders) ≤ pool_size →
  ∃ b, run_all (NewPage <$> orders) b0 = Ok b ∧
    (Z.of_nat (length orders) < pool_size →
     ∀ order, ∃ b', NewPgImp order b =
                      Ok (Some (Z.of_nat (length orders), Z.of_nat (length orders)), b')) ∧
    (Z.of_nat (length orders) = pool_size →
     ∀ order, enumerates order (replacer_ b) → NewPgImp order b = Ok (None, b)).
Proof.
  intros Hsize Hnew Hle.
  destruct (filling_new _ _ _ _ Hnew) as [Hfill0 Hlen0].
  destruct (filling_run_all orders 0 b0 Hfill0) as (b & Hall & Hfill & Hlen);
    [lia|lia|].
  simpl in Hfill. exists b. split_and!; [done| |].
  - intros Hlt order.
    destruct (filling_NewPgImp (length orders) b order Hfill) as (b' & Hrun & _);
      [lia|lia|]. by exists b'.
  - intros Heq order Hen. destruct Hfill as [_ Hfree _ Hpinned].
    replace (length (pages_ b) - length orders)%nat with 0%nat in Hfree by lia.
    unfold NewPgImp, obtain_frame. rewrite Hfree. simpl.
    by rewrite (Evict_nothing_evictable _ _ Hen Hpinned).
Qed.

Lemma fresh_pool_fills_in_order_witness :
  let disk := {| stored := ∅; calls := [] |} in
  ∃ b0 b b',
    (3 ≤ INT32_MAX ∧ BufferPoolManagerInstance_new 3 disk 2 = Ok b0 ∧
     Z.of_nat (length [[]; [] : list (Z * FrameInfo)]) ≤ 3) ∧
    run_all [NewPage []; NewPage []] b0 = Ok b ∧
    NewPgImp [] b = Ok (Some (2, 2), b').
Proof.
  intros disk.
  assert (3 ≤ INT32_MAX) as Hsize by (unfold INT32_MAX; lia).
  destruct (BufferPoolManagerInstance_new 3 disk 2) as [b0| |] eqn:Hnew; try discriminate.
  assert (Z.of_nat (length [[]; [] : list (Z * FrameInfo)]) ≤ 3) as Hle by (simpl; lia).
  destruct (fresh_pool_fills_in_order 3 disk 2 b0 [[]; []] Hsize Hnew Hle)
    as (b & Hall & Hnext & _).
  destruct (Hnext ltac:(simpl; lia) []) as [b' Hrun].
  exists b0, b, b'. by split_and!.
Defined.

(** ** The pool evicts by the LRU-K policy *)

Lemma obtain_frame_victim pool_size disk k n b order f p0 b1 :
  1 ≤ k → pool_size ≤ INT32_MAX → Z.of_nat n < SIZE_MAX →
  reachable_in pool_size disk k n b →
  enumerates order (replacer_ b) → free_list_ b = [] →
  obtain_frame order b = Ok (Some (f, p0), b1) →
  lruk_victim (replacer_ b) f ∧
  page_at b f = Ok p0 ∧ pin_count_ p0 = 0 ∧
  page_table_ b !! page_id_ p0 = Some f.
Proof.
  intros Hk Hsize Hn Hreach Hen Hfree Hob.
  pose proof (reachable_inv _ _ _ _ _ Hsize Hreach) as Hinv.
  pose proof (reachable_pinned _ _ _ _ _ Hreach) as Hpin.
  pose proof (reachable_scannable _ _ _ _ _ Hk Hsize Hn Hreach) as Hsc.
  destruct (obtain_frame_inv pool_size _ _ _ _ _ Hinv Hpin Hen Hob)
    as (Hp0 & Hzero & _ & _ & _ & _ & Hvictim & _).
  destruct (obtain_frame_Some _ _ _ _ _ Hen Hob) as (_ & _ & _ & _ & Hcase).
  destruct Hcase as [(Hfree' & _) | (_ & _ & [i Hi] & Hev & _)]; [congruence|].
  destruct (Evict_selects (replacer_ b) order Hsc Hen (ex_intro _ f (ex_intro _ i Hi)))
    as (f' & r' & Hbest & Hev' & _).
  assert (f' = f) as -> by congruence.
  split_and!; try done. by apply Hvictim.
Qed.

(** After [n < 2^64-1] calls on a fresh pool of at most 2^31-1 frames
    whose replacer was built with [k >= 1]: when the free list is empty,
    the frame [NewPgImp] or a [FetchPgImp] of a page that is not resident
    takes over is a victim of the LRU-K policy among the replacer's
    evictable frames (largest backward k-distance, ties broken by the
    oldest retained access), and it held a resident page with pin count
    zero. *)
Theorem pool_evicts_by_LRUK pool_size disk k n b order :
  1 ≤ k → pool_size ≤ INT32_MAX → Z.of_nat n < SIZE_MAX →
  reachable_in pool_size disk k n b →
  enumerates order (replacer_ b) → free_list_ b = [] →
  (∀ page_id f b', NewPgImp order b = Ok (Some (page_id, f), b') →
     lruk_victim (replacer_ b) f ∧
     ∃ p, page_at b f = Ok p ∧ pin_count_ p = 0 ∧
          page_table_ b !! page_id_ p = Some f) ∧
  (∀ page_id f b', page_table_ b !! page_id = None →
     FetchPgImp order page_id b = Ok (Some f, b') →
     lruk_victim (replacer_ b) f ∧
     ∃ p, page_at b f = Ok p ∧ pin_count_ p = 0 ∧
          page_table_ b !! page_id_ p = Some f).
Proof.
  intros Hk Hsize Hn Hreach Hen Hfree. split.
  - intros page_id f b' Hrun.
    destruct (NewPgImp_inv _ _ _ _ _ Hrun) as (p0 & b1 & Hob & _).
    destruct (obtain_frame_victim _ _ _ _ _ _ _ _ _ Hk Hsize Hn Hreach Hen Hfree Hob)
      as (Hbest & Hrest).
    split; [done|]. by exists p0.
  - intros page_id f b' Hmiss Hrun.
    destruct (FetchPgImp_miss_inv _ _ _ _ _ Hmiss Hrun) as (p0 & b1 & Hob & _).
    destruct (obtain_frame_victim _ _ _ _ _ _ _ _ _ Hk Hsize Hn Hreach Hen Hfree Hob)
      as (Hbest & Hrest).
    split; [done|]. by exists p0.
Qed.

Lemma pool_evicts_by_LRUK_witness :
  let disk := {| stored := ∅; calls := [] |} in
  let i0 := {| timestamp := [0]; evictable := true |} in
  let i1 := {| timestamp := [1]; evictable := true |} in
  let b := {| pool_size_ := 2;
              pages_ := [{| data_ := zero_page; page_id_ := 0;
                            pin_count_ := 0; is_dirty_ := true |};
                         {| data_ := zero_page; page_id_ := 1;
                            pin_count_ := 0; is_dirty_ := false |}];
              page_table_ := <[1 := 1]> {[ 0 := 0 ]};
              free_list_ := [];
              replacer_ := {| frame_table_ := <[1 := i1]> {[ 0 := i0 ]};
                              current_timestamp_ := 2; curr_size_ := 2;
                              replacer_size_ := 2; k_ := 2 |};
              next_page_id_ := 2;
              disk_manager_ := disk |} in
  let order := [(1, i1); (0, i0)] in
  (1 ≤ 2 ∧ 2 ≤ INT32_MAX ∧ Z.of_nat 4 < SIZE_MAX ∧ reachable_in 2 disk 2 4 b ∧
   enumerates order (replacer_ b) ∧ free_list_ b = []) ∧
  ∃ b', NewPgImp order b = Ok (Some (2, 0), b') ∧ lruk_victim (replacer_ b) 0.
Proof.
  intros disk i0 i1 b order.
  assert (2 ≤ INT32_MAX) as Hsize by (unfold INT32_MAX; lia).
  assert (Z.of_nat 4 < SIZE_MAX) as Hn by (unfold SIZE_MAX; lia).
  set (cs := [NewPage []; NewPage [(0, {| timestamp := [0]; evictable := false |})];
              UnpinPage 0 true; UnpinPage 1 false]).
  assert (reachable_in 2 disk 2 4 b) as Hreach.
  { change 4%nat with (length cs + 0)%nat.
    eapply (run_all_reachable 2 disk 2 cs 0).
    - apply reach_new. reflexivity.
    - simpl. split_and!; try done; unfold enumerates; vm_compute; reflexivity.
    - reflexivity. }
  assert (enumerates order (replacer_ b)) as Hen.
  { unfold enumerates. simpl. rewrite map_to_list_insert by reflexivity.
    by rewrite map_to_list_singleton. }
  split; [by split_and!; try lia|].
  destruct (NewPgImp order b) as [[[[pid f]|] b']| |] eqn:Hrun;
    try (vm_compute in Hrun; discriminate).
  assert (pid = 2 ∧ f = 0) as [-> ->].
  { vm_compute in Hrun. by inversion Hrun. }
  destruct (pool_evicts_by_LRUK 2 disk 2 4 b order ltac:(lia) Hsize Hn Hreach Hen eq_refl)
    as [Hnew _].
  destruct (Hnew 2 0 b' Hrun) as [Hbest _].
  exists b'. by split.
Defined.

(** ** The capacity of the pool *)

Lemma frame_in_array pool_size b f m :
  pool_core pool_size b → meta_at b f = Some m →
  f ∈ seqZ 0 (Z.of_nat (length (pages_ b))).
Proof.
  intros Hcore Hm. apply meta_at_page in Hm as (p & Hp & _).
  apply page_at_Ok in Hp as [Hf Hp]. apply lookup_lt_Some in Hp.
  apply elem_of_seqZ. lia.
Qed.

(** In every state reachable from a fresh pool of at most 2^31-1 frames,
    the resident pages occupy distinct frames, none of them on the free
    list, so the number of resident pages plus the number of free frames
    never exceeds [pool_size]. *)
Theorem resident_pages_within_capacity pool_size disk k b :
  pool_size ≤ INT32_MAX →
  reachable pool_size disk k b →
  (∀ page_id page_id' f, page_table_ b !! page_id = Some f →
                         page_table_ b !! page_id' = Some f → page_id = page_id') ∧
  Z.of_nat (size (page_table_ b)) + Z.of_nat (length (free_list_ b))
    ≤ Z.max pool_size 0.
Proof.
  intros Hsize [n Hreach].
  destruct (reachable_inv _ _ _ _ _ Hsize Hreach) as [Hcore _].
  assert (∀ pid pid' f, page_table_ b !! pid = Some f →
                        page_table_ b !! pid' = Some f → pid = pid') as Hinj.
  { intros pid pid' f H1 H2.
    destruct (pc_resident _ _ Hcore _ _ H1) as (pin1 & i1 & Hm1 & _).
    destruct (pc_resident _ _ Hcore _ _ H2) as (pin2 & i2 & Hm2 & _).
    congruence. }
  split; [exact Hinj|].
  set (frames := (map_to_list (page_table_ b)).*2 ++ free_list_ b).
  assert (NoDup frames) as Hnd.
  { apply NoDup_app. split_and!.
    - apply NoDup_fmap_2_strong; [|apply NoDup_map_to_list].
      intros [pid f] [pid' f'] Hin Hin' Heq. simpl in Heq. subst f'.
      apply elem_of_map_to_list in Hin, Hin'. f_equal. by apply (Hinj pid pid' f).
    - intros f ([pid f'] & -> & Hin)%list_elem_of_fmap Hfree.
      apply elem_of_map_to_list in Hin.
      destruct (pc_free _ _ Hcore _ Hfree) as (_ & _ & Hout). by apply (Hout pid).
    - apply (pc_free_nodup _ _ Hcore). }
  assert (frames ⊆+ seqZ 0 (Z.of_nat (length (pages_ b)))) as Hsub.
  { apply NoDup_submseteq; [done|]. intros f [Hin | Hin]%elem_of_app.
    - apply list_elem_of_fmap in Hin as ([pid f'] & -> & Hin).
      apply elem_of_map_to_list in Hin.
      destruct (pc_resident _ _ Hcore _ _ Hin) as (pin & i & Hm & _).
      by apply (frame_in_array pool_size b _ _ Hcore Hm).
    - destruct (pc_free _ _ Hcore _ Hin) as ([pid Hm] & _).
      by apply (frame_in_array pool_size b _ _ Hcore Hm). }
  apply submseteq_length in Hsub. unfold frames in Hsub.
  rewrite length_app, length_fmap, length_map_to_list, length_seqZ in Hsub.
  rewrite Nat2Z.id, (pc_frames _ _ Hcore) in Hsub. lia.
Qed.

Lemma resident_pages_within_capacity_witness :
  let disk := {| stored := ∅; calls := [] |} in
  let b := {| pool_size_ := 1;
              pages_ := [{| data_ := zero_page; page_id_ := 0;
                            pin_count_ := 1; is_dirty_ := false |}];
              page_table_ := {[ 0 := 0 ]};
              free_list_ := [];
              replacer_ := {| frame_table_ := {[ 0 := {| timestamp := [0]; evictable := false |} ]};
                              current_timestamp_ := 1; curr_size_ := 0;
                              replacer_size_ := 1; k_ := 2 |};
              next_page_id_ := 1;
              disk_manager_ := disk |} in
  (1 ≤ INT32_MAX ∧ reachable 1 disk 2 b) ∧
  Z.of_nat (size (page_table_ b)) + Z.of_nat (length (free_list_ b)) ≤ Z.max 1 0.
Proof.
  intros disk b.
  assert (1 ≤ INT32_MAX) as Hsize by (unfold INT32_MAX; lia).
  assert (reachable 1 disk 2 b) as Hreach.
  { exists 1%nat. eapply (reach_call 1 disk 2 0 _ (NewPage []) b).
    - apply reach_new. reflexivity.
    - cbn [order_ok]. unfold enumerates. simpl. by rewrite map_to_list_empty.
    - reflexivity. }
  split; [by split|].
  exact (proj2 (resident_pages_within_capacity 1 disk 2 b Hsize Hreach)).
Defined.

(** ** Every call returns *)

Lemma obtain_frame_returns pool_size disk k n b order :
  1 ≤ k → pool_size ≤ INT32_MAX → Z.of_nat n < SIZE_MAX →
  reachable_in pool_size disk k n b →
  enumerates order (replacer_ b) →
  ∃ got b1, obtain_frame order b = Ok (got, b1).
Proof.
  intros Hk Hsize Hn Hreach Hen.
  assert (exhausted b ∨ ¬ exhausted b) as [Hex | Hnex].
  { unfold exhausted. destruct (free_list_ b) as [|f0 rest].
    - destruct (evictable_or_none (replacer_ b)) as [(f & i & Hi & Hev) | Hnone].
      + right. intros [_ Hnone]. specialize (Hnone f i Hi). congruence.
      + left. by split.
    - right. by intros [? _]. }
  - exists None, b. by apply obtain_frame_exhausted.
  - destruct (obtain_frame_available _ _ _ _ _ order Hk Hsize Hn Hreach Hen Hnex)
      as (f & p & b1 & Hob). by exists (Some (f, p)), b1.
Qed.

Lemma resident_page pool_size b page_id f :
  pool_core pool_size b → page_table_ b !! page_id = Some f →
  ∃ p i, page_at b f = Ok p ∧ page_id_ p = page_id ∧ 0 ≤ pin_count_ p ∧
         frame_table_ (replacer_ b) !! f = Some i ∧
         (pin_count_ p = 0 → evictable i = true).
Proof.
  intros Hcore Hres.
  destruct (pc_resident _ _ Hcore _ _ Hres) as (pin & i & Hm & Hi & Hev).
  pose proof (pc_pins _ _ Hcore _ _ _ Hm) as Hpos.
  apply meta_at_page in Hm as (p & Hp & Hfm).
  assert (page_id_ p = page_id ∧ pin_count_ p = pin) as [Hid Hpc]
    by (unfold frame_meta in Hfm; split; congruence).
  exists p, i. split_and!; [done|done|lia|done|]. intros Hz. apply Hev. lia.
Qed.

(** After [n < 2^64-1] calls on a fresh pool of at most 2^31-1 frames
    whose replacer was built with [k >= 1], every further call returns:
    it fails no assertion and has no undefined behaviour, provided a
    fetch does not find the page's pin count at 2^31-1; and the state it
    leaves is again a reachable one. *)
Theorem every_call_returns pool_size disk k n b c :
  1 ≤ k → pool_size ≤ INT32_MAX → Z.of_nat n < SIZE_MAX →
  reachable_in pool_size disk k n b →
  order_ok c b → pin_room c b →
  ∃ b', run c b = Ok b' ∧ reachable_in pool_size disk k (S n) b'.
Proof.
  intros Hk Hsize Hn Hreach Hok Hroom.
  enough (∃ b', run c b = Ok b') as [b' Hrun].
  { exists b'. split; [done|]. by apply (reach_call _ _ _ _ b c). }
  pose proof (reachable_inv _ _ _ _ _ Hsize Hreach) as [Hcore _].
  destruct c as [order|order page_id|page_id is_dirty|page_id|order|page_id];
    cbn [run order_ok pin_room] in *.
  - destruct (obtain_frame_returns _ _ _ _ _ _ Hk Hsize Hn Hreach Hok)
      as (got & b1 & Hob).
    unfold NewPgImp. rewrite Hob, bind_Ok.
    destruct got as [[f p]|]; simpl; eauto.
  - unfold FetchPgImp. destruct (page_table_ b !! page_id) as [f|] eqn:Hres.
    + destruct (resident_page _ _ _ _ Hcore Hres) as (p & i & Hp & _).
      specialize (Hroom f p eq_refl Hp).
      rewrite Hp, bind_Ok, (proj2 (Z.eqb_neq _ _)) by lia. simpl. eauto.
    + destruct (obtain_frame_returns _ _ _ _ _ _ Hk Hsize Hn Hreach Hok)
        as (got & b1 & Hob).
      rewrite Hob, bind_Ok. destruct got as [[f p]|]; simpl; eauto.
  - unfold UnpinPgImp. destruct (page_table_ b !! page_id) as [f|] eqn:Hres;
      [|simpl; eauto].
    destruct (resident_page _ _ _ _ Hcore Hres) as (p & i & Hp & _).
    rewrite Hp, bind_Ok. destruct (pin_count_ p <=? 0); [simpl; eauto|].
    cbv zeta. destruct (_ =? 0); simpl; eauto.
  - unfold FlushPgImp. destruct (page_id =? INVALID_PAGE_ID); [simpl; eauto|].
    destruct (page_table_ b !! page_id) as [f|] eqn:Hres; [|simpl; eauto].
    destruct (resident_page _ _ _ _ Hcore Hres) as (p & i & Hp & _).
    rewrite Hp, bind_Ok. simpl. eauto.
  - destruct (FlushAll_loop_effect order b) as (b' & written & Hrun & _).
    + intros pid f Hin. rewrite Hok in Hin. apply elem_of_map_to_list in Hin.
      destruct (resident_page _ _ _ _ Hcore Hin) as (p & i & Hp & Hid & _). eauto.
    + rewrite Hok. apply NoDup_fst_map_to_list.
    + by exists b'.
  - unfold DeletePgImp. destruct (page_table_ b !! page_id) as [f|] eqn:Hres;
      [|simpl; eauto].
    destruct (resident_page _ _ _ _ Hcore Hres) as (p & i & Hp & _ & Hpos & Hi & Hev).
    rewrite Hp, bind_Ok. destruct (0 <? pin_count_ p) eqn:Hpinned; zbool;
      [simpl; eauto|].
    cbn [replacer_ set_page_table set_free_list]. unfold Remove.
    rewrite (resident_in_capacity _ _ f _ Hsize Hcore (page_at_meta_at _ _ _ Hp)), Hi.
    rewrite Hev by lia. simpl. eauto.
Qed.

Lemma every_call_returns_witness :
  let disk := {| stored := ∅; calls := [] |} in
  let i := {| timestamp := [0]; evictable := false |} in
  let b := {| pool_size_ := 1;
              pages_ := [{| data_ := zero_page; page_id_ := 0;
                            pin_count_ := 1; is_dirty_ := false |}];
              page_table_ := {[ 0 := 0 ]};
              free_list_ := [];
              replacer_ := {| frame_table_ := {[ 0 := i ]};
                              current_timestamp_ := 1; curr_size_ := 0;
                              replacer_size_ := 1; k_ := 2 |};
              next_page_id_ := 1;
              disk_manager_ := disk |} in
  let c := FetchPage [(0, i)] 0 in
  (1 ≤ 2 ∧ 1 ≤ INT32_MAX ∧ Z.of_nat 1 < SIZE_MAX ∧ reachable_in 1 disk 2 1 b ∧
   order_ok c b ∧ pin_room c b) ∧
  ∃ b', run c b = Ok b' ∧ reachable_in 1 disk 2 2 b'.
Proof.
  intros disk i b c.
  assert (1 ≤ INT32_MAX) as Hsize by (unfold INT32_MAX; lia).
  assert (Z.of_nat 1 < SIZE_MAX) as Hn by (unfold SIZE_MAX; lia).
  assert (reachable_in 1 disk 2 1 b) as Hreach.
  { eapply (reach_call 1 disk 2 0 _ (NewPage []) b).
    - apply reach_new. reflexivity.
    - cbn [order_ok]. unfold enumerates. simpl. by rewrite map_to_list_empty.
    - reflexivity. }
  assert (order_ok c b) as Hok.
  { cbn [order_ok c]. unfold enumerates. simpl. by rewrite map_to_list_singleton. }
  assert (pin_room c b) as Hroom.
  { intros f p Hf Hp. simpl in Hf. inversion Hf; subst f.
    vm_compute in Hp. inversion Hp; subst p. unfold INT32_MAX. simpl. lia. }
  split; [by split_and!; try lia|].
  exact (every_call_returns 1 disk 2 1 b c ltac:(lia) Hsize Hn Hreach Hok Hroom).
Defined.
